(** * Alert escalation and resolution: a shallow embedding

    The development follows the JavaScript sources of the alert management
    backend:

    - [models/Alert.js]               the alert entity and its transitions,
    - [services/RuleEngine.js]        rule lookup, escalation and auto-close checks,
    - [services/AlertStorageManager.js] and [config/database.js]
                                      the Redis / in-memory storage pair,
    - [services/AlertService.js]      createAlert, processAlert, the two sweeps,
                                      resolveAlert,
    - the document renewal route of [routes/api/alerts.js].

    Conventions of the embedding.

    - Time.  [Date.now()] and ISO timestamps are integers (milliseconds since
      the epoch, [Z]); [new Date(s).getTime()] is the identity on them.  Every
      service call reads the clock once: it takes the current time [now] as an
      argument, also where the code reads the clock again within the call
      (a transition reads it once for the field it sets and once more for
      the history event it records).  A [Date] built from a computed time
      value is [Date_new]: beyond the range of time values it is an Invalid
      Date, which compares false with every date.
    - Numbers.  Rule thresholds, environment values and metadata numbers are
      integers, in the range where JavaScript's arithmetic on them is exact.
    - Objects mutated in place ([alert.escalate(...)]) become functions that
      return the updated record; the service functions return the new service
      state together with the alert object the caller holds.
    - [process.env] is the record [Env]; an unset variable is [None].
    - Metadata values are the JSON scalars; [===] on them is structural
      equality, and a missing property ([undefined]) is [None].
    - Alert ids are the non-empty strings [uuidv4] produces. *)

From stdpp Require Import gmap strings list pretty sorting.

Open Scope Z_scope.

(** ** Constants *)

(** Modelled from the spec: [config/constants.js] is not among the sources;
    the five alert states are those of the data model. *)
Inductive AlertState := OPEN | ESCALATED | AUTO_CLOSED | RESOLVED | EXPIRED.

(** Modelled from the spec: [SEVERITY_LEVELS] of [config/constants.js]. *)
Inductive Severity := LOW | MEDIUM | HIGH | CRITICAL.

(** Modelled from the spec: [EVENT_TYPES] of [config/constants.js], one per
    history action that [Alert.js] records. *)
Inductive EventType :=
  EV_CREATED | EV_ESCALATED | EV_AUTO_CLOSED | EV_RESOLVED | EV_EXPIRED.

#[global] Instance AlertState_eq_dec : EqDecision AlertState.
Proof. solve_decision. Defined.
#[global] Instance Severity_eq_dec : EqDecision Severity.
Proof. solve_decision. Defined.
#[global] Instance EventType_eq_dec : EqDecision EventType.
Proof. solve_decision. Defined.

(** ** JavaScript values found in alert metadata *)

Inductive JsVal :=
  | JNull
  | JBool (b : bool)
  | JNum (n : Z)
  | JStr (s : string).

#[global] Instance JsVal_eq_dec : EqDecision JsVal.
Proof. solve_decision. Defined.

(** [x === y] where either side may be [undefined] (a missing property). *)
Definition strict_eq (x y : option JsVal) : bool := bool_decide (x = y).

(** Truthiness of an optional number ([undefined] and [0] are falsy). *)
Definition truthy_num (x : option Z) : bool :=
  match x with
  | Some n => negb (n =? 0)
  | None => false
  end.

(** Truthiness of an optional string ([undefined] and [''] are falsy). *)
Definition truthy_str (x : option string) : bool :=
  match x with
  | Some s => negb (String.eqb s "")
  | None => false
  end.

(** ** Dates *)

(** The largest time value of a [Date]: 8.64e15 milliseconds either side of
    the epoch. *)
Definition maxTimeValue : Z := 8640000000000000.

(** [new Date(ms)] for a computed time value: beyond [maxTimeValue] the
    result is an Invalid Date, [None]. *)
Definition Date_new (ms : Z) : option Z :=
  if (- maxTimeValue <=? ms) && (ms <=? maxTimeValue) then Some ms else None.

(** [new Date(timestamp) >= d] and [new Date(timestamp) < d], [timestamp]
    that of an alert (an ISO string that [toISOString] produced, a valid
    date): a comparison with an Invalid Date is false. *)
Definition date_ge (t : Z) (d : option Z) : bool :=
  match d with
  | Some x => t >=? x
  | None => false
  end.

Definition date_lt (t : Z) (d : option Z) : bool :=
  match d with
  | Some x => t <? x
  | None => false
  end.

(** [process.env]: the two variables the core reads. *)
Record Env := {
  ESCALATION_COOLDOWN_MINUTES : option Z;
  ALERT_EXPIRY_DAYS : option Z
}.

(** [process.env.X || dflt].  An environment variable is a string, so a value
    of ["0"] is truthy and is used as it is. *)
Definition env_or (x : option Z) (dflt : Z) : Z :=
  match x with
  | Some v => v
  | None => dflt
  end.

(** ** models/Alert.js *)

Module AlertModel.

Record HistoryEvent := {
  action : EventType;
  ev_timestamp : Z;
  details : string;
  previousStatus : option AlertState;
  previousSeverity : option Severity
}.

Record Alert := {
  alertId : string;
  sourceType : string;
  severity : Severity;
  timestamp : Z;
  status : AlertState;
  metadata : gmap string JsVal;
  history : list HistoryEvent;
  resolution : option string;
  resolvedAt : option Z;
  expiredAt : option Z;
  lastEscalatedAt : option Z;
  escalationCount : Z
}.

(** What the controller hands to [createAlert]: [{sourceType, severity,
    metadata}], the last two possibly missing.  The severity is one of the
    four levels; the controller does not check it, and a request that
    carries another value, which the constructor stores as it is given, is
    not represented. *)
Record AlertInput := {
  in_sourceType : string;
  in_severity : option Severity;
  in_metadata : option (gmap string JsVal)
}.

(** [addHistoryEvent(action, details, previousStatus = null,
    previousSeverity = null)]: pushes at the end of [history]. *)
Definition addHistoryEvent (now : Z) (a : Alert) (act : EventType)
    (det : string) (prevStatus : option AlertState)
    (prevSeverity : option Severity) : Alert :=
  {| alertId := alertId a; sourceType := sourceType a;
     severity := severity a; timestamp := timestamp a; status := status a;
     metadata := metadata a;
     history := history a ++
       [{| action := act; ev_timestamp := now; details := det;
           previousStatus := prevStatus; previousSeverity := prevSeverity |}];
     resolution := resolution a; resolvedAt := resolvedAt a;
     expiredAt := expiredAt a; lastEscalatedAt := lastEscalatedAt a;
     escalationCount := escalationCount a |}.

(** The constructor on data without an [alertId] (a new alert): every
    [data.x || default] takes the default except for the three fields the
    caller gives, the id is the fresh [uuid], and the creation event is
    recorded. *)
Definition Alert_new (uuid : string) (now : Z) (data : AlertInput) : Alert :=
  addHistoryEvent now
    {| alertId := uuid;
       sourceType := in_sourceType data;
       severity := default MEDIUM (in_severity data);
       timestamp := now;
       status := OPEN;
       metadata := default ∅ (in_metadata data);
       history := [];
       resolution := None; resolvedAt := None; expiredAt := None;
       lastEscalatedAt := None;
       escalationCount := 0 |}
    EV_CREATED "Alert created" None None.

(** [toJSON()] followed by the constructor on that data (a stored alert,
    [alertId] present, no creation event): every truthy field is kept;
    [data.resolution || null] turns an empty resolution text into [null].
    The computed [age] field of [toJSON] is ignored by the constructor. *)
Definition Alert_load (d : Alert) : Alert :=
  {| alertId := alertId d; sourceType := sourceType d;
     severity := severity d; timestamp := timestamp d; status := status d;
     metadata := metadata d; history := history d;
     resolution := if truthy_str (resolution d) then resolution d else None;
     resolvedAt := resolvedAt d; expiredAt := expiredAt d;
     lastEscalatedAt := lastEscalatedAt d;
     escalationCount := escalationCount d |}.

(** [escalate(newSeverity, reason)].  The method reads the clock for
    [lastEscalatedAt] and, within [addHistoryEvent], once more for the
    event; here both are the [now] of the call.  The same holds for
    [resolve], [expire] and the constructor. *)
Definition escalate (now : Z) (a : Alert) (newSeverity : Severity)
    (reason : string) : Alert :=
  let oldStatus := status a in
  let oldSeverity := severity a in
  addHistoryEvent now
    {| alertId := alertId a; sourceType := sourceType a;
       severity := newSeverity; timestamp := timestamp a;
       status := ESCALATED;
       metadata := metadata a; history := history a;
       resolution := resolution a; resolvedAt := resolvedAt a;
       expiredAt := expiredAt a;
       lastEscalatedAt := Some now;
       escalationCount := escalationCount a + 1 |}
    EV_ESCALATED reason (Some oldStatus) (Some oldSeverity).

Definition autoClose (now : Z) (a : Alert) (reason : string) : Alert :=
  let oldStatus := status a in
  addHistoryEvent now
    {| alertId := alertId a; sourceType := sourceType a;
       severity := severity a; timestamp := timestamp a;
       status := AUTO_CLOSED;
       metadata := metadata a; history := history a;
       resolution := resolution a; resolvedAt := resolvedAt a;
       expiredAt := expiredAt a; lastEscalatedAt := lastEscalatedAt a;
       escalationCount := escalationCount a |}
    EV_AUTO_CLOSED reason (Some oldStatus) None.

(** [resolve(resolution)]; the text may be missing from the request body. *)
Definition resolve (now : Z) (a : Alert) (res : option string) : Alert :=
  let oldStatus := status a in
  addHistoryEvent now
    {| alertId := alertId a; sourceType := sourceType a;
       severity := severity a; timestamp := timestamp a;
       status := RESOLVED;
       metadata := metadata a; history := history a;
       resolution := res;
       resolvedAt := Some now;
       expiredAt := expiredAt a; lastEscalatedAt := lastEscalatedAt a;
       escalationCount := escalationCount a |}
    EV_RESOLVED
    (if truthy_str res then default "" res else "Manually resolved")
    (Some oldStatus) None.

Definition expire (env : Env) (now : Z) (a : Alert) : Alert :=
  let oldStatus := status a in
  addHistoryEvent now
    {| alertId := alertId a; sourceType := sourceType a;
       severity := severity a; timestamp := timestamp a;
       status := EXPIRED;
       metadata := metadata a; history := history a;
       resolution := resolution a; resolvedAt := resolvedAt a;
       expiredAt := Some now;
       lastEscalatedAt := lastEscalatedAt a;
       escalationCount := escalationCount a |}
    EV_EXPIRED
    ("Alert expired after " +:+ pretty (env_or (ALERT_EXPIRY_DAYS env) 30)
       +:+ " days")
    (Some oldStatus) None.

(** [![RESOLVED, AUTO_CLOSED, EXPIRED].includes(this.status)] *)
Definition isActive (a : Alert) : bool :=
  negb (bool_decide (status a ∈ [RESOLVED; AUTO_CLOSED; EXPIRED])).

Definition canEscalate (env : Env) (now : Z) (a : Alert) : bool :=
  match lastEscalatedAt a with
  | None => true
  | Some last =>
      let cooldownMs := env_or (ESCALATION_COOLDOWN_MINUTES env) 60 * 60 * 1000 in
      let timeSinceLastEscalation := now - last in
      timeSinceLastEscalation >? cooldownMs
  end.

(** [getAge()] is [(now - timestamp) / 86400000], a fractional number of
    days.  The code only compares it with a whole number of days and takes
    its floor; both are exact on the millisecond difference. *)
Definition ageMs (now : Z) (a : Alert) : Z := now - timestamp a.

Definition msPerDay : Z := 1000 * 60 * 60 * 24.

(** [getAge() >= days], for a threshold of a whole number of days (the
    rules of the embedding hold whole numbers). *)
Definition ageAtLeastDays (now : Z) (a : Alert) (days : Z) : bool :=
  ageMs now a >=? days * msPerDay.

(** [Math.floor(getAge())] *)
Definition ageFloorDays (now : Z) (a : Alert) : Z := ageMs now a / msPerDay.

End AlertModel.

Export AlertModel.

(** ** services/RuleEngine.js *)

Module RuleEngine.

(** A rule of the configuration: [{escalate_if_count?, window_mins?,
    escalate_if_days?, escalate_to_severity, auto_close_if?}]. *)
Record Rule := {
  escalate_if_count : option Z;
  window_mins : option Z;
  escalate_if_days : option Z;
  escalate_to_severity : Severity;
  auto_close_if : option string
}.

(** The action object [{type, newStatus, newSeverity?, reason}]: [type] is
    the constructor, and [newStatus] is fixed by it. *)
Inductive Action :=
  | ActEscalate (newSeverity : Severity) (reason : string)
  | ActAutoClose (reason : string).

Definition newStatus (act : Action) : AlertState :=
  match act with
  | ActEscalate _ _ => ESCALATED
  | ActAutoClose _ => AUTO_CLOSED
  end.

Definition is_escalate (act : option Action) : bool :=
  match act with
  | Some (ActEscalate _ _) => true
  | _ => false
  end.

Definition is_auto_close (act : option Action) : bool :=
  match act with
  | Some (ActAutoClose _) => true
  | _ => false
  end.

Definition getDefaultRules : gmap string Rule :=
  <["overspeed" :=
      {| escalate_if_count := Some 3; window_mins := Some 60;
         escalate_if_days := None; escalate_to_severity := CRITICAL;
         auto_close_if := Some "speed_normalized" |}]>
  (<["feedback_negative" :=
      {| escalate_if_count := Some 2; window_mins := Some 1440;
         escalate_if_days := None; escalate_to_severity := HIGH;
         auto_close_if := Some "feedback_resolved" |}]>
  (<["compliance" :=
      {| escalate_if_count := None; window_mins := None;
         escalate_if_days := Some 7; escalate_to_severity := HIGH;
         auto_close_if := Some "document_valid" |}]>
  (<["document_expiry" :=
      {| escalate_if_count := None; window_mins := None;
         escalate_if_days := Some 3; escalate_to_severity := CRITICAL;
         auto_close_if := Some "document_renewed" |}]>
  (<["vehicle_maintenance" :=
      {| escalate_if_count := None; window_mins := None;
         escalate_if_days := Some 5; escalate_to_severity := HIGH;
         auto_close_if := Some "maintenance_completed" |}]>
  (<["driver_fatigue" :=
      {| escalate_if_count := Some 1; window_mins := Some 30;
         escalate_if_days := None; escalate_to_severity := CRITICAL;
         auto_close_if := Some "driver_rested" |}]> ∅))))).

(** The predicate of [allAlerts.filter(a => ...)] in [checkEscalationRules]:
    same source type, active, timestamp not before [windowStart], and the
    same [driverId] or the same [vehicleId] as the subject alert. *)
Definition recentAlertMatch (alert : Alert) (windowStart : option Z) (a : Alert)
    : bool :=
  String.eqb (sourceType a) (sourceType alert) &&
  isActive a &&
  date_ge (timestamp a) windowStart &&
  (strict_eq (metadata a !! "driverId") (metadata alert !! "driverId") ||
   strict_eq (metadata a !! "vehicleId") (metadata alert !! "vehicleId")).

Definition recentAlerts (now : Z) (alert : Alert) (windowMins : Z)
    (allAlerts : list Alert) : list Alert :=
  let windowStart := Date_new (now - windowMins * 60 * 1000) in
  List.filter (recentAlertMatch alert windowStart) allAlerts.

(** Count-based escalation within the time window (first block of
    [checkEscalationRules]); [None] when the block is skipped or the count
    is below the threshold. *)
Definition countEscalation (now : Z) (alert : Alert) (rule : Rule)
    (allAlerts : list Alert) : option Action :=
  if truthy_num (escalate_if_count rule) && truthy_num (window_mins rule) then
    let count := default 0 (escalate_if_count rule) in
    let mins := default 0 (window_mins rule) in
    let recent := recentAlerts now alert mins allAlerts in
    if Z.of_nat (length recent) >=? count then
      Some (ActEscalate (escalate_to_severity rule)
              (pretty (Z.of_nat (length recent)) +:+ " " +:+ sourceType alert
                 +:+ " alerts in " +:+ pretty mins +:+ " minutes"))
    else None
  else None.

(** Age-based escalation (second block of [checkEscalationRules]). *)
Definition ageEscalation (now : Z) (alert : Alert) (rule : Rule) : option Action :=
  if truthy_num (escalate_if_days rule) && bool_decide (status alert = OPEN) then
    let days := default 0 (escalate_if_days rule) in
    if ageAtLeastDays now alert days then
      Some (ActEscalate (escalate_to_severity rule)
              ("Alert aged " +:+ pretty (ageFloorDays now alert) +:+ " days"))
    else None
  else None.

Definition checkEscalationRules (env : Env) (now : Z) (alert : Alert)
    (rule : Rule) (allAlerts : list Alert) : option Action :=
  if negb (canEscalate env now alert) then None
  else
    match countEscalation now alert rule allAlerts with
    | Some act => Some act
    | None => ageEscalation now alert rule
    end.

(** [checkAutoCloseRules].  [alert.metadata] is always an object, so only
    the first half of the guard can fail. *)
Definition checkAutoCloseRules (alert : Alert) (rule : Rule) : option Action :=
  if negb (truthy_str (auto_close_if rule)) then None
  else
    let condition := default "" (auto_close_if rule) in
    let conditionValue :=
      strict_eq (metadata alert !! condition) (Some (JBool true)) ||
      strict_eq (metadata alert !! condition) (Some (JStr "true")) ||
      (String.eqb condition "document_valid" &&
         strict_eq (metadata alert !! "document_valid") (Some (JBool true))) ||
      (String.eqb condition "document_renewed" &&
         strict_eq (metadata alert !! "document_renewed") (Some (JBool true))) ||
      (String.eqb condition "maintenance_completed" &&
         strict_eq (metadata alert !! "maintenance_completed") (Some (JBool true)))
    in
    if conditionValue then
      Some (ActAutoClose ("Auto-closed because " +:+ condition +:+ " condition met"))
    else None.

Definition evaluateAlert (env : Env) (now : Z) (rules : gmap string Rule)
    (alert : Alert) (allAlerts : list Alert) : option Action :=
  match rules !! sourceType alert with
  | None => None
  | Some rule =>
      match checkEscalationRules env now alert rule allAlerts with
      | Some escalationAction => Some escalationAction
      | None =>
          match checkAutoCloseRules alert rule with
          | Some autoCloseAction => Some autoCloseAction
          | None => None
          end
      end
  end.

(** [updateRules(newRules)]: [{ ...this.rules, ...newRules }], the new
    entries winning. *)
Definition updateRules (rules newRules : gmap string Rule) : gmap string Rule :=
  newRules ∪ rules.

End RuleEngine.

Export RuleEngine.

(** ** services/AlertStorageManager.js over config/database.js *)

Module AlertStorageManager.

(** A keyed store with the behaviour of a JavaScript [Map]: [set] on a
    present key replaces the value in place, on a new key appends, and
    iteration follows insertion order. *)
Fixpoint kv_set {V : Type} (k : string) (v : V) (m : list (string * V))
    : list (string * V) :=
  match m with
  | [] => [(k, v)]
  | (k', v') :: m' =>
      if String.eqb k k' then (k, v) :: m' else (k', v') :: kv_set k v m'
  end.

Fixpoint kv_get {V : Type} (k : string) (m : list (string * V)) : option V :=
  match m with
  | [] => None
  | (k', v') :: m' => if String.eqb k k' then Some v' else kv_get k m'
  end.

Fixpoint kv_delete {V : Type} (k : string) (m : list (string * V))
    : list (string * V) :=
  match m with
  | [] => []
  | (k', v') :: m' =>
      if String.eqb k k' then m' else (k', v') :: kv_delete k m'
  end.

(** The storage manager with its Redis manager.  [redis] is the content of
    the Redis server under the string keys the manager writes (the alert
    records; the sorted sets indexing drivers and vehicles, and the two
    in-memory index maps, are left out: no read of an alert goes through
    them here).  A stored value is the [toJSON()] image of the alert; see
    [Alert_load].  In the in-memory store that image shares its [history]
    array and [metadata] object with the alert it was taken from; the
    service saves an alert after each mutation and before the next read, so
    the sharing is never observed and the store holds values.  While
    [isConnected] holds, Redis commands succeed; [KEYS] lists the keys in
    the order they were first written. *)
Record Storage := {
  isConnected : bool;
  redis : list (string * Alert);
  memoryStore : list (string * Alert)
}.

Definition alertKey (id : string) : string := "alert:" +:+ id.

Definition saveAlert (st : Storage) (alert : Alert) : Storage :=
  if isConnected st then
    {| isConnected := isConnected st;
       redis := kv_set (alertKey (alertId alert)) alert (redis st);
       memoryStore := memoryStore st |}
  else
    {| isConnected := isConnected st;
       redis := redis st;
       memoryStore := kv_set (alertId alert) alert (memoryStore st) |}.

Definition getAlert (st : Storage) (id : string) : option Alert :=
  if isConnected st then
    match kv_get (alertKey id) (redis st) with
    | Some alertData => Some (Alert_load alertData)
    | None => None
    end
  else
    match kv_get id (memoryStore st) with
    | Some alertData => Some (Alert_load alertData)
    | None => None
    end.

(** [redis.keys('alert:*')].  Redis promises no order for [KEYS]; the keys
    are listed here in the order of their first write. *)
Definition redis_keys (st : Storage) : list string :=
  List.filter (String.prefix "alert:") (List.map fst (redis st)).

Definition getAllAlerts (st : Storage) : list Alert :=
  if isConnected st then
    List.flat_map
      (fun key =>
         match kv_get key (redis st) with
         | Some alertData => [Alert_load alertData]
         | None => []
         end)
      (redis_keys st)
  else
    List.map (fun kv => Alert_load (snd kv)) (memoryStore st).

Definition deleteAlert (st : Storage) (id : string) : Storage :=
  if isConnected st then
    {| isConnected := isConnected st;
       redis := kv_delete (alertKey id) (redis st);
       memoryStore := memoryStore st |}
  else
    {| isConnected := isConnected st;
       redis := redis st;
       memoryStore := kv_delete id (memoryStore st) |}.

(** The Redis client's [connect] and [error] events flip the flag. *)
Definition setConnected (b : bool) (st : Storage) : Storage :=
  {| isConnected := b; redis := redis st; memoryStore := memoryStore st |}.

Definition emptyStorage (connected : bool) : Storage :=
  {| isConnected := connected; redis := []; memoryStore := [] |}.

End AlertStorageManager.

Export AlertStorageManager.

(** ** services/AlertService.js *)

Module AlertService.

Record Service := {
  storageManager : Storage;
  rules : gmap string Rule;
  processingQueue : gset string
}.

Definition newService (connected : bool) (rs : gmap string Rule) : Service :=
  {| storageManager := emptyStorage connected; rules := rs;
     processingQueue := ∅ |}.

Definition withStorage (svc : Service) (st : Storage) : Service :=
  {| storageManager := st; rules := rules svc;
     processingQueue := processingQueue svc |}.

Definition withQueue (svc : Service) (q : gset string) : Service :=
  {| storageManager := storageManager svc; rules := rules svc;
     processingQueue := q |}.

Definition executeAction (now : Z) (alert : Alert) (act : Action) : Alert :=
  match act with
  | ActEscalate newSeverity reason => escalate now alert newSeverity reason
  | ActAutoClose reason => autoClose now alert reason
  end.

(** [processAlert(alert)]: the in-flight guard, the snapshot, the evaluation
    and, on an action, the mutation of [alert] and its save.  Returns the
    service and the (possibly mutated) alert object. *)
Definition processAlert (env : Env) (now : Z) (svc : Service) (alert : Alert)
    : Service * Alert :=
  if bool_decide (alertId alert ∈ processingQueue svc) then (svc, alert)
  else
    let svc1 := withQueue svc (processingQueue svc ∪ {[alertId alert]}) in
    let allAlerts := getAllAlerts (storageManager svc1) in
    let act := evaluateAlert env now (rules svc1) alert allAlerts in
    let '(svc2, alert2) :=
      match act with
      | Some a =>
          let alert' := executeAction now alert a in
          (withStorage svc1 (saveAlert (storageManager svc1) alert'), alert')
      | None => (svc1, alert)
      end in
    (withQueue svc2 (processingQueue svc2 ∖ {[alertId alert]}), alert2).

Definition createAlert (env : Env) (now : Z) (uuid : string) (svc : Service)
    (alertData : AlertInput) : Service * Alert :=
  let alert := Alert_new uuid now alertData in
  let svc1 := withStorage svc (saveAlert (storageManager svc) alert) in
  processAlert env now svc1 alert.

Definition processAllAlerts (env : Env) (now : Z) (svc : Service) : Service :=
  let alerts := getAllAlerts (storageManager svc) in
  let activeAlerts := List.filter isActive alerts in
  fold_left (fun s alert => fst (processAlert env now s alert)) activeAlerts svc.

Definition expireOldAlerts (env : Env) (now : Z) (svc : Service) : Service :=
  let expiryDays := env_or (ALERT_EXPIRY_DAYS env) 30 in
  let expiryTime := Date_new (now - expiryDays * 24 * 60 * 60 * 1000) in
  let alerts := getAllAlerts (storageManager svc) in
  fold_left
    (fun s alert =>
       if isActive alert && date_lt (timestamp alert) expiryTime then
         withStorage s (saveAlert (storageManager s) (expire env now alert))
       else s)
    alerts svc.

(** The scheduled job: the re-evaluation sweep, then the expiry sweep. *)
Definition backgroundJob (env : Env) (now : Z) (svc : Service) : Service :=
  expireOldAlerts env now (processAllAlerts env now svc).

Definition getAlertById (svc : Service) (id : string) : option Alert :=
  getAlert (storageManager svc) id.

Definition resolveAlert (now : Z) (svc : Service) (id : string)
    (res : option string) : Service * option Alert :=
  match getAlert (storageManager svc) id with
  | None => (svc, None)
  | Some alert =>
      let alert' := resolve now alert res in
      (withStorage svc (saveAlert (storageManager svc) alert'), Some alert')
  end.

(** The document renewal route, [PATCH /alerts/:alertId/renew]: merges the
    request's metadata into the alert's, sets [document_valid], saves and
    processes the alert. *)
Definition renewAlert (env : Env) (now : Z) (svc : Service) (id : string)
    (md : gmap string JsVal) : Service * option Alert :=
  match getAlertById svc id with
  | None => (svc, None)
  | Some alert =>
      let alert1 :=
        {| alertId := alertId alert; sourceType := sourceType alert;
           severity := severity alert; timestamp := timestamp alert;
           status := status alert;
           metadata := <["document_valid" := JBool true]> (md ∪ metadata alert);
           history := history alert; resolution := resolution alert;
           resolvedAt := resolvedAt alert; expiredAt := expiredAt alert;
           lastEscalatedAt := lastEscalatedAt alert;
           escalationCount := escalationCount alert |} in
      let svc1 := withStorage svc (saveAlert (storageManager svc) alert1) in
      let '(svc2, alert2) := processAlert env now svc1 alert1 in
      (svc2, Some alert2)
  end.

Definition serviceUpdateRules (svc : Service) (newRules : gmap string Rule)
    : Service :=
  {| storageManager := storageManager svc;
     rules := updateRules (rules svc) newRules;
     processingQueue := processingQueue svc |}.

End AlertService.

Export AlertService.

(** ** Vocabulary of the specification *)

(** The specification's count-in-window selection, in its own words: alerts
    of the same source type, active, whose timestamp falls within the
    trailing window of [mins] minutes ending now, and that share either
    [driverId] or [vehicleId] with the subject alert. *)
Definition inTrailingWindow (now mins : Z) (a : Alert) : bool :=
  (now - mins * 60 * 1000 <=? timestamp a) && (timestamp a <=? now).

Definition sharesDriverOrVehicle (alert a : Alert) : bool :=
  strict_eq (metadata a !! "driverId") (metadata alert !! "driverId") ||
  strict_eq (metadata a !! "vehicleId") (metadata alert !! "vehicleId").

Definition matchingInWindow (now : Z) (alert : Alert) (mins : Z)
    (allAlerts : list Alert) : list Alert :=
  List.filter
    (fun a =>
       String.eqb (sourceType a) (sourceType alert) && isActive a &&
       inTrailingWindow now mins a && sharesDriverOrVehicle alert a)
    allAlerts.

(** An alert that carries neither identifier. *)
Definition identifierless (a : Alert) : Prop :=
  metadata a !! "driverId" = None ∧ metadata a !! "vehicleId" = None.

(** A time value that a [Date] can hold: the start of a window is a date,
    not an Invalid Date. *)
Definition validTime (ms : Z) : Prop := - maxTimeValue ≤ ms ≤ maxTimeValue.

(** The alerts of the snapshot that lack both identifiers, have the source
    type of the subject alert, are active and are timestamped from the
    start of the window on. *)
Definition identifierlessPeers (now : Z) (alert : Alert) (mins : Z)
    (allAlerts : list Alert) : list Alert :=
  List.filter
    (fun a =>
       String.eqb (sourceType a) (sourceType alert) && isActive a &&
       (now - mins * 60 * 1000 <=? timestamp a) &&
       bool_decide (metadata a !! "driverId" = None) &&
       bool_decide (metadata a !! "vehicleId" = None))
    allAlerts.

(** ** Histories of calls *)

(** Calls on the storage manager, interleaved with connectivity changes. *)
Inductive StorageOp :=
  | OpSave (a : Alert)
  | OpDelete (id : string)
  | OpSetConnected (b : bool).

Definition applyStorageOp (st : Storage) (op : StorageOp) : Storage :=
  match op with
  | OpSave a => saveAlert st a
  | OpDelete id => deleteAlert st id
  | OpSetConnected b => setConnected b st
  end.

(** The call neither saves nor deletes under the id [id]. *)
Definition leavesId (id : string) (op : StorageOp) : Prop :=
  match op with
  | OpSave a => alertId a ≠ id
  | OpDelete id' => id' ≠ id
  | OpSetConnected _ => True
  end.

(** Operations on one alert object, each at the time it is performed: the
    four transitions of the entity and the trip through the store. *)
Inductive AlertOp :=
  | DoEscalate (newSeverity : Severity) (reason : string)
  | DoAutoClose (reason : string)
  | DoResolve (res : option string)
  | DoExpire
  | DoReload.

Definition applyAlertOp (env : Env) (a : Alert) (step : AlertOp * Z) : Alert :=
  match step with
  | (DoEscalate sev reason, now) => escalate now a sev reason
  | (DoAutoClose reason, now) => autoClose now a reason
  | (DoResolve res, now) => resolve now a res
  | (DoExpire, now) => expire env now a
  | (DoReload, _) => Alert_load a
  end.

Definition isResolve (op : AlertOp) : bool :=
  match op with
  | DoResolve _ => true
  | _ => false
  end.

Definition isExpire (op : AlertOp) : bool :=
  match op with
  | DoExpire => true
  | _ => false
  end.

(** The time of the last step of [steps] that [sel] selects, if any. *)
Fixpoint lastTimeOf (sel : AlertOp → bool) (steps : list (AlertOp * Z))
    : option Z :=
  match steps with
  | [] => None
  | (op, now) :: rest =>
      match lastTimeOf sel rest with
      | Some later => Some later
      | None => if sel op then Some now else None
      end
  end.

(** ** Storage as the service builds it *)

(** The records of the backend in use and the key an id has there. *)
Definition backend (st : Storage) : list (string * Alert) :=
  if isConnected st then redis st else memoryStore st.

Definition keyFor (st : Storage) (id : string) : string :=
  if isConnected st then alertKey id else id.

(** The record stored under an id on the backend in use. *)
Definition stored (st : Storage) (id : string) : option Alert :=
  kv_get (keyFor st id) (backend st).

(** A backend filled through [saveAlert] alone: one record per key, each
    under the key of its own id. *)
Definition wf_storage (st : Storage) : Prop :=
  NoDup (List.map fst (backend st))
  ∧ Forall (λ kv, fst kv = keyFor st (alertId (snd kv))) (backend st).

(** [a'] is [a] after transitions that keep its source type, timestamp and
    metadata and cannot bring it back into the active set. *)
Definition quieter (a' a : Alert) : Prop :=
  sourceType a' = sourceType a ∧ timestamp a' = timestamp a
  ∧ metadata a' = metadata a ∧ (isActive a' = true → isActive a = true).

(** A stored record that a pass at time [now] has nothing to do for, against
    the snapshot [allAlerts]: inactive, or escalated at [now], or evaluating
    to no action. *)
Definition settled (env : Env) (now : Z) (rs : gmap string Rule)
    (allAlerts : list Alert) (d : Alert) : Prop :=
  isActive d = false ∨ lastEscalatedAt d = Some now
  ∨ evaluateAlert env now rs (Alert_load d) allAlerts = None.

(** The test of [expireOldAlerts] on one alert. *)
Definition expiryDue (env : Env) (now : Z) (a : Alert) : bool :=
  isActive a &&
  date_lt (timestamp a)
    (Date_new (now - env_or (ALERT_EXPIRY_DAYS env) 30 * 24 * 60 * 60 * 1000)).

(** The body of the loop of [expireOldAlerts]. *)
Definition expireStep (env : Env) (now : Z) (s : Service) (alert : Alert) : Service :=
  if expiryDue env now alert then
    withStorage s (saveAlert (storageManager s) (expire env now alert))
  else s.

(** ** Concrete runs *)

Module Scenario.

(** No variable set: cooldown 60 minutes, expiry 30 days. *)
Definition env0 : Env :=
  {| ESCALATION_COOLDOWN_MINUTES := None; ALERT_EXPIRY_DAYS := None |}.

Definition t0 : Z := 1762000000000.
Definition second : Z := 1000.
Definition minute : Z := 60 * 1000.

(** The overspeed alerts of the repository's test script: driver [DRV001],
    vehicle [MH12AB1234], speed [80 + 5 i]. *)
Definition overspeedInput (i : Z) : AlertInput :=
  {| in_sourceType := "overspeed";
     in_severity := Some MEDIUM;
     in_metadata := Some
       (<["driverId" := JStr "DRV001"]>
       (<["vehicleId" := JStr "MH12AB1234"]>
       (<["speed" := JNum (80 + i * 5)]>
       (<["speedLimit" := JNum 60]> ∅)))) |}.

(** In-memory service (Redis down) with the default rules. *)
Definition svc0 : Service := newService false getDefaultRules.

Definition run1 := createAlert env0 t0 "a-0001" svc0 (overspeedInput 1).
Definition run2 :=
  createAlert env0 (t0 + 1 * second) "a-0002" (fst run1) (overspeedInput 2).
Definition run3 :=
  createAlert env0 (t0 + 2 * second) "a-0003" (fst run2) (overspeedInput 3).
Definition run4 :=
  createAlert env0 (t0 + 1 * minute) "a-0004" (fst run3) (overspeedInput 4).

(** The third alert as [createAlert] builds and saves it, before it is
    processed. *)
Definition third : Alert := Alert_new "a-0003" (t0 + 2 * second) (overspeedInput 3).
Definition svcThirdSaved : Service :=
  withStorage (fst run2) (saveAlert (storageManager (fst run2)) third).

(** Two alerts without driver or vehicle, from unrelated sources. *)
Definition anonymousInput (note : string) : AlertInput :=
  {| in_sourceType := "feedback_negative";
     in_severity := Some LOW;
     in_metadata := Some (<["feedback" := JStr note]> ∅) |}.

Definition anon1 : Alert := Alert_new "b-0001" t0 (anonymousInput "Rude behavior").
Definition anon2 : Alert :=
  Alert_new "b-0002" (t0 + 5 * minute) (anonymousInput "Late pickup").

(** A snapshot that holds the two with other alerts: an overspeed alert of
    driver DRV001 and a feedback alert that names its driver. *)
Definition namedFeedback : Alert :=
  Alert_new "b-0003" (t0 + 1 * minute)
    {| in_sourceType := "feedback_negative";
       in_severity := Some LOW;
       in_metadata := Some
         (<["driverId" := JStr "DRV001"]>
         (<["vehicleId" := JStr "MH12AB1234"]>
         (<["feedback" := JStr "Rash driving"]> ∅))) |}.

Definition mixedSnapshot : list Alert :=
  [anon1; Alert_new "a-0001" t0 (overspeedInput 1); namedFeedback; anon2].

(** A compliance alert whose metadata names the trigger [documentValid]
    where the rule names [document_valid]. *)
Definition complianceCamel : Alert :=
  Alert_new "c-0001" t0
    {| in_sourceType := "compliance"; in_severity := Some MEDIUM;
       in_metadata := Some
         (<["driverId" := JStr "DRV003"]> (<["documentValid" := JBool true]> ∅)) |}.

(** The same with another of the well-known keys, [document_renewed]. *)
Definition complianceRenewed : Alert :=
  Alert_new "c-0003" t0
    {| in_sourceType := "compliance"; in_severity := Some MEDIUM;
       in_metadata := Some
         (<["driverId" := JStr "DRV003"]> (<["document_renewed" := JBool true]> ∅)) |}.

(** A compliance alert with the rule's own key. *)
Definition complianceValid : Alert :=
  Alert_new "c-0002" t0
    {| in_sourceType := "compliance"; in_severity := Some MEDIUM;
       in_metadata := Some
         (<["driverId" := JStr "DRV003"]> (<["document_valid" := JBool true]> ∅)) |}.

(** A driver fatigue alert, alone in the store. *)
Definition fatigueInput : AlertInput :=
  {| in_sourceType := "driver_fatigue"; in_severity := Some LOW;
     in_metadata := Some
       (<["driverId" := JStr "DRV002"]>
       (<["consecutiveDrivingHours" := JNum 8]> ∅)) |}.

(** Resolution, then renewal, of a compliance alert. *)
Definition pendingInput : AlertInput :=
  {| in_sourceType := "compliance"; in_severity := Some MEDIUM;
     in_metadata := Some
       (<["driverId" := JStr "DRV003"]> (<["documentType" := JStr "license"]> ∅)) |}.

Definition created := createAlert env0 t0 "d-0001" svc0 pendingInput.
Definition resolved :=
  resolveAlert (t0 + 1 * minute) (fst created) "d-0001" (Some "Driver counseled").
Definition resolvedAgain :=
  resolveAlert (t0 + 2 * minute) (fst resolved) "d-0001" (Some "Closed by supervisor").
Definition renewed :=
  renewAlert env0 (t0 + 3 * minute) (fst resolved) "d-0001" ∅.

(** Resolution of the first overspeed alert of the run above, then a
    renewal call on it. *)
Definition firstResolved :=
  resolveAlert (t0 + 2 * minute) (fst run4) "a-0001" (Some "Driver counseled").
Definition firstRenewed :=
  renewAlert env0 (t0 + 3 * minute) (fst firstResolved) "a-0001" ∅.

(** An alert of a source type that gets its rule only later (the rule is the
    one the test script adds), followed by two scheduled passes at the same
    instant. *)
Definition newTypeInput : AlertInput :=
  {| in_sourceType := "new_alert_type"; in_severity := Some MEDIUM;
     in_metadata := Some
       (<["driverId" := JStr "DRV009"]> (<["issue_resolved" := JBool true]> ∅)) |}.

Definition newTypeRule : Rule :=
  {| escalate_if_count := Some 1; window_mins := Some 30;
     escalate_if_days := None; escalate_to_severity := HIGH;
     auto_close_if := Some "issue_resolved" |}.

Definition beforeRule := createAlert env0 t0 "e-0001" svc0 newTypeInput.
Definition withRule : Service :=
  serviceUpdateRules (fst beforeRule) (<["new_alert_type" := newTypeRule]> ∅).
Definition pass1 : Service := backgroundJob env0 (t0 + 2 * minute) withRule.
Definition pass2 : Service := backgroundJob env0 (t0 + 2 * minute) pass1.
Definition pass2Later : Service :=
  backgroundJob env0 (t0 + 2 * minute + 1 * second) pass1.

(** Default rules under a cooldown of one minute: two feedback alerts of
    one driver, the second with [feedback_resolved] set, then two scheduled
    passes two minutes later. *)
Definition env1 : Env :=
  {| ESCALATION_COOLDOWN_MINUTES := Some 1; ALERT_EXPIRY_DAYS := None |}.

Definition feedbackInput (resolvedFlag : bool) : AlertInput :=
  {| in_sourceType := "feedback_negative"; in_severity := Some LOW;
     in_metadata := Some
       (<["driverId" := JStr "DRV004"]>
       (<["feedback_resolved" := JBool resolvedFlag]> ∅)) |}.

Definition feedback1 := createAlert env1 t0 "g-0001" svc0 (feedbackInput false).
Definition feedback2 :=
  createAlert env1 (t0 + 1 * second) "g-0002" (fst feedback1) (feedbackInput true).
Definition shortPass1 : Service := backgroundJob env1 (t0 + 2 * minute) (fst feedback2).
Definition shortPass2 : Service := backgroundJob env1 (t0 + 2 * minute) shortPass1.

Definition historyLengths (svc : Service) : list (string * AlertState * nat) :=
  List.map (fun a => (alertId a, status a, length (history a)))
    (getAllAlerts (storageManager svc)).

(** Storage: saved to the fallback while Redis is down, read after Redis
    came up. *)
Definition savedOffline : Storage := saveAlert (emptyStorage false) third.
Definition readOnline : list Alert := getAllAlerts (setConnected true savedOffline).

End Scenario.

(** * Further parts of the code *)

(** ** JavaScript helpers *)

(** Truthiness of a metadata property ([undefined], [null], [false], [0]
    and [''] are falsy). *)
Definition js_truthy (v : option JsVal) : bool :=
  match v with
  | Some (JBool b) => b
  | Some (JNum n) => negb (n =? 0)
  | Some (JStr s) => negb (String.eqb s "")
  | Some JNull | None => false
  end.

(** The string a value becomes inside a template literal. *)
Definition js_toString (v : JsVal) : string :=
  match v with
  | JNull => "null"
  | JBool true => "true"
  | JBool false => "false"
  | JNum n => pretty n
  | JStr s => s
  end.

(** [Array.prototype.slice(start, end)] on integer arguments: a negative
    index counts from the end, both ends are clamped to the array, and an
    end before the start gives the empty array. *)
Definition js_slice {A : Type} (start stop : Z) (l : list A) : list A :=
  let len := Z.of_nat (length l) in
  let k := if start <? 0 then Z.max (len + start) 0 else Z.min start len in
  let final := if stop <? 0 then Z.max (len + stop) 0 else Z.min stop len in
  take (Z.to_nat (final - k)) (drop (Z.to_nat k) l).

(** A JavaScript [Map] keyed by metadata values. *)
Fixpoint assoc_get {V : Type} (k : JsVal) (m : list (JsVal * V)) : option V :=
  match m with
  | [] => None
  | (k', v') :: m' => if bool_decide (k = k') then Some v' else assoc_get k m'
  end.

Fixpoint assoc_set {V : Type} (k : JsVal) (v : V) (m : list (JsVal * V))
    : list (JsVal * V) :=
  match m with
  | [] => [(k, v)]
  | (k', v') :: m' =>
      if bool_decide (k = k') then (k, v) :: m' else (k', v') :: assoc_set k v m'
  end.

(** ** models/Alert.js: [toJSON] *)

(** The fields of the alert and its [age], [Math.floor(this.getAge())]. *)
Definition toJSON (now : Z) (a : Alert) : Alert * Z := (a, ageFloorDays now a).

(** ** The history as a log *)

(** The status an event of each type leaves the alert in. *)
Definition statusOfEvent (t : EventType) : AlertState :=
  match t with
  | EV_CREATED => OPEN
  | EV_ESCALATED => ESCALATED
  | EV_AUTO_CLOSED => AUTO_CLOSED
  | EV_RESOLVED => RESOLVED
  | EV_EXPIRED => EXPIRED
  end.

Definition eventsOf (t : EventType) (h : list HistoryEvent) : list HistoryEvent :=
  List.filter (λ e, bool_decide (action e = t)) h.

(** The field of a transition is set exactly when the history holds an
    event of that transition. *)
Definition setWhenLogged (field : option Z) (t : EventType)
    (h : list HistoryEvent) : Prop :=
  is_Some field ↔ eventsOf t h ≠ [].

(** Each event records as previous status the status the event before it
    led to; [prev] is the previous status expected of the first event. *)
Fixpoint chained (prev : option AlertState) (h : list HistoryEvent) : Prop :=
  match h with
  | [] => True
  | e :: h' =>
      previousStatus e = prev ∧ chained (Some (statusOfEvent (action e))) h'
  end.

(** The fields of the alert agree with its history.  Nothing is said of
    the times: a transition reads the clock for the field it sets and again
    for the event it records. *)
Definition audit_ok (a : Alert) : Prop :=
  (action <$> head (history a)) = Some EV_CREATED
  ∧ length (eventsOf EV_CREATED (history a)) = 1%nat
  ∧ chained None (history a)
  ∧ (statusOfEvent <$> (action <$> last (history a))) = Some (status a)
  ∧ escalationCount a = Z.of_nat (length (eventsOf EV_ESCALATED (history a)))
  ∧ setWhenLogged (lastEscalatedAt a) EV_ESCALATED (history a)
  ∧ setWhenLogged (resolvedAt a) EV_RESOLVED (history a)
  ∧ setWhenLogged (expiredAt a) EV_EXPIRED (history a).

(** A transition of the entity, as opposed to a trip through the store. *)
Definition isTransition (op : AlertOp) : bool :=
  match op with
  | DoReload => false
  | _ => true
  end.

Definition isEscalate (op : AlertOp) : bool :=
  match op with
  | DoEscalate _ _ => true
  | _ => false
  end.

(** ** AlertStorageManager with its indices *)

Module Indexed.

(** The storage manager in full: the alert records of [Storage], the Redis
    sorted sets [driver:<id>:alerts] and [vehicle:<id>:alerts] (each a set
    of members with a score), and the two in-memory index maps. *)
Record IndexedStorage := {
  records : Storage;
  zsets : list (string * list (string * Z));
  alertsByDriver : list (JsVal * list string);
  alertsByVehicle : list (JsVal * list string)
}.

Definition emptyIndexed (connected : bool) : IndexedStorage :=
  {| records := emptyStorage connected; zsets := [];
     alertsByDriver := []; alertsByVehicle := [] |}.

Definition driverKey (d : JsVal) : string := "driver:" +:+ js_toString d +:+ ":alerts".
Definition vehicleKey (v : JsVal) : string := "vehicle:" +:+ js_toString v +:+ ":alerts".

(** Redis [ZADD key score member]: the member gets the score, whether it
    was in the set or not. *)
Definition zadd (key : string) (score : Z) (member : string)
    (zs : list (string * list (string * Z))) : list (string * list (string * Z)) :=
  kv_set key (kv_set member score (default [] (kv_get key zs))) zs.

(** The order of [ZREVRANGE]: higher scores first, and among equal scores
    the members in reverse lexicographical order. *)
Definition zrev_before (x y : string * Z) : bool :=
  (snd y <? snd x) || ((snd x =? snd y) && String.leb (fst y) (fst x)).

Fixpoint zrev_insert (x : string * Z) (l : list (string * Z)) : list (string * Z) :=
  match l with
  | [] => [x]
  | y :: l' => if zrev_before x y then x :: y :: l' else y :: zrev_insert x l'
  end.

Definition zrev_sort (l : list (string * Z)) : list (string * Z) :=
  foldr zrev_insert [] l.

(** Redis [ZREVRANGE key start stop]: both indices are inclusive, a negative
    one counts from the end, and an empty range gives no member. *)
Definition zrevrange (key : string) (start stop : Z)
    (zs : list (string * list (string * Z))) : list string :=
  let sorted := zrev_sort (default [] (kv_get key zs)) in
  let len := Z.of_nat (length sorted) in
  let start1 := Z.max (if start <? 0 then len + start else start) 0 in
  let stop1 := Z.min (if stop <? 0 then len + stop else stop) (len - 1) in
  if stop1 <? start1 then []
  else List.map fst (take (Z.to_nat (stop1 - start1 + 1)) (drop (Z.to_nat start1) sorted)).

(** [updateMemoryIndices(alert)] *)
Definition pushId (key : option JsVal) (id : string)
    (index : list (JsVal * list string)) : list (JsVal * list string) :=
  match key with
  | Some k =>
      if js_truthy key then assoc_set k (default [] (assoc_get k index) ++ [id]) index
      else index
  | None => index
  end.

Definition updateMemoryIndices (ist : IndexedStorage) (alert : Alert) : IndexedStorage :=
  {| records := records ist; zsets := zsets ist;
     alertsByDriver :=
       pushId (metadata alert !! "driverId") (alertId alert) (alertsByDriver ist);
     alertsByVehicle :=
       pushId (metadata alert !! "vehicleId") (alertId alert) (alertsByVehicle ist) |}.

Definition zaddIndex (mkKey : JsVal → string) (key : option JsVal) (now : Z)
    (id : string) (zs : list (string * list (string * Z)))
    : list (string * list (string * Z)) :=
  match key with
  | Some k => if js_truthy key then zadd (mkKey k) now id zs else zs
  | None => zs
  end.

(** [saveAlert(alert)] with its index updates; the record itself is written
    as by [saveAlert] above. *)
Definition saveAlertIndexed (now : Z) (ist : IndexedStorage) (alert : Alert)
    : IndexedStorage :=
  if isConnected (records ist) then
    {| records := saveAlert (records ist) alert;
       zsets :=
         zaddIndex vehicleKey (metadata alert !! "vehicleId") now (alertId alert)
           (zaddIndex driverKey (metadata alert !! "driverId") now (alertId alert)
              (zsets ist));
       alertsByDriver := alertsByDriver ist;
       alertsByVehicle := alertsByVehicle ist |}
  else
    updateMemoryIndices
      {| records := saveAlert (records ist) alert; zsets := zsets ist;
         alertsByDriver := alertsByDriver ist;
         alertsByVehicle := alertsByVehicle ist |}
      alert.

(** [getAlertsByDriver(driverId, limit = 10)] *)
Definition getAlertsByDriver (ist : IndexedStorage) (driverId : JsVal)
    (limit : option Z) : list Alert :=
  let limit := default 10 limit in
  if isConnected (records ist) then
    let alertIds := zrevrange (driverKey driverId) 0 (limit - 1) (zsets ist) in
    List.flat_map
      (λ id, match getAlert (records ist) id with
             | Some alert => [alert]
             | None => []
             end)
      alertIds
  else
    let alertIds := default [] (assoc_get driverId (alertsByDriver ist)) in
    List.flat_map
      (λ id, match kv_get id (memoryStore (records ist)) with
             | Some data => [Alert_load data]
             | None => []
             end)
      (js_slice 0 limit alertIds).

(** The alert carries the driver [d] and is indexed under it. *)
Definition hasDriver (d : JsVal) (a : Alert) : bool :=
  bool_decide (metadata a !! "driverId" = Some d) && js_truthy (Some d).

End Indexed.

Export Indexed.

(** ** AlertService: queries *)

(** Modelled from the spec: the string values of [SEVERITY_LEVELS] and
    [ALERT_STATES] in [config/constants.js], which the filters of
    [getAlerts] are compared with. *)
Definition severityName (s : Severity) : string :=
  match s with
  | LOW => "LOW" | MEDIUM => "MEDIUM" | HIGH => "HIGH" | CRITICAL => "CRITICAL"
  end.

Definition statusName (s : AlertState) : string :=
  match s with
  | OPEN => "OPEN" | ESCALATED => "ESCALATED" | AUTO_CLOSED => "AUTO_CLOSED"
  | RESOLVED => "RESOLVED" | EXPIRED => "EXPIRED"
  end.

(** The filters object; the controller also sets [vehicleId]. *)
Record Filters := {
  f_sourceType : option string;
  f_severity : option string;
  f_status : option string;
  f_driverId : option string;
  f_vehicleId : option string
}.

(** [array.sort((a, b) => new Date(b.timestamp) - new Date(a.timestamp))]:
    newest first; the sort is stable, so alerts of equal timestamp keep
    their order, which fixes the result. *)
Fixpoint insertNewest (a : Alert) (l : list Alert) : list Alert :=
  match l with
  | [] => [a]
  | b :: l' =>
      if timestamp a <? timestamp b then b :: insertNewest a l' else a :: b :: l'
  end.

Definition sortNewestFirst (l : list Alert) : list Alert := foldr insertNewest [] l.

Definition getAlerts (svc : Service) (filters : Filters) : list Alert :=
  let alerts := getAllAlerts (storageManager svc) in
  let byType :=
    if truthy_str (f_sourceType filters) then
      List.filter (λ a, String.eqb (sourceType a) (default "" (f_sourceType filters)))
        alerts
    else alerts in
  let bySeverity :=
    if truthy_str (f_severity filters) then
      List.filter
        (λ a, String.eqb (severityName (severity a)) (default "" (f_severity filters)))
        byType
    else byType in
  let byStatus :=
    if truthy_str (f_status filters) then
      List.filter
        (λ a, String.eqb (statusName (status a)) (default "" (f_status filters)))
        bySeverity
    else bySeverity in
  let byDriver :=
    if truthy_str (f_driverId filters) then
      List.filter
        (λ a, strict_eq (metadata a !! "driverId")
                (Some (JStr (default "" (f_driverId filters)))))
        byStatus
    else byStatus in
  sortNewestFirst byDriver.





(** ** controllers/AlertController.js: [getAlerts] *)

(** [CONFIG] of [config/constants.js], not among the sources: its two page
    limits are parameters. *)
Record Config := {
  DEFAULT_PAGE_LIMIT : Z;
  MAX_PAGE_LIMIT : Z
}.

(** The query string, [limit] and [offset] as [parseInt] reads them (both
    numeric). *)
Record Query := {
  q_filters : Filters;
  q_limit : option Z;
  q_offset : option Z
}.

Record Page := {
  p_alerts : list (Alert * Z);
  p_total : nat;
  p_limit : Z;
  p_offset : Z;
  p_hasMore : bool
}.

(** [if (x) filters.x = x] for each of the five fields. *)
Definition controllerFilters (f : Filters) : Filters :=
  let keep (x : option string) := if truthy_str x then x else None in
  {| f_sourceType := keep (f_sourceType f); f_severity := keep (f_severity f);
     f_status := keep (f_status f); f_driverId := keep (f_driverId f);
     f_vehicleId := keep (f_vehicleId f) |}.

Definition controllerGetAlerts (cfg : Config) (now : Z) (svc : Service)
    (q : Query) : Page :=
  let limit := default (DEFAULT_PAGE_LIMIT cfg) (q_limit q) in
  let offset := default 0 (q_offset q) in
  let allAlerts := getAlerts svc (controllerFilters (q_filters q)) in
  let limitNum := Z.min limit (MAX_PAGE_LIMIT cfg) in
  let offsetNum := offset in
  let paginatedAlerts := js_slice offsetNum (offsetNum + limitNum) allAlerts in
  {| p_alerts := List.map (toJSON now) paginatedAlerts;
     p_total := length allAlerts;
     p_limit := limitNum;
     p_offset := offsetNum;
     p_hasMore := offsetNum + limitNum <? Z.of_nat (length allAlerts) |}.

(** The alert of the renewal route once the request's metadata is merged in
    and [document_valid] is set. *)
Definition renewedAlert (md : gmap string JsVal) (alert : Alert) : Alert :=
  {| alertId := alertId alert; sourceType := sourceType alert;
     severity := severity alert; timestamp := timestamp alert;
     status := status alert;
     metadata := <["document_valid" := JBool true]> (md ∪ metadata alert);
     history := history alert; resolution := resolution alert;
     resolvedAt := resolvedAt alert; expiredAt := expiredAt alert;
     lastEscalatedAt := lastEscalatedAt alert;
     escalationCount := escalationCount alert |}.

(** ** Sequences of calls on the service *)

(** The calls that change the service, each made at a given time: the
    routes that create, resolve and renew, the manual and the scheduled
    sweeps, a rule update, and a change of Redis connectivity. *)
Inductive ApiCall :=
  | CallCreate (uuid : string) (data : AlertInput)
  | CallResolve (id : string) (res : option string)
  | CallRenew (id : string) (md : gmap string JsVal)
  | CallProcessAll
  | CallBackgroundJob
  | CallUpdateRules (newRules : gmap string Rule)
  | CallSetConnected (b : bool).

Definition runCall (env : Env) (svc : Service) (call : ApiCall * Z) : Service :=
  match call with
  | (CallCreate uuid data, now) => fst (createAlert env now uuid svc data)
  | (CallResolve id res, now) => fst (resolveAlert now svc id res)
  | (CallRenew id md, now) => fst (renewAlert env now svc id md)
  | (CallProcessAll, now) => processAllAlerts env now svc
  | (CallBackgroundJob, now) => backgroundJob env now svc
  | (CallUpdateRules newRules, _) => serviceUpdateRules svc newRules
  | (CallSetConnected b, _) => withStorage svc (setConnected b (storageManager svc))
  end.

(** One keyed list of a store in order: one record per key, each under the
    key [keyf] gives its id, each agreeing with its history. *)
Definition list_ok (keyf : string → string) (m : list (string * Alert)) : Prop :=
  NoDup (List.map fst m)
  ∧ Forall (λ kv, fst kv = keyf (alertId (snd kv)) ∧ audit_ok (snd kv)) m.

Definition store_ok (st : Storage) : Prop :=
  list_ok alertKey (redis st) ∧ list_ok (λ id, id) (memoryStore st).

(** The snapshot the loop runs over: distinct ids, each alert loaded from
    the record stored under its id. *)
Definition pendingIn (s : Service) (rest : list Alert) : Prop :=
  NoDup (List.map alertId rest)
  ∧ ∀ a, In a rest →
      ∃ d, stored (storageManager s) (alertId a) = Some d ∧ a = Alert_load d.

(** [d'] is a later state of the alert [d]: same id, source type and
    timestamp, and a history that extends the history of [d]. *)
Definition laterStateOf (d' d : Alert) : Prop :=
  alertId d' = alertId d ∧ sourceType d' = sourceType d
  ∧ timestamp d' = timestamp d ∧ history d `prefix_of` history d'.


(** ** Vocabulary of the queries *)

(** The alert passes every filter that is set (a filter that is missing or
    the empty string is not set); [vehicleId] is not looked at. *)
Definition passesFilters (f : Filters) (a : Alert) : bool :=
  (if truthy_str (f_sourceType f)
   then String.eqb (sourceType a) (default "" (f_sourceType f)) else true)
  && (if truthy_str (f_severity f)
      then String.eqb (severityName (severity a)) (default "" (f_severity f))
      else true)
  && (if truthy_str (f_status f)
      then String.eqb (statusName (status a)) (default "" (f_status f)) else true)
  && (if truthy_str (f_driverId f)
      then strict_eq (metadata a !! "driverId")
             (Some (JStr (default "" (f_driverId f))))
      else true).

(** Newest first. *)
Definition newestFirst (l : list Alert) : Prop :=
  StronglySorted (λ a b, timestamp b ≤ timestamp a) l.

Definition withVehicle (f : Filters) (v : option string) : Filters :=
  {| f_sourceType := f_sourceType f; f_severity := f_severity f;
     f_status := f_status f; f_driverId := f_driverId f; f_vehicleId := v |}.

(** The query for the page that follows the page of [q]. *)
Definition nextPage (cfg : Config) (q : Query) : Query :=
  {| q_filters := q_filters q; q_limit := q_limit q;
     q_offset :=
       Some (default 0 (q_offset q)
             + Z.min (default (DEFAULT_PAGE_LIMIT cfg) (q_limit q))
                 (MAX_PAGE_LIMIT cfg)) |}.

(** The manager after a series of saves, each at its time. *)
Definition afterSaves (connected : bool) (saves : list (Z * Alert)) : IndexedStorage :=
  fold_left (λ ist x, saveAlertIndexed (fst x) ist (snd x)) saves
    (emptyIndexed connected).


(** ** Concrete inputs for the further properties *)

Module Scenario2.

Import Scenario.

(** The compliance alert of [Scenario.created], eight days later. *)
Definition agedCompliance : Alert := Alert_new "h-0001" t0 pendingInput.
Definition eightDaysLater : Z := t0 + 8 * msPerDay.

Definition noFilters : Filters :=
  {| f_sourceType := None; f_severity := None; f_status := None;
     f_driverId := None; f_vehicleId := None |}.

Definition pageConfig : Config := {| DEFAULT_PAGE_LIMIT := 50; MAX_PAGE_LIMIT := 100 |}.

(** The in-memory manager after the three saves that [createAlert] makes
    for the first and the third overspeed alert (the third is saved again
    once escalated). *)
Definition memoryIndexed : IndexedStorage :=
  saveAlertIndexed (t0 + 2 * second)
    (saveAlertIndexed (t0 + 2 * second)
       (saveAlertIndexed t0 (emptyIndexed false) (snd run1))
       third)
    (snd run3).

End Scenario2.

(** * Properties *)

(** ** Lists and keyed stores *)

Section ListFacts.
Context {A : Type}.
Implicit Types (p q : A → bool) (l : list A).

Lemma filter_length_mono p q l :
  (∀ x, p x = true → q x = true) →
  (length (List.filter p l) ≤ length (List.filter q l))%nat.
Proof.
  intros Hpq. induction l as [|x l IH]; simpl; [lia|].
  destruct (p x) eqn:Hp.
  - rewrite (Hpq x Hp). simpl. lia.
  - destruct (q x); simpl; lia.
Qed.

Lemma filter_all p l :
  Forall (λ x, p x = true) l → List.filter p l = l.
Proof.
  induction 1 as [|x l Hx _ IH]; simpl; [done|].
  by rewrite Hx, IH.
Qed.

Lemma filter_In_length p l x :
  In x l → p x = true → (1 ≤ length (List.filter p l))%nat.
Proof.
  intros Hin Hp.
  assert (Hx : In x (List.filter p l)) by (apply List.filter_In; done).
  destruct (List.filter p l); simpl in *; [done | lia].
Qed.
End ListFacts.

Lemma eqb_refl_true s : String.eqb s s = true.
Proof. apply String.eqb_refl. Qed.

Lemma strict_eq_refl x : strict_eq x x = true.
Proof. unfold strict_eq. by apply bool_decide_eq_true. Qed.

Lemma truthy_num_Some n : n ≠ 0 → truthy_num (Some n) = true.
Proof. intros Hn. simpl. apply negb_true_iff, Z.eqb_neq, Hn. Qed.

Lemma truthy_str_Some s : s ≠ "" → truthy_str (Some s) = true.
Proof. intros Hs. simpl. apply negb_true_iff, String.eqb_neq, Hs. Qed.

(** ** The entity *)

Lemma isActive_iff a : isActive a = true ↔ status a = OPEN ∨ status a = ESCALATED.
Proof. unfold isActive. destruct (status a); vm_compute; intuition congruence. Qed.

Lemma Alert_load_status a : status (Alert_load a) = status a.
Proof. done. Qed.

Lemma Alert_load_isActive a : isActive (Alert_load a) = isActive a.
Proof. done. Qed.

Lemma Alert_load_idem a : Alert_load (Alert_load a) = Alert_load a.
Proof.
  unfold Alert_load; simpl. destruct (truthy_str (resolution a)) eqn:E; simpl.
  - by rewrite E.
  - done.
Qed.

Lemma canEscalate_never_escalated env now a :
  lastEscalatedAt a = None → canEscalate env now a = true.
Proof. unfold canEscalate. by intros ->. Qed.

(** ** The rule engine *)

Lemma countEscalation_is_escalate now alert rule allAlerts act :
  countEscalation now alert rule allAlerts = Some act →
  ∃ reason, act = ActEscalate (escalate_to_severity rule) reason.
Proof.
  unfold countEscalation. intros H.
  repeat case_match; simplify_eq; eauto.
Qed.

Lemma ageEscalation_is_escalate now alert rule act :
  ageEscalation now alert rule = Some act →
  ∃ reason, act = ActEscalate (escalate_to_severity rule) reason.
Proof.
  unfold ageEscalation. intros H.
  repeat case_match; simplify_eq; eauto.
Qed.

Lemma checkEscalationRules_is_escalate env now alert rule allAlerts act :
  checkEscalationRules env now alert rule allAlerts = Some act →
  ∃ reason, act = ActEscalate (escalate_to_severity rule) reason.
Proof.
  unfold checkEscalationRules. intros H.
  destruct (negb (canEscalate env now alert)); [done|].
  destruct (countEscalation now alert rule allAlerts) as [c|] eqn:Hc.
  - simplify_eq. eauto using countEscalation_is_escalate.
  - eauto using ageEscalation_is_escalate.
Qed.

Lemma checkAutoCloseRules_is_auto_close alert rule act :
  checkAutoCloseRules alert rule = Some act → ∃ reason, act = ActAutoClose reason.
Proof.
  unfold checkAutoCloseRules. intros H.
  repeat case_match; simplify_eq; eauto.
Qed.

Lemma checkEscalationRules_gate env now alert rule allAlerts :
  canEscalate env now alert = false →
  checkEscalationRules env now alert rule allAlerts = None.
Proof. unfold checkEscalationRules. by intros ->. Qed.

(** The count block fires as soon as the code's own selection reaches the
    threshold. *)
Lemma countEscalation_fires now alert rule allAlerts n mins :
  escalate_if_count rule = Some n → n ≠ 0 →
  window_mins rule = Some mins → mins ≠ 0 →
  n ≤ Z.of_nat (length (recentAlerts now alert mins allAlerts)) →
  countEscalation now alert rule allAlerts =
    Some (ActEscalate (escalate_to_severity rule)
            (pretty (Z.of_nat (length (recentAlerts now alert mins allAlerts)))
               +:+ " " +:+ sourceType alert +:+ " alerts in " +:+ pretty mins
               +:+ " minutes")).
Proof.
  intros Hn Hn0 Hw Hw0 Hle. unfold countEscalation.
  rewrite Hn, Hw, !truthy_num_Some by done. simpl.
  destruct (Z.geb_spec (Z.of_nat (length (recentAlerts now alert mins allAlerts))) n);
    [done | lia].
Qed.

(** The count block is skipped when either field is missing or zero. *)
Lemma countEscalation_skipped now alert rule allAlerts :
  truthy_num (escalate_if_count rule) && truthy_num (window_mins rule) = false →
  countEscalation now alert rule allAlerts = None.
Proof. unfold countEscalation. by intros ->. Qed.

Lemma Date_new_valid ms : validTime ms → Date_new ms = Some ms.
Proof.
  intros [Hlo Hhi]. unfold Date_new.
  by rewrite (proj2 (Z.leb_le _ _) Hlo), (proj2 (Z.leb_le _ _) Hhi).
Qed.

Lemma Date_new_invalid ms : ¬ validTime ms → Date_new ms = None.
Proof.
  intros Hno. unfold Date_new, validTime in *.
  destruct (Z.leb_spec (- maxTimeValue) ms), (Z.leb_spec ms maxTimeValue);
    simpl; try done. lia.
Qed.

Lemma date_ge_valid t ms : validTime ms → date_ge t (Date_new ms) = (t >=? ms).
Proof. intros Hv. by rewrite Date_new_valid. Qed.

(** With a window start that is no date, the filter selects nothing. *)
Lemma recentAlerts_invalid now alert mins allAlerts :
  ¬ validTime (now - mins * 60 * 1000) → recentAlerts now alert mins allAlerts = [].
Proof.
  intros Hno. unfold recentAlerts. cbv zeta. rewrite Date_new_invalid by done.
  induction allAlerts as [|a l IH]; [done|]. simpl.
  unfold recentAlertMatch at 1. simpl. by rewrite andb_false_r.
Qed.

(** The specification's selection is contained in the code's. *)
Lemma matchingInWindow_le_recentAlerts now alert mins allAlerts :
  validTime (now - mins * 60 * 1000) →
  (length (matchingInWindow now alert mins allAlerts)
   ≤ length (recentAlerts now alert mins allAlerts))%nat.
Proof.
  intros Hv. apply filter_length_mono. intros a.
  unfold recentAlertMatch, inTrailingWindow, sharesDriverOrVehicle.
  rewrite date_ge_valid by done.
  rewrite !andb_true_iff. intros [[[Hs Ha] [Hlo _]] Hid].
  repeat split; try done. apply Z.geb_le, Z.leb_le, Hlo.
Qed.

(** With the gate open and the code's selection at the threshold, evaluation
    returns the count-based escalation. *)
Lemma evaluateAlert_count_fires env now rs alert rule allAlerts n mins :
  rs !! sourceType alert = Some rule →
  escalate_if_count rule = Some n → n ≠ 0 →
  window_mins rule = Some mins → mins ≠ 0 →
  n ≤ Z.of_nat (length (recentAlerts now alert mins allAlerts)) →
  canEscalate env now alert = true →
  evaluateAlert env now rs alert allAlerts =
    Some (ActEscalate (escalate_to_severity rule)
            (pretty (Z.of_nat (length (recentAlerts now alert mins allAlerts)))
               +:+ " " +:+ sourceType alert +:+ " alerts in " +:+ pretty mins
               +:+ " minutes")).
Proof.
  intros Hrule Hn Hn0 Hw Hw0 Hcount Hgate.
  unfold evaluateAlert, checkEscalationRules. rewrite Hrule, Hgate. simpl.
  by rewrite (countEscalation_fires now alert rule allAlerts n mins).
Qed.

(** ** The service *)

Lemma processAlert_alert env now svc alert :
  snd (processAlert env now svc alert) =
    if bool_decide (alertId alert ∈ processingQueue svc) then alert
    else
      match evaluateAlert env now (rules svc) alert
              (getAllAlerts (storageManager svc)) with
      | Some act => executeAction now alert act
      | None => alert
      end.
Proof.
  unfold processAlert. case_bool_decide; [done|]. simpl.
  by destruct (evaluateAlert _ _ _ _ _).
Qed.

(** ** Count-in-window escalation *)

(** C1.  Let the alert's source type have a rule whose [escalate_if_count]
    and [window_mins] are defined (present and nonzero, which is what the
    guard [rule.escalate_if_count && rule.window_mins] tests), the window
    being one whose start is a date ([now - window_mins * 60 * 1000] within
    the range of time values; beyond it the code compares with an Invalid
    Date and counts nothing).  If the snapshot holds at least
    [escalate_if_count] alerts of the same source type that are active,
    timestamped within the trailing window ending now, and share [driverId]
    or [vehicleId] with the alert, and the cooldown gate passes, then
    evaluation yields the escalate action to the rule's
    [escalate_to_severity]; and processing the alert against a store holding
    that snapshot leaves it ESCALATED with that severity. *)
Theorem C1_count_in_window_escalates env now rs alert rule allAlerts n mins :
  rs !! sourceType alert = Some rule →
  escalate_if_count rule = Some n → n ≠ 0 →
  window_mins rule = Some mins → mins ≠ 0 →
  validTime (now - mins * 60 * 1000) →
  n ≤ Z.of_nat (length (matchingInWindow now alert mins allAlerts)) →
  canEscalate env now alert = true →
  evaluateAlert env now rs alert allAlerts =
    Some (ActEscalate (escalate_to_severity rule)
            (pretty (Z.of_nat (length (recentAlerts now alert mins allAlerts)))
               +:+ " " +:+ sourceType alert +:+ " alerts in " +:+ pretty mins
               +:+ " minutes"))
  ∧ ∀ svc,
      rules svc = rs →
      getAllAlerts (storageManager svc) = allAlerts →
      alertId alert ∉ processingQueue svc →
      status (snd (processAlert env now svc alert)) = ESCALATED
      ∧ severity (snd (processAlert env now svc alert)) = escalate_to_severity rule.
Proof.
  intros Hrule Hn Hn0 Hw Hw0 Hvalid Hcount Hgate.
  assert (Heval := evaluateAlert_count_fires env now rs alert rule allAlerts n mins
                     Hrule Hn Hn0 Hw Hw0).
  pose proof (matchingInWindow_le_recentAlerts now alert mins allAlerts Hvalid)
    as Hle.
  specialize (Heval ltac:(lia) Hgate).
  split; [exact Heval|].
  intros svc Hrs Hall Hq. rewrite processAlert_alert.
  rewrite bool_decide_eq_false_2 by done.
  rewrite Hrs, Hall, Heval. done.
Qed.

Lemma C1_third_overspeed_alert_escalates :
  let now := Scenario.t0 + 2 * Scenario.second in
  let alert := Scenario.third in
  let svc := Scenario.svcThirdSaved in
  rules svc !! sourceType alert = Some
    {| escalate_if_count := Some 3; window_mins := Some 60;
       escalate_if_days := None; escalate_to_severity := CRITICAL;
       auto_close_if := Some "speed_normalized" |}
  ∧ (3:Z) ≠ 0 ∧ (60:Z) ≠ 0
  ∧ validTime (now - 60 * 60 * 1000)
  ∧ 3 ≤ Z.of_nat (length (matchingInWindow now alert 60
                             (getAllAlerts (storageManager svc))))
  ∧ canEscalate Scenario.env0 now alert = true
  ∧ (alertId alert ∉ processingQueue svc)
  ∧ status (snd (processAlert Scenario.env0 now svc alert)) = ESCALATED
  ∧ severity (snd (processAlert Scenario.env0 now svc alert)) = CRITICAL.
Proof.
  intros now alert svc.
  assert (Hrule : rules svc !! sourceType alert = Some
    {| escalate_if_count := Some 3; window_mins := Some 60;
       escalate_if_days := None; escalate_to_severity := CRITICAL;
       auto_close_if := Some "speed_normalized" |}) by (vm_compute; reflexivity).
  assert (H3 : (3:Z) ≠ 0) by discriminate.
  assert (H60 : (60:Z) ≠ 0) by discriminate.
  assert (Hvalid : validTime (now - 60 * 60 * 1000))
    by (split; vm_compute; discriminate).
  assert (Hcount : 3 ≤ Z.of_nat (length (matchingInWindow now alert 60
                             (getAllAlerts (storageManager svc)))))
    by (vm_compute; discriminate).
  assert (Hgate : canEscalate Scenario.env0 now alert = true)
    by (vm_compute; reflexivity).
  assert (Hq : alertId alert ∉ processingQueue svc)
    by (apply (bool_decide_unpack _); vm_compute; exact I).
  repeat (split; [assumption|]).
  exact (proj2 (C1_count_in_window_escalates Scenario.env0 now (rules svc) alert
                  _ (getAllAlerts (storageManager svc)) 3 60
                  Hrule eq_refl H3 eq_refl H60 Hvalid Hcount Hgate)
           svc eq_refl eq_refl Hq).
Defined.

(** The same run through [createAlert]: the first two overspeed alerts of
    driver DRV001 stay OPEN, the third comes back ESCALATED and CRITICAL. *)
Example three_overspeed_alerts :
  status (snd Scenario.run1) = OPEN ∧ status (snd Scenario.run2) = OPEN
  ∧ status (snd Scenario.run3) = ESCALATED
  ∧ severity (snd Scenario.run3) = CRITICAL.
Proof. vm_compute. done. Qed.

(** ** The cooldown gate *)

Lemma canEscalate_false_iff env now a :
  canEscalate env now a = false ↔
  ∃ last, lastEscalatedAt a = Some last
          ∧ now - last ≤ env_or (ESCALATION_COOLDOWN_MINUTES env) 60 * 60 * 1000.
Proof.
  unfold canEscalate. destruct (lastEscalatedAt a) as [last|].
  - rewrite Z.gtb_ltb, Z.ltb_ge. split; [eauto|]. by intros (? & [= <-] & ?).
  - split; [done|]. by intros (? & ? & ?).
Qed.

(** C5, as far as the code goes.  For an alert whose own last escalation
    lies inside the cooldown window, the escalation check returns nothing
    under every rule and every snapshot, whatever the count in the window:
    evaluation returns no escalate action (it returns normally, with nothing
    or with an auto-close action), and processing the alert leaves its
    escalation count, last escalation time and severity as they were. *)
Theorem C5_cooldown_blocks_escalation env now rs alert allAlerts last :
  lastEscalatedAt alert = Some last →
  now - last ≤ env_or (ESCALATION_COOLDOWN_MINUTES env) 60 * 60 * 1000 →
  (∀ rule, checkEscalationRules env now alert rule allAlerts = None)
  ∧ is_escalate (evaluateAlert env now rs alert allAlerts) = false
  ∧ ∀ svc,
      escalationCount (snd (processAlert env now svc alert)) = escalationCount alert
      ∧ lastEscalatedAt (snd (processAlert env now svc alert)) = lastEscalatedAt alert
      ∧ severity (snd (processAlert env now svc alert)) = severity alert.
Proof.
  intros Hlast Hin.
  assert (Hgate : canEscalate env now alert = false)
    by (apply canEscalate_false_iff; eauto).
  assert (Hev : ∀ rs' l, is_escalate (evaluateAlert env now rs' alert l) = false).
  { intros rs' l. unfold evaluateAlert. destruct (rs' !! sourceType alert); [|done].
    rewrite checkEscalationRules_gate by done.
    destruct (checkAutoCloseRules alert _) as [act|] eqn:Hc; [|done].
    by destruct (checkAutoCloseRules_is_auto_close _ _ _ Hc) as [? ->]. }
  split; [intros; by apply checkEscalationRules_gate|].
  split; [apply Hev|].
  intros svc. rewrite processAlert_alert. case_bool_decide; [done|].
  specialize (Hev (rules svc) (getAllAlerts (storageManager svc))).
  destruct (evaluateAlert _ _ _ _ _) as [[?|?]|]; done.
Qed.

Lemma C5_escalated_alert_inside_cooldown :
  let now := Scenario.t0 + 1 * Scenario.minute in
  let alert := snd Scenario.run3 in
  let allAlerts := getAllAlerts (storageManager (fst Scenario.run3)) in
  lastEscalatedAt alert = Some (Scenario.t0 + 2 * Scenario.second)
  ∧ now - (Scenario.t0 + 2 * Scenario.second)
      ≤ env_or (ESCALATION_COOLDOWN_MINUTES Scenario.env0) 60 * 60 * 1000
  ∧ 3 ≤ Z.of_nat (length (recentAlerts now alert 60 allAlerts))
  ∧ is_escalate (evaluateAlert Scenario.env0 now getDefaultRules alert allAlerts) = false.
Proof.
  intros now alert allAlerts.
  assert (Hlast : lastEscalatedAt alert = Some (Scenario.t0 + 2 * Scenario.second))
    by (vm_compute; reflexivity).
  assert (Hin : now - (Scenario.t0 + 2 * Scenario.second)
      ≤ env_or (ESCALATION_COOLDOWN_MINUTES Scenario.env0) 60 * 60 * 1000)
    by (vm_compute; discriminate).
  repeat (split; [assumption|]).
  split; [vm_compute; discriminate|].
  exact (proj1 (proj2 (C5_cooldown_blocks_escalation Scenario.env0 now
                         getDefaultRules alert allAlerts _ Hlast Hin))).
Defined.

(** The fourth overspeed alert of the same driver, arriving one minute after
    the start, inside the sixty minutes that follow the escalation of the
    third: it has no last escalation of its own, so its gate passes and it
    is escalated as well. *)
Lemma C5_fourth_alert_escalates_too :
  lastEscalatedAt (snd Scenario.run3) = Some (Scenario.t0 + 2 * Scenario.second)
  ∧ (Scenario.t0 + 1 * Scenario.minute) - (Scenario.t0 + 2 * Scenario.second)
      ≤ env_or (ESCALATION_COOLDOWN_MINUTES Scenario.env0) 60 * 60 * 1000
  ∧ status (snd Scenario.run4) = ESCALATED
  ∧ escalationCount (snd Scenario.run4) = 1.
Proof. vm_compute. repeat split; discriminate. Qed.

(** ** Evaluation order *)

(** C6.  One evaluation looks up the rule, runs the escalation check and,
    only when that check returns nothing, the auto-close check: its result
    is the escalate action when there is one, whatever the auto-close
    condition says.  So a pass over an alert leaves it untouched, or
    escalated once, or auto-closed once, never both, and its history grows
    by at most one event. *)
Theorem C6_escalation_first_single_action env now rs alert allAlerts svc :
  evaluateAlert env now rs alert allAlerts =
    match rs !! sourceType alert with
    | None => None
    | Some rule =>
        if is_escalate (checkEscalationRules env now alert rule allAlerts)
        then checkEscalationRules env now alert rule allAlerts
        else checkAutoCloseRules alert rule
    end
  ∧ (snd (processAlert env now svc alert) = alert
     ∨ (∃ sev reason,
          snd (processAlert env now svc alert) = escalate now alert sev reason)
     ∨ (∃ reason,
          snd (processAlert env now svc alert) = autoClose now alert reason))
  ∧ (length (history (snd (processAlert env now svc alert)))
     ≤ S (length (history alert)))%nat.
Proof.
  split.
  - unfold evaluateAlert. destruct (rs !! sourceType alert) as [rule|]; [|done].
    destruct (checkEscalationRules env now alert rule allAlerts) as [act|] eqn:He.
    + by destruct (checkEscalationRules_is_escalate _ _ _ _ _ _ He) as [? ->].
    + simpl. by destruct (checkAutoCloseRules alert rule).
  - rewrite processAlert_alert. case_bool_decide.
    { split; [by left | lia]. }
    destruct (evaluateAlert _ _ _ _ _) as [[sev reason|reason]|]; simpl.
    + split; [right; left; eauto|]. rewrite length_app. simpl. lia.
    + split; [right; right; eauto|]. rewrite length_app. simpl. lia.
    + split; [by left | lia].
Qed.

(** ** The auto-close condition *)

(** C7, as far as the code goes.  Under a rule whose [auto_close_if] names a
    key, and with no escalation due, evaluation yields the auto-close action
    exactly when the metadata field of that very name is the boolean [true]
    or the string ["true"].  This holds for the well-known keys as for any
    other: their extra clauses read the field the rule names. *)
Theorem C7_auto_close_reads_the_named_key env now rs alert allAlerts rule condition :
  rs !! sourceType alert = Some rule →
  auto_close_if rule = Some condition → condition ≠ "" →
  checkEscalationRules env now alert rule allAlerts = None →
  evaluateAlert env now rs alert allAlerts =
    if strict_eq (metadata alert !! condition) (Some (JBool true)) ||
       strict_eq (metadata alert !! condition) (Some (JStr "true"))
    then Some (ActAutoClose ("Auto-closed because " +:+ condition +:+ " condition met"))
    else None.
Proof.
  intros Hrule Hc Hne Hesc. unfold evaluateAlert. rewrite Hrule, Hesc.
  unfold checkAutoCloseRules. rewrite Hc, truthy_str_Some by done. simpl.
  destruct (strict_eq (metadata alert !! condition) (Some (JBool true))) eqn:Hb;
    simpl; [done|].
  destruct (strict_eq (metadata alert !! condition) (Some (JStr "true"))); simpl;
    [done|].
  assert (Hsame : ∀ key,
    String.eqb condition key &&
      strict_eq (metadata alert !! key) (Some (JBool true)) = false).
  { intros key. destruct (String.eqb_spec condition key) as [<-|]; [|done].
    by rewrite Hb. }
  by rewrite !Hsame.
Qed.

Lemma C7_document_valid_key :
  getDefaultRules !! sourceType Scenario.complianceValid = Some
    {| escalate_if_count := None; window_mins := None;
       escalate_if_days := Some 7; escalate_to_severity := HIGH;
       auto_close_if := Some "document_valid" |}
  ∧ "document_valid" ≠ ""
  ∧ evaluateAlert Scenario.env0 Scenario.t0 getDefaultRules
      Scenario.complianceValid [Scenario.complianceValid]
    = Some (ActAutoClose "Auto-closed because document_valid condition met").
Proof.
  assert (Hrule : getDefaultRules !! sourceType Scenario.complianceValid = Some
    {| escalate_if_count := None; window_mins := None;
       escalate_if_days := Some 7; escalate_to_severity := HIGH;
       auto_close_if := Some "document_valid" |}) by (vm_compute; reflexivity).
  assert (Hne : "document_valid" ≠ "") by discriminate.
  repeat (split; [assumption|]).
  exact (C7_auto_close_reads_the_named_key Scenario.env0 Scenario.t0
           getDefaultRules Scenario.complianceValid [Scenario.complianceValid]
           _ "document_valid" Hrule eq_refl Hne eq_refl).
Defined.

(** The compliance rule names [document_valid]; an alert that carries the
    same trigger as [documentValid: true], or as [document_renewed: true],
    is not auto-closed. *)
Lemma C7_other_field_name_not_recognized :
  (auto_close_if <$> getDefaultRules !! "compliance") = Some (Some "document_valid")
  ∧ sourceType Scenario.complianceCamel = "compliance"
  ∧ metadata Scenario.complianceCamel !! "documentValid" = Some (JBool true)
  ∧ evaluateAlert Scenario.env0 Scenario.t0 getDefaultRules
      Scenario.complianceCamel [Scenario.complianceCamel] = None
  ∧ sourceType Scenario.complianceRenewed = "compliance"
  ∧ metadata Scenario.complianceRenewed !! "document_renewed" = Some (JBool true)
  ∧ evaluateAlert Scenario.env0 Scenario.t0 getDefaultRules
      Scenario.complianceRenewed [Scenario.complianceRenewed] = None.
Proof. vm_compute. done. Qed.

(** ** Alerts without identifiers *)

(** C9.  For a subject alert with neither [driverId] nor [vehicleId], and a
    window whose start is a date, the count filter selects from any
    snapshot, whatever else it holds, exactly the alerts of the subject's
    source type that are active, timestamped from the start of the window
    on, and lack [driverId] or lack [vehicleId] (an absent field compares
    equal to an absent field).  In particular it selects every such alert
    that lacks both fields; so identifier-less alerts count toward each
    other's threshold, and once the snapshot holds as many of them as the
    rule's [escalate_if_count] the subject is escalated. *)
Theorem C9_identifierless_alerts_match_each_other now alert mins allAlerts :
  identifierless alert →
  validTime (now - mins * 60 * 1000) →
  (∀ a, In a (recentAlerts now alert mins allAlerts) ↔
        In a allAlerts ∧ sourceType a = sourceType alert ∧ isActive a = true
        ∧ now - mins * 60 * 1000 ≤ timestamp a
        ∧ (metadata a !! "driverId" = None ∨ metadata a !! "vehicleId" = None))
  ∧ (∀ a, In a (identifierlessPeers now alert mins allAlerts) →
          In a (recentAlerts now alert mins allAlerts))
  ∧ ∀ env rs rule n,
      rs !! sourceType alert = Some rule →
      escalate_if_count rule = Some n → n ≠ 0 →
      window_mins rule = Some mins → mins ≠ 0 →
      n ≤ Z.of_nat (length (identifierlessPeers now alert mins allAlerts)) →
      canEscalate env now alert = true →
      is_escalate (evaluateAlert env now rs alert allAlerts) = true.
Proof.
  intros [Hd Hv] Hvalid.
  assert (Hmatch : ∀ a,
            recentAlertMatch alert (Date_new (now - mins * 60 * 1000)) a = true ↔
            sourceType a = sourceType alert ∧ isActive a = true
            ∧ now - mins * 60 * 1000 ≤ timestamp a
            ∧ (metadata a !! "driverId" = None ∨ metadata a !! "vehicleId" = None)).
  { intros a. unfold recentAlertMatch, strict_eq.
    rewrite date_ge_valid, Hd, Hv by done.
    rewrite !andb_true_iff, orb_true_iff, !bool_decide_eq_true, String.eqb_eq.
    rewrite Z.geb_le. tauto. }
  assert (Hpeers : ∀ a, In a (identifierlessPeers now alert mins allAlerts) →
                        In a (recentAlerts now alert mins allAlerts)).
  { intros a [Hin Hp]%List.filter_In. apply List.filter_In. split; [done|].
    apply Hmatch. revert Hp.
    rewrite !andb_true_iff, !bool_decide_eq_true, String.eqb_eq, Z.leb_le.
    tauto. }
  split; [|split; [exact Hpeers|]].
  - intros a. unfold recentAlerts. cbv zeta. rewrite List.filter_In, Hmatch. tauto.
  - intros env rs rule n Hrule Hn Hn0 Hw Hw0 Hle Hgate.
    rewrite (evaluateAlert_count_fires env now rs alert rule allAlerts n mins);
      try done.
    etrans; [exact Hle|]. apply inj_le.
    apply filter_length_mono. intros a Hp.
    apply Hmatch. revert Hp.
    rewrite !andb_true_iff, !bool_decide_eq_true, String.eqb_eq, Z.leb_le.
    tauto.
Qed.

Lemma C9_two_unrelated_feedback_alerts :
  let now := Scenario.t0 + 5 * Scenario.minute in
  let allAlerts := Scenario.mixedSnapshot in
  identifierless Scenario.anon2
  ∧ validTime (now - 1440 * 60 * 1000)
  ∧ identifierlessPeers now Scenario.anon2 1440 allAlerts
    = [Scenario.anon1; Scenario.anon2]
  ∧ recentAlerts now Scenario.anon2 1440 allAlerts = [Scenario.anon1; Scenario.anon2]
  ∧ is_escalate (evaluateAlert Scenario.env0 now getDefaultRules
                   Scenario.anon2 allAlerts) = true.
Proof.
  intros now allAlerts.
  assert (Hid : identifierless Scenario.anon2) by (split; vm_compute; reflexivity).
  assert (Hvalid : validTime (now - 1440 * 60 * 1000))
    by (split; vm_compute; discriminate).
  assert (Hpeers : identifierlessPeers now Scenario.anon2 1440 allAlerts
                   = [Scenario.anon1; Scenario.anon2]) by (vm_compute; reflexivity).
  pose proof (C9_identifierless_alerts_match_each_other now Scenario.anon2 1440
                allAlerts Hid Hvalid) as (_ & _ & Hesc).
  split; [exact Hid|]. split; [exact Hvalid|]. split; [exact Hpeers|].
  split; [vm_compute; reflexivity|].
  refine (Hesc Scenario.env0 getDefaultRules
            {| escalate_if_count := Some 2; window_mins := Some 1440;
               escalate_if_days := None; escalate_to_severity := HIGH;
               auto_close_if := Some "feedback_resolved" |} 2 _ eq_refl _ eq_refl _ _ _).
  - vm_compute; reflexivity.
  - discriminate.
  - discriminate.
  - rewrite Hpeers. vm_compute; discriminate.
  - vm_compute; reflexivity.
Defined.

(** ** The storage pair *)

Section KeyedStore.
Context {V : Type}.
Implicit Types (m : list (string * V)) (k : string) (v : V).

Lemma kv_get_set_eq k v m : kv_get k (kv_set k v m) = Some v.
Proof.
  induction m as [|[k' v'] m IH]; simpl.
  - by rewrite eqb_refl_true.
  - destruct (String.eqb k k') eqn:E; simpl.
    + by rewrite eqb_refl_true.
    + by rewrite E.
Qed.

Lemma kv_get_set_ne k k' v m : k ≠ k' → kv_get k' (kv_set k v m) = kv_get k' m.
Proof.
  intros Hne. induction m as [|[k0 v0] m IH]; simpl.
  - by rewrite (proj2 (String.eqb_neq k' k)).
  - destruct (String.eqb_spec k k0) as [<-|Hk]; simpl.
    + by rewrite (proj2 (String.eqb_neq k' k)).
    + by rewrite IH.
Qed.

Lemma kv_get_delete_ne k k' m : k ≠ k' → kv_get k' (kv_delete k m) = kv_get k' m.
Proof.
  intros Hne. induction m as [|[k0 v0] m IH]; simpl; [done|].
  destruct (String.eqb_spec k k0) as [<-|Hk]; simpl.
  - by rewrite (proj2 (String.eqb_neq k' k)).
  - by rewrite IH.
Qed.

Lemma kv_get_In k v m : kv_get k m = Some v → In (k, v) m.
Proof.
  induction m as [|[k0 v0] m IH]; simpl; [done|].
  destruct (String.eqb_spec k k0) as [<-|Hk].
  - intros [= <-]. by left.
  - intros H. right. by apply IH.
Qed.
End KeyedStore.

Lemma alertKey_prefix id : String.prefix "alert:" (alertKey id) = true.
Proof. unfold alertKey. simpl. by destruct id. Qed.

Lemma alertKey_inj id id' : alertKey id = alertKey id' → id = id'.
Proof. unfold alertKey. intros H. vm_compute in H. by injection H. Qed.

(** What is stored under an id on the backend in use is listed by
    [getAllAlerts]. *)
Lemma getAllAlerts_redis st id d :
  isConnected st = true → kv_get (alertKey id) (redis st) = Some d →
  In (Alert_load d) (getAllAlerts st).
Proof.
  intros Hc Hget. unfold getAllAlerts. rewrite Hc.
  apply in_flat_map. exists (alertKey id). split.
  - unfold redis_keys. apply List.filter_In. split; [|apply alertKey_prefix].
    apply (in_map fst _ (alertKey id, d)). by apply kv_get_In.
  - rewrite Hget. by left.
Qed.

Lemma getAllAlerts_memory st id d :
  isConnected st = false → kv_get id (memoryStore st) = Some d →
  In (Alert_load d) (getAllAlerts st).
Proof.
  intros Hc Hget. unfold getAllAlerts. rewrite Hc.
  apply (in_map (λ kv, Alert_load (snd kv)) _ (id, d)). by apply kv_get_In.
Qed.

Lemma getAllAlerts_saveAlert st a :
  In (Alert_load a) (getAllAlerts (saveAlert st a)).
Proof.
  unfold saveAlert. destruct (isConnected st) eqn:Hc.
  - apply (getAllAlerts_redis _ (alertId a)); simpl; [done|apply kv_get_set_eq].
  - apply (getAllAlerts_memory _ (alertId a)); simpl; [done|apply kv_get_set_eq].
Qed.

(** A call under another id leaves the record of [id] where it is, on both
    backends. *)
Lemma applyStorageOp_redis_kept st op id d :
  leavesId id op →
  kv_get (alertKey id) (redis st) = Some d →
  kv_get (alertKey id) (redis (applyStorageOp st op)) = Some d.
Proof.
  destruct op as [b|id'|c]; simpl; intros Hl Hget.
  - unfold saveAlert. destruct (isConnected st); simpl; [|done].
    rewrite kv_get_set_ne; [done|]. intros E. by apply alertKey_inj in E.
  - unfold deleteAlert. destruct (isConnected st); simpl; [|done].
    rewrite kv_get_delete_ne; [done|]. intros E. by apply alertKey_inj in E.
  - done.
Qed.

Lemma applyStorageOp_memory_kept st op id d :
  leavesId id op →
  kv_get id (memoryStore st) = Some d →
  kv_get id (memoryStore (applyStorageOp st op)) = Some d.
Proof.
  destruct op as [b|id'|c]; simpl; intros Hl Hget.
  - unfold saveAlert. destruct (isConnected st); simpl; [done|].
    by rewrite kv_get_set_ne.
  - unfold deleteAlert. destruct (isConnected st); simpl; [done|].
    by rewrite kv_get_delete_ne.
  - done.
Qed.

Lemma fold_redis_kept ops st id d :
  Forall (leavesId id) ops →
  kv_get (alertKey id) (redis st) = Some d →
  kv_get (alertKey id) (redis (fold_left applyStorageOp ops st)) = Some d.
Proof.
  revert st. induction ops as [|op ops IH]; intros st Hall Hget; simpl; [done|].
  inversion_clear Hall. apply IH; [done|]. by apply applyStorageOp_redis_kept.
Qed.

Lemma fold_memory_kept ops st id d :
  Forall (leavesId id) ops →
  kv_get id (memoryStore st) = Some d →
  kv_get id (memoryStore (fold_left applyStorageOp ops st)) = Some d.
Proof.
  revert st. induction ops as [|op ops IH]; intros st Hall Hget; simpl; [done|].
  inversion_clear Hall. apply IH; [done|]. by apply applyStorageOp_memory_kept.
Qed.

(** C4, as far as the code goes.  After an alert is saved, and after any
    further saves and deletes under other ids and any changes of Redis
    connectivity, [getAllAlerts] returns the alert whenever the backend in
    use at that moment is the one that was in use when it was saved. *)
Theorem C4_getAll_returns_what_the_current_backend_holds st a ops :
  Forall (leavesId (alertId a)) ops →
  isConnected (fold_left applyStorageOp ops (saveAlert st a)) = isConnected st →
  In (Alert_load a) (getAllAlerts (fold_left applyStorageOp ops (saveAlert st a))).
Proof.
  intros Hall Hsame. destruct (isConnected st) eqn:Hc.
  - apply (getAllAlerts_redis _ (alertId a)); [done|].
    apply fold_redis_kept; [done|]. unfold saveAlert. rewrite Hc. simpl.
    apply kv_get_set_eq.
  - apply (getAllAlerts_memory _ (alertId a)); [done|].
    apply fold_memory_kept; [done|]. unfold saveAlert. rewrite Hc. simpl.
    apply kv_get_set_eq.
Qed.

Lemma C4_saved_offline_read_offline :
  let ops := [OpSetConnected true; OpSave (snd Scenario.run1);
              OpSetConnected false] in
  Forall (leavesId (alertId Scenario.third)) ops
  ∧ isConnected (fold_left applyStorageOp ops
                   (saveAlert (emptyStorage false) Scenario.third))
    = isConnected (emptyStorage false)
  ∧ In (Alert_load Scenario.third)
       (getAllAlerts (fold_left applyStorageOp ops
                        (saveAlert (emptyStorage false) Scenario.third))).
Proof.
  intros ops.
  assert (Hall : Forall (leavesId (alertId Scenario.third)) ops).
  { repeat constructor. vm_compute. discriminate. }
  assert (Hsame : isConnected (fold_left applyStorageOp ops
                   (saveAlert (emptyStorage false) Scenario.third))
    = isConnected (emptyStorage false)) by (vm_compute; reflexivity).
  repeat (split; [assumption|]).
  exact (C4_getAll_returns_what_the_current_backend_holds (emptyStorage false)
           Scenario.third ops Hall Hsame).
Defined.

(** An alert saved to the in-memory fallback while Redis is down is missing
    from [getAllAlerts] once Redis is connected. *)
Lemma C4_saved_offline_missing_online :
  In (Alert_load Scenario.third) (getAllAlerts Scenario.savedOffline)
  ∧ getAllAlerts (setConnected true Scenario.savedOffline) = [].
Proof. split; [left|]; vm_compute; reflexivity. Qed.

(** ** A new alert counts itself *)

(** C10.  [createAlert] saves the new alert before it evaluates it, so the
    snapshot of that evaluation holds the alert, and the count filter
    selects it for itself.  Under a rule with [escalate_if_count = 1] (and a
    window of a positive number of minutes whose start is a date: with a
    window that reaches back beyond the range of time values the code
    compares with an Invalid Date and counts nothing) the new alert is
    therefore escalated by its first evaluation, whatever else the store
    holds. *)
Theorem C10_new_alert_counts_toward_itself env now uuid svc data rule mins :
  rules svc !! in_sourceType data = Some rule →
  escalate_if_count rule = Some 1 →
  window_mins rule = Some mins → 0 < mins →
  validTime (now - mins * 60 * 1000) →
  uuid ∉ processingQueue svc →
  In (Alert_load (Alert_new uuid now data))
     (getAllAlerts (saveAlert (storageManager svc) (Alert_new uuid now data)))
  ∧ recentAlertMatch (Alert_new uuid now data) (Date_new (now - mins * 60 * 1000))
      (Alert_load (Alert_new uuid now data)) = true
  ∧ status (snd (createAlert env now uuid svc data)) = ESCALATED
  ∧ severity (snd (createAlert env now uuid svc data)) = escalate_to_severity rule.
Proof.
  intros Hrule Hn Hw Hpos Hvalid Hq.
  set (alert := Alert_new uuid now data).
  assert (Hin : In (Alert_load alert)
                  (getAllAlerts (saveAlert (storageManager svc) alert)))
    by apply getAllAlerts_saveAlert.
  assert (Hself : recentAlertMatch alert (Date_new (now - mins * 60 * 1000))
                    (Alert_load alert) = true).
  { unfold recentAlertMatch. rewrite date_ge_valid by done. simpl.
    rewrite eqb_refl_true, !strict_eq_refl. simpl.
    rewrite andb_true_r. apply Z.geb_le. lia. }
  split; [exact Hin|]. split; [exact Hself|].
  unfold createAlert. fold alert. rewrite processAlert_alert. simpl.
  rewrite bool_decide_eq_false_2 by done.
  rewrite (evaluateAlert_count_fires env now (rules svc) alert rule _ 1 mins);
    try done; try lia.
  pose proof (filter_In_length _ _ _ Hin Hself) as Hlen.
  unfold recentAlerts. lia.
Qed.

Lemma C10_lone_fatigue_alert :
  rules Scenario.svc0 !! in_sourceType Scenario.fatigueInput = Some
    {| escalate_if_count := Some 1; window_mins := Some 30;
       escalate_if_days := None; escalate_to_severity := CRITICAL;
       auto_close_if := Some "driver_rested" |}
  ∧ 0 < 30
  ∧ validTime (Scenario.t0 - 30 * 60 * 1000)
  ∧ ("f-0001" ∉ processingQueue Scenario.svc0)
  ∧ getAllAlerts (storageManager Scenario.svc0) = []
  ∧ status (snd (createAlert Scenario.env0 Scenario.t0 "f-0001" Scenario.svc0
                   Scenario.fatigueInput)) = ESCALATED
  ∧ severity (snd (createAlert Scenario.env0 Scenario.t0 "f-0001" Scenario.svc0
                     Scenario.fatigueInput)) = CRITICAL.
Proof.
  assert (Hrule : rules Scenario.svc0 !! in_sourceType Scenario.fatigueInput = Some
    {| escalate_if_count := Some 1; window_mins := Some 30;
       escalate_if_days := None; escalate_to_severity := CRITICAL;
       auto_close_if := Some "driver_rested" |}) by (vm_compute; reflexivity).
  assert (Hpos : 0 < 30) by reflexivity.
  assert (Hvalid : validTime (Scenario.t0 - 30 * 60 * 1000))
    by (split; vm_compute; discriminate).
  assert (Hq : "f-0001" ∉ processingQueue Scenario.svc0)
    by (apply (bool_decide_unpack _); vm_compute; exact I).
  repeat (split; [assumption|]).
  split; [reflexivity|].
  exact (proj2 (proj2 (C10_new_alert_counts_toward_itself Scenario.env0
                         Scenario.t0 "f-0001" Scenario.svc0 Scenario.fatigueInput
                         _ 30 Hrule eq_refl eq_refl Hpos Hvalid Hq))).
Defined.

(** ** Resolution and expiry timestamps *)

Lemma resolve_status now a res : status (resolve now a res) = RESOLVED.
Proof. done. Qed.

Lemma resolve_resolvedAt now a res : resolvedAt (resolve now a res) = Some now.
Proof. done. Qed.

Lemma expire_expiredAt env now a : expiredAt (expire env now a) = Some now.
Proof. done. Qed.

Lemma applyAlertOp_resolvedAt env a op now :
  resolvedAt (applyAlertOp env a (op, now)) =
    if isResolve op then Some now else resolvedAt a.
Proof. by destruct op. Qed.

Lemma applyAlertOp_expiredAt env a op now :
  expiredAt (applyAlertOp env a (op, now)) =
    if isExpire op then Some now else expiredAt a.
Proof. by destruct op. Qed.

(** C8, as far as the code goes.  Over any sequence of operations on an
    alert (escalate, auto-close, resolve, expire, the trip through the
    store), [resolvedAt] holds the time of the last resolve of the sequence
    and [expiredAt] the time of the last expire; with no such operation in
    the sequence the field keeps the value it had.  So each field is set by
    its own transition, at the time of that transition, is overwritten by a
    repetition of that transition, and is never cleared. *)
Theorem C8_timestamps_follow_the_last_transition env a steps :
  resolvedAt (fold_left (applyAlertOp env) steps a) =
    match lastTimeOf isResolve steps with
    | Some now => Some now
    | None => resolvedAt a
    end
  ∧ expiredAt (fold_left (applyAlertOp env) steps a) =
    match lastTimeOf isExpire steps with
    | Some now => Some now
    | None => expiredAt a
    end.
Proof.
  revert a. induction steps as [|[op now] steps IH]; intros a; [done|].
  cbn [fold_left lastTimeOf].
  destruct (IH (applyAlertOp env a (op, now))) as [Hr He].
  rewrite Hr, He, applyAlertOp_resolvedAt, applyAlertOp_expiredAt.
  split.
  - by destruct (lastTimeOf isResolve steps), (isResolve op).
  - by destruct (lastTimeOf isExpire steps), (isExpire op).
Qed.

(** Resolving the same alert a second time, one minute later, replaces the
    resolution time recorded by the first call. *)
Lemma C8_second_resolve_overwrites_resolvedAt :
  (resolvedAt <$> snd Scenario.resolved)
    = Some (Some (Scenario.t0 + 1 * Scenario.minute))
  ∧ (resolvedAt <$> snd Scenario.resolvedAgain)
    = Some (Some (Scenario.t0 + 2 * Scenario.minute))
  ∧ (resolvedAt <$> snd Scenario.resolvedAgain)
    ≠ (resolvedAt <$> snd Scenario.resolved).
Proof. vm_compute. repeat split; discriminate. Qed.

(** ** Resolved alerts and on-demand processing *)

Lemma resolveAlert_resolves now svc id res alert :
  getAlert (storageManager svc) id = Some alert →
  snd (resolveAlert now svc id res) = Some (resolve now alert res).
Proof. unfold resolveAlert. by intros ->. Qed.

(** Processing does not look at the status of the alert it is given: a
    resolved alert whose auto-close condition holds, with no count-based
    escalation due, is auto-closed. *)
Lemma processAlert_auto_closes_resolved env now svc a rule condition :
  status a = RESOLVED →
  rules svc !! sourceType a = Some rule →
  auto_close_if rule = Some condition → condition ≠ "" →
  metadata a !! condition = Some (JBool true) →
  countEscalation now a rule (getAllAlerts (storageManager svc)) = None →
  alertId a ∉ processingQueue svc →
  status (snd (processAlert env now svc a)) = AUTO_CLOSED.
Proof.
  intros Hst Hrule Hc Hne Hmd Hcount Hq. rewrite processAlert_alert.
  rewrite bool_decide_eq_false_2 by done.
  unfold evaluateAlert, checkEscalationRules, ageEscalation, checkAutoCloseRules.
  rewrite Hrule, Hcount, Hst, Hc, truthy_str_Some by done. simpl.
  rewrite andb_false_r, Hmd, strict_eq_refl. simpl.
  by destruct (negb (canEscalate env now a)).
Qed.

(** C2 at a failing input.  A compliance alert is created, then resolved
    through [resolveAlert], which succeeds and leaves it RESOLVED.  The
    renewal route then processes the stored alert: [processAlert] does not
    look at [isActive], the auto-close check fires on [document_valid], and
    the alert goes from RESOLVED to AUTO_CLOSED with a third history event.
    In the same way the resolved first overspeed alert of driver DRV001 is
    escalated to CRITICAL. *)
Theorem C2_resolved_alert_still_transitions :
  (status <$> snd Scenario.resolved) = Some RESOLVED
  ∧ (status <$> snd Scenario.renewed) = Some AUTO_CLOSED
  ∧ ((λ a, last (history a)) <$> snd Scenario.renewed) = Some (Some
       {| action := EV_AUTO_CLOSED;
          ev_timestamp := Scenario.t0 + 3 * Scenario.minute;
          details := "Auto-closed because document_valid condition met";
          previousStatus := Some RESOLVED; previousSeverity := None |})
  ∧ (status <$> snd Scenario.firstResolved) = Some RESOLVED
  ∧ (status <$> snd Scenario.firstRenewed) = Some ESCALATED
  ∧ (severity <$> snd Scenario.firstRenewed) = Some CRITICAL.
Proof. vm_compute. done. Qed.

(** ** The scheduled pass *)

(** With no alert in the store, both sweeps leave the service as it is. *)
Lemma backgroundJob_no_alerts env now svc :
  getAllAlerts (storageManager svc) = [] →
  processAllAlerts env now svc = svc
  ∧ expireOldAlerts env now svc = svc
  ∧ backgroundJob env now svc = svc.
Proof.
  intros Hnone.
  assert (Hp : processAllAlerts env now svc = svc)
    by (unfold processAllAlerts; by rewrite Hnone).
  assert (He : expireOldAlerts env now svc = svc)
    by (unfold expireOldAlerts; by rewrite Hnone).
  unfold backgroundJob. by rewrite Hp, He.
Qed.

(** C3 at a failing input.  An alert whose metadata has [issue_resolved]
    set is created while its source type has no rule; the rule of the test
    script is then added.  The first scheduled pass escalates the alert (the
    escalation check comes first); a second pass at the same instant, or a
    second later, finds the cooldown gate closed, falls through to the
    auto-close check and closes the alert: one more history event and one
    more transition.  The same happens under the default rules alone with a
    cooldown of one minute: of two feedback alerts of one driver, the one
    with [feedback_resolved] set is escalated when created, escalated again
    by the first pass two minutes later, and auto-closed by the second. *)
Theorem C3_second_pass_auto_closes :
  Scenario.historyLengths Scenario.withRule = [("e-0001", OPEN, 1%nat)]
  ∧ Scenario.historyLengths Scenario.pass1 = [("e-0001", ESCALATED, 2%nat)]
  ∧ Scenario.historyLengths Scenario.pass2 = [("e-0001", AUTO_CLOSED, 3%nat)]
  ∧ Scenario.historyLengths Scenario.pass2Later = [("e-0001", AUTO_CLOSED, 3%nat)]
  ∧ Scenario.pass2 ≠ Scenario.pass1
  ∧ Scenario.historyLengths (fst Scenario.feedback2)
    = [("g-0001", OPEN, 1%nat); ("g-0002", ESCALATED, 2%nat)]
  ∧ Scenario.historyLengths Scenario.shortPass1
    = [("g-0001", ESCALATED, 2%nat); ("g-0002", ESCALATED, 3%nat)]
  ∧ Scenario.historyLengths Scenario.shortPass2
    = [("g-0001", ESCALATED, 2%nat); ("g-0002", AUTO_CLOSED, 4%nat)].
Proof.
  repeat split; try (vm_compute; reflexivity).
  intros Heq.
  assert (H : Scenario.historyLengths Scenario.pass2
              = Scenario.historyLengths Scenario.pass1) by (by rewrite Heq).
  vm_compute in H. discriminate.
Qed.

(** ** Scheduled passes over a well-formed store *)

Section KeyedStoreShape.
Context {V : Type}.
Implicit Types (m : list (string * V)) (k : string) (v : V).

Lemma kv_get_None_notin k m : kv_get k m = None → ¬ In k (List.map fst m).
Proof.
  induction m as [|[k0 v0] m IH]; simpl; [tauto|].
  destruct (String.eqb_spec k k0) as [<-|Hk]; [done|].
  intros Hget [E|Hin]; [by symmetry in E | by apply IH].
Qed.

Lemma kv_get_unique k v m :
  NoDup (List.map fst m) → In (k, v) m → kv_get k m = Some v.
Proof.
  induction m as [|[k0 v0] m IH]; simpl; [tauto|].
  intros Hnd [E|Hin]; apply NoDup_cons in Hnd as [Hnot Hnd].
  - simplify_eq. by rewrite eqb_refl_true.
  - destruct (String.eqb_spec k k0) as [<-|Hk].
    + exfalso. apply Hnot, list_elem_of_In. by apply (in_map fst _ (k, v)).
    + by apply IH.
Qed.

(** Writing under a present key keeps the keys, in their order. *)
Lemma kv_set_keys_present k v m :
  is_Some (kv_get k m) → List.map fst (kv_set k v m) = List.map fst m.
Proof.
  induction m as [|[k0 v0] m IH]; simpl.
  - by intros [? ?].
  - destruct (String.eqb_spec k k0) as [<-|Hk]; simpl; [done|].
    intros H. by rewrite IH.
Qed.

Lemma kv_set_keys_absent k v m :
  kv_get k m = None → List.map fst (kv_set k v m) = List.map fst m ++ [k].
Proof.
  induction m as [|[k0 v0] m IH]; simpl; [done|].
  destruct (String.eqb_spec k k0) as [<-|Hk]; simpl; [done|].
  intros H. by rewrite IH.
Qed.

Lemma kv_set_keys_NoDup k v m :
  NoDup (List.map fst m) → NoDup (List.map fst (kv_set k v m)).
Proof.
  intros Hnd. destruct (kv_get k m) as [v0|] eqn:Hget.
  - by rewrite kv_set_keys_present.
  - rewrite kv_set_keys_absent by done.
    apply NoDup_app. repeat split; [done| |apply NoDup_singleton].
    intros k' Hin ->%list_elem_of_singleton.
    by apply (kv_get_None_notin k m), list_elem_of_In.
Qed.

Lemma kv_set_In k v m kv : In kv (kv_set k v m) → kv = (k, v) ∨ In kv m.
Proof.
  induction m as [|[k0 v0] m IH]; simpl.
  - intros [<-|[]]. by left.
  - destruct (String.eqb_spec k k0) as [<-|Hk]; simpl.
    + intros [<-|Hin]; [by left | by right; right].
    + intros [<-|Hin]; [by right; left|].
      destruct (IH Hin); [by left | by right; right].
Qed.
End KeyedStoreShape.

Lemma keyFor_inj st id id' : keyFor st id = keyFor st id' → id = id'.
Proof. unfold keyFor. destruct (isConnected st); [apply alertKey_inj | done]. Qed.

Lemma saveAlert_isConnected st a : isConnected (saveAlert st a) = isConnected st.
Proof. unfold saveAlert. by destruct (isConnected st). Qed.

Lemma saveAlert_backend st a :
  backend (saveAlert st a) = kv_set (keyFor st (alertId a)) a (backend st).
Proof.
  unfold backend, keyFor, saveAlert. by destruct (isConnected st).
Qed.

Lemma keyFor_saveAlert st a id : keyFor (saveAlert st a) id = keyFor st id.
Proof. unfold keyFor. by rewrite saveAlert_isConnected. Qed.

Lemma saveAlert_wf st a : wf_storage st → wf_storage (saveAlert st a).
Proof.
  intros [Hnd Hkeys]. unfold wf_storage. rewrite saveAlert_backend. split.
  - by apply kv_set_keys_NoDup.
  - apply Forall_forall. intros kv Hin%list_elem_of_In%kv_set_In.
    rewrite keyFor_saveAlert. destruct Hin as [->|Hin]; [done|].
    rewrite Forall_forall in Hkeys. by apply Hkeys, list_elem_of_In.
Qed.

Lemma stored_saveAlert_eq st a : stored (saveAlert st a) (alertId a) = Some a.
Proof.
  unfold stored. rewrite saveAlert_backend, keyFor_saveAlert. apply kv_get_set_eq.
Qed.

Lemma stored_saveAlert_ne st a id :
  alertId a ≠ id → stored (saveAlert st a) id = stored st id.
Proof.
  intros Hne. unfold stored. rewrite saveAlert_backend, keyFor_saveAlert.
  apply kv_get_set_ne. intros E. by apply keyFor_inj in E.
Qed.

(** On a well-formed store [getAllAlerts] is the list of the records of the
    backend in use, each loaded. *)
Lemma getAllAlerts_backend st :
  wf_storage st →
  getAllAlerts st = List.map (λ kv, Alert_load (snd kv)) (backend st).
Proof.
  intros [Hnd Hkeys]. unfold getAllAlerts, backend in *.
  unfold keyFor in Hkeys. destruct (isConnected st); [|done].
  unfold redis_keys. rewrite filter_all.
  - assert (Hsub : ∀ l, (∀ kv, In kv l → In kv (redis st)) →
      flat_map (λ key, match kv_get key (redis st) with
                       | Some alertData => [Alert_load alertData]
                       | None => []
                       end) (List.map fst l)
      = List.map (λ kv, Alert_load (snd kv)) l).
    { induction l as [|[k v] l IH]; intros Hl; simpl; [done|].
      rewrite (kv_get_unique k v) by (done || apply Hl; by left).
      simpl. f_equal. apply IH. intros kv Hin. apply Hl. by right. }
    by apply Hsub.
  - apply Forall_forall. intros k Hin%list_elem_of_In%in_map_iff.
    destruct Hin as ([k' v] & <- & Hin). rewrite Forall_forall in Hkeys.
    specialize (Hkeys _ (proj2 (list_elem_of_In _ _) Hin)). simpl in *.
    rewrite Hkeys. apply alertKey_prefix.
Qed.

(** The alerts of a snapshot are the stored records. *)
Lemma getAllAlerts_stored st a :
  wf_storage st → In a (getAllAlerts st) →
  ∃ d, stored st (alertId a) = Some d ∧ a = Alert_load d.
Proof.
  intros Hwf Hin. rewrite getAllAlerts_backend in Hin by done.
  apply in_map_iff in Hin as ([k d] & <- & Hin). exists d. split; [|done].
  destruct Hwf as [Hnd Hkeys]. rewrite Forall_forall in Hkeys.
  specialize (Hkeys _ (proj2 (list_elem_of_In _ _) Hin)). simpl in *. subst k.
  unfold stored. by apply kv_get_unique.
Qed.

Lemma executeAction_alertId now a act : alertId (executeAction now a act) = alertId a.
Proof. by destruct act. Qed.

Lemma expire_alertId env now a : alertId (expire env now a) = alertId a.
Proof. done. Qed.

Lemma withStorage_same svc : withStorage svc (storageManager svc) = svc.
Proof. by destruct svc. Qed.

(** The service after [processAlert]: only the storage can differ, by the
    save of the alert an action was applied to. *)
Lemma processAlert_service env now svc a :
  fst (processAlert env now svc a) =
    if bool_decide (alertId a ∈ processingQueue svc) then svc
    else
      match evaluateAlert env now (rules svc) a
              (getAllAlerts (storageManager svc)) with
      | Some act =>
          withStorage svc (saveAlert (storageManager svc) (executeAction now a act))
      | None => svc
      end.
Proof.
  unfold processAlert. case_bool_decide as Hq; [done|].
  assert (Hqueue : (processingQueue svc ∪ {[alertId a]}) ∖ {[alertId a]}
                   = processingQueue svc).
  { apply set_eq. intros x.
    rewrite elem_of_difference, elem_of_union, elem_of_singleton.
    split; [tauto|]. intros Hx. split; [tauto|]. by intros ->. }
  destruct svc as [st rs q]. simpl in *.
  destruct (evaluateAlert _ _ _ _ _); simpl;
    unfold withQueue, withStorage; simpl; by rewrite Hqueue.
Qed.

Lemma processAlert_stored_other env now svc a id :
  alertId a ≠ id →
  stored (storageManager (fst (processAlert env now svc a))) id
  = stored (storageManager svc) id.
Proof.
  intros Hne. rewrite processAlert_service. case_bool_decide; [done|].
  destruct (evaluateAlert _ _ _ _ _); [|done]. simpl.
  apply stored_saveAlert_ne. by rewrite executeAction_alertId.
Qed.

Lemma processAlert_wf env now svc a :
  wf_storage (storageManager svc) →
  wf_storage (storageManager (fst (processAlert env now svc a))).
Proof.
  intros Hwf. rewrite processAlert_service. case_bool_decide; [done|].
  destruct (evaluateAlert _ _ _ _ _); [|done]. simpl. by apply saveAlert_wf.
Qed.

Lemma fold_processAlert_wf env now l svc :
  wf_storage (storageManager svc) →
  wf_storage (storageManager
    (fold_left (λ s alert, fst (processAlert env now s alert)) l svc)).
Proof.
  revert svc. induction l as [|a l IH]; intros svc Hwf; simpl; [done|].
  by apply IH, processAlert_wf.
Qed.

Lemma fold_processAlert_stored_other env now l svc id :
  Forall (λ a, alertId a ≠ id) l →
  stored (storageManager
    (fold_left (λ s alert, fst (processAlert env now s alert)) l svc)) id
  = stored (storageManager svc) id.
Proof.
  revert svc. induction l as [|a l IH]; intros svc Hall; simpl; [done|].
  inversion_clear Hall. rewrite IH by done. by apply processAlert_stored_other.
Qed.

(** In a snapshot of a well-formed store, the alert of an id stored as
    inactive is inactive. *)
Lemma snapshot_inactive st id d a :
  wf_storage st → stored st id = Some d → isActive d = false →
  In a (getAllAlerts st) → alertId a = id → isActive a = false.
Proof.
  intros Hwf Hst Hd Hin Hid.
  destruct (getAllAlerts_stored st a Hwf Hin) as (d' & Hst' & ->).
  rewrite Hid, Hst in Hst'. by simplify_eq.
Qed.

Lemma processAllAlerts_wf env now svc :
  wf_storage (storageManager svc) →
  wf_storage (storageManager (processAllAlerts env now svc)).
Proof. intros Hwf. by apply fold_processAlert_wf. Qed.

Lemma processAllAlerts_keeps_inactive env now svc id d :
  wf_storage (storageManager svc) →
  stored (storageManager svc) id = Some d → isActive d = false →
  stored (storageManager (processAllAlerts env now svc)) id = Some d.
Proof.
  intros Hwf Hst Hd. unfold processAllAlerts.
  rewrite fold_processAlert_stored_other; [done|].
  apply Forall_forall. intros a Hin%list_elem_of_In%List.filter_In Hid.
  destruct Hin as [Hin Hact].
  by rewrite (snapshot_inactive _ _ _ _ Hwf Hst Hd Hin Hid) in Hact.
Qed.

Lemma expireOldAlerts_keeps_inactive env now svc id d :
  wf_storage (storageManager svc) →
  stored (storageManager svc) id = Some d → isActive d = false →
  stored (storageManager (expireOldAlerts env now svc)) id = Some d.
Proof.
  intros Hwf Hst Hd. unfold expireOldAlerts.
  assert (Hsnap : Forall (λ a, alertId a = id → isActive a = false)
                    (getAllAlerts (storageManager svc))).
  { apply Forall_forall. intros a Hin%list_elem_of_In Hid.
    by apply (snapshot_inactive _ _ _ _ Hwf Hst Hd Hin Hid). }
  revert Hsnap Hst. generalize (getAllAlerts (storageManager svc)) as l.
  clear Hwf. revert svc.
  intros svc l. revert svc. induction l as [|a l IH]; intros svc Hsnap Hst;
    simpl; [done|].
  inversion_clear Hsnap as [|? ? Ha Hl]. apply IH; [done|].
  destruct (isActive a) eqn:Hact; simpl; [|done].
  case_match; [|done]. simpl.
  rewrite stored_saveAlert_ne; [done|].
  rewrite expire_alertId. intros Hid. by specialize (Ha Hid).
Qed.

(** Once an alert is stored as resolved (or auto-closed, or expired), a
    scheduled pass leaves its record as it is. *)
Lemma backgroundJob_keeps_inactive env now svc id d :
  wf_storage (storageManager svc) →
  stored (storageManager svc) id = Some d → isActive d = false →
  stored (storageManager (backgroundJob env now svc)) id = Some d.
Proof.
  intros Hwf Hst Hd. unfold backgroundJob.
  apply expireOldAlerts_keeps_inactive; [by apply processAllAlerts_wf| |done].
  by apply processAllAlerts_keeps_inactive.
Qed.

(** So does the creation of another alert, with its immediate evaluation. *)
Lemma createAlert_keeps_others env now uuid svc data id :
  uuid ≠ id →
  stored (storageManager (fst (createAlert env now uuid svc data))) id
  = stored (storageManager svc) id.
Proof.
  intros Hne. unfold createAlert.
  rewrite processAlert_stored_other by done. simpl.
  by apply stored_saveAlert_ne.
Qed.

(** ** A second pass at the same instant *)

Lemma quieter_refl a : quieter a a.
Proof. by repeat split. Qed.

Lemma quieter_load a' a : quieter a' a → quieter (Alert_load a') (Alert_load a).
Proof. by intros (? & ? & ? & ?). Qed.

Lemma quieter_escalate now a sev reason :
  isActive a = true → quieter (escalate now a sev reason) a.
Proof. by repeat split. Qed.

Lemma quieter_autoClose now a reason : quieter (autoClose now a reason) a.
Proof. by repeat split. Qed.

Lemma quieter_expire env now a : quieter (expire env now a) a.
Proof. by repeat split. Qed.

Lemma quieter_match subject windowStart a' a :
  quieter a' a →
  recentAlertMatch subject windowStart a' = true →
  recentAlertMatch subject windowStart a = true.
Proof.
  intros (Hs & Ht & Hm & Hact). unfold recentAlertMatch.
  rewrite Hs, Ht, Hm, !andb_true_iff. intros [[[? ?] ?] ?].
  repeat split; try done. by apply Hact.
Qed.

Lemma quieter_recentAlerts now subject mins all' all :
  Forall2 quieter all' all →
  (length (recentAlerts now subject mins all')
   ≤ length (recentAlerts now subject mins all))%nat.
Proof.
  unfold recentAlerts. induction 1 as [|a' a all' all Hq _ IH]; simpl; [lia|].
  destruct (recentAlertMatch subject _ a') eqn:Hm.
  - rewrite (quieter_match _ _ _ _ Hq Hm). simpl. lia.
  - destruct (recentAlertMatch subject _ a); simpl; lia.
Qed.

Lemma quieter_countEscalation now a rule all' all :
  Forall2 quieter all' all →
  countEscalation now a rule all = None →
  countEscalation now a rule all' = None.
Proof.
  intros Hq. unfold countEscalation.
  destruct (truthy_num (escalate_if_count rule) && truthy_num (window_mins rule));
    [|done].
  pose proof (quieter_recentAlerts now a (default 0 (window_mins rule)) _ _ Hq).
  destruct (Z.geb_spec (Z.of_nat (length (recentAlerts now a
              (default 0 (window_mins rule)) all)))
              (default 0 (escalate_if_count rule))); [done|].
  intros _.
  destruct (Z.geb_spec (Z.of_nat (length (recentAlerts now a
              (default 0 (window_mins rule)) all')))
              (default 0 (escalate_if_count rule))); [lia|done].
Qed.

(** An alert that evaluates to no action still does after other alerts
    have left the active set. *)
Lemma quieter_evaluateAlert env now rs a all' all :
  Forall2 quieter all' all →
  evaluateAlert env now rs a all = None →
  evaluateAlert env now rs a all' = None.
Proof.
  intros Hq. unfold evaluateAlert, checkEscalationRules.
  destruct (rs !! sourceType a) as [rule|]; [|done].
  destruct (negb (canEscalate env now a)); [done|].
  destruct (countEscalation now a rule all) eqn:Hc; [done|].
  by rewrite (quieter_countEscalation _ _ _ _ _ Hq Hc).
Qed.

Lemma quieter_settled env now rs all' all d :
  Forall2 quieter all' all →
  settled env now rs all d → settled env now rs all' d.
Proof.
  intros Hq [H|[H|H]]; [by left | by right; left |].
  right; right. by apply (quieter_evaluateAlert _ _ _ _ _ _ Hq).
Qed.

(** Replacing the record of a present key by a quieter one gives a
    pointwise quieter snapshot. *)
Lemma kv_set_quieter k (v : Alert) m :
  (∀ v0, kv_get k m = Some v0 → quieter v v0) →
  is_Some (kv_get k m) →
  Forall2 quieter (List.map (λ kv, Alert_load (snd kv)) (kv_set k v m))
                  (List.map (λ kv, Alert_load (snd kv)) m).
Proof.
  induction m as [|[k0 v0] m IH]; simpl.
  - by intros _ [? ?].
  - destruct (String.eqb_spec k k0) as [<-|Hk]; simpl.
    + intros Hq _. constructor.
      * apply quieter_load. by apply Hq.
      * apply Forall2_same_length_lookup_2; [done|].
        intros i x y Hx Hy. simplify_eq. apply quieter_refl.
    + intros Hq Hsome. constructor; [apply quieter_refl | by apply IH].
Qed.

Lemma saveAlert_quieter st a' d :
  wf_storage st → stored st (alertId a') = Some d → quieter a' d →
  Forall2 quieter (getAllAlerts (saveAlert st a')) (getAllAlerts st).
Proof.
  intros Hwf Hst Hq.
  rewrite !getAllAlerts_backend by (done || by apply saveAlert_wf).
  rewrite saveAlert_backend. apply kv_set_quieter.
  - intros v0 Hv0. unfold stored in Hst. by simplify_eq.
  - by exists d.
Qed.

Lemma quieter_executeAction now d act :
  isActive d = true → quieter (executeAction now (Alert_load d) act) d.
Proof. intros Hact. destruct act; by repeat split. Qed.

Lemma settled_executeAction env now rs all a act :
  settled env now rs all (executeAction now a act).
Proof. destruct act; [by right; left | by left]. Qed.

(** A stored record sits under its own id and shows up in the snapshot. *)
Lemma stored_In_getAllAlerts st id d :
  wf_storage st → stored st id = Some d →
  alertId d = id ∧ In (Alert_load d) (getAllAlerts st).
Proof.
  intros Hwf Hst. pose proof Hwf as [Hnd Hkeys]. unfold stored in Hst.
  apply kv_get_In in Hst as Hin. rewrite Forall_forall in Hkeys.
  specialize (Hkeys _ (proj2 (list_elem_of_In _ _) Hin)). simpl in Hkeys.
  split; [symmetry; by apply (keyFor_inj st)|].
  rewrite getAllAlerts_backend by done.
  by apply (in_map (λ kv, Alert_load (snd kv)) _ (keyFor st id, d)).
Qed.

(** The ids of a snapshot are pairwise distinct. *)
Lemma getAllAlerts_ids_NoDup st :
  wf_storage st → NoDup (List.map alertId (getAllAlerts st)).
Proof.
  intros Hwf. rewrite getAllAlerts_backend by done. destruct Hwf as [Hnd Hkeys].
  rewrite List.map_map. simpl.
  apply (NoDup_fmap_1 (keyFor st)).
  replace (keyFor st <$> List.map (λ kv, alertId (snd kv)) (backend st))
    with (List.map fst (backend st)); [done|].
  change (keyFor st <$> ?l) with (List.map (keyFor st) l).
  rewrite List.map_map. apply List.map_ext_in.
  intros kv Hin. rewrite Forall_forall in Hkeys.
  by apply Hkeys, list_elem_of_In.
Qed.

Lemma filter_ids_NoDup (p : Alert → bool) l :
  NoDup (List.map alertId l) → NoDup (List.map alertId (List.filter p l)).
Proof.
  induction l as [|a l IH]; simpl; [done|].
  intros [Hnot Hnd]%NoDup_cons. destruct (p a); simpl; [|by apply IH].
  apply NoDup_cons. split; [|by apply IH].
  intros Hin%list_elem_of_In%in_map_iff. apply Hnot, list_elem_of_In, in_map_iff.
  destruct Hin as (b & Hb & Hin%List.filter_In). exists b. tauto.
Qed.

Lemma processAlert_rules env now svc a :
  rules (fst (processAlert env now svc a)) = rules svc.
Proof.
  rewrite processAlert_service. case_bool_decide; [done|].
  by destruct (evaluateAlert _ _ _ _ _).
Qed.

Lemma processAlert_queue env now svc a :
  processingQueue (fst (processAlert env now svc a)) = processingQueue svc.
Proof.
  rewrite processAlert_service. case_bool_decide; [done|].
  by destruct (evaluateAlert _ _ _ _ _).
Qed.

(** The re-evaluation sweep, alert by alert: once the alerts still to be
    processed are done, every stored record is settled. *)
Lemma fold_processAlert_settled env now rs rest svc :
  rules svc = rs → processingQueue svc = ∅ →
  wf_storage (storageManager svc) →
  NoDup (List.map alertId rest) →
  (∀ a, In a rest →
     isActive a = true
     ∧ ∃ d, stored (storageManager svc) (alertId a) = Some d ∧ a = Alert_load d) →
  (∀ id d, stored (storageManager svc) id = Some d →
     ¬ In id (List.map alertId rest) →
     settled env now rs (getAllAlerts (storageManager svc)) d) →
  ∀ id d,
    stored (storageManager
      (fold_left (λ s alert, fst (processAlert env now s alert)) rest svc)) id
    = Some d →
    settled env now rs
      (getAllAlerts (storageManager
         (fold_left (λ s alert, fst (processAlert env now s alert)) rest svc))) d.
Proof.
  revert svc. induction rest as [|a rest IH];
    intros svc Hrs Hq Hwf Hnd Hpend Hdone; simpl.
  { intros id d Hst. apply (Hdone id d Hst). by intros []. }
  apply NoDup_cons in Hnd as [Hnot Hnd].
  destruct (Hpend a (or_introl eq_refl)) as (Hact & da & Hda & ->).
  simpl in Hnot, Hda.
  assert (Hquiet : Forall2 quieter
            (getAllAlerts (storageManager (fst (processAlert env now svc (Alert_load da)))))
            (getAllAlerts (storageManager svc))).
  { rewrite processAlert_service. case_bool_decide.
    { apply Forall2_same_length_lookup_2; [done|].
      intros i x y Hx Hy. simplify_eq. apply quieter_refl. }
    destruct (evaluateAlert _ _ _ _ _) as [act|]; simpl.
    - apply (saveAlert_quieter _ _ da); [done| |].
      + by rewrite executeAction_alertId.
      + by apply quieter_executeAction.
    - apply Forall2_same_length_lookup_2; [done|].
      intros i x y Hx Hy. simplify_eq. apply quieter_refl. }
  apply IH.
  - by rewrite processAlert_rules.
  - by rewrite processAlert_queue.
  - by apply processAlert_wf.
  - done.
  - intros b Hb. destruct (Hpend b (or_intror Hb)) as (Hbact & db & Hdb & ->).
    split; [done|]. exists db. split; [|done].
    rewrite processAlert_stored_other; [done|].
    simpl. intros E. apply Hnot, list_elem_of_In, in_map_iff.
    exists (Alert_load db). by split.
  - intros id d Hst Hnin.
    destruct (decide (alertId da = id)) as [<-|Hne].
    + revert Hst. rewrite processAlert_service, Hq.
      rewrite bool_decide_eq_false_2 by set_solver.
      rewrite Hrs. simpl.
      destruct (evaluateAlert env now rs (Alert_load da)
                  (getAllAlerts (storageManager svc))) as [act|] eqn:Hev; simpl.
      * rewrite <- (executeAction_alertId now (Alert_load da) act) at 1.
        rewrite stored_saveAlert_eq. intros [= <-].
        apply settled_executeAction.
      * rewrite Hda. intros [= <-]. right; right. exact Hev.
    + rewrite processAlert_stored_other in Hst by done.
      apply (quieter_settled _ _ _ _ _ _ Hquiet). apply (Hdone id d Hst).
      simpl. intros [E|Hin]; [done|]. by apply Hnin.
Qed.

Lemma fold_processAlert_rules_queue env now l svc :
  rules (fold_left (λ s alert, fst (processAlert env now s alert)) l svc) = rules svc
  ∧ processingQueue (fold_left (λ s alert, fst (processAlert env now s alert)) l svc)
    = processingQueue svc.
Proof.
  revert svc. induction l as [|a l IH]; intros svc; simpl; [done|].
  destruct (IH (fst (processAlert env now svc a))) as [-> ->].
  by rewrite processAlert_rules, processAlert_queue.
Qed.

(** Every record is settled after the re-evaluation sweep. *)
Lemma processAllAlerts_settled env now svc id d :
  processingQueue svc = ∅ →
  wf_storage (storageManager svc) →
  stored (storageManager (processAllAlerts env now svc)) id = Some d →
  settled env now (rules svc)
    (getAllAlerts (storageManager (processAllAlerts env now svc))) d.
Proof.
  intros Hq Hwf. unfold processAllAlerts.
  apply fold_processAlert_settled; try done.
  - by apply filter_ids_NoDup, getAllAlerts_ids_NoDup.
  - intros a [Hin Hact]%List.filter_In. split; [done|].
    by apply getAllAlerts_stored.
  - intros id' d' Hst Hnin. left.
    destruct (stored_In_getAllAlerts _ _ _ Hwf Hst) as [Hid Hin].
    destruct (isActive d') eqn:Hact; [|done]. exfalso. apply Hnin.
    apply in_map_iff. exists (Alert_load d'). split; [done|].
    by apply List.filter_In.
Qed.

Lemma expireOldAlerts_fold env now svc :
  expireOldAlerts env now svc
  = fold_left (expireStep env now) (getAllAlerts (storageManager svc)) svc.
Proof. done. Qed.

Lemma expireStep_wf env now svc a :
  wf_storage (storageManager svc) →
  wf_storage (storageManager (expireStep env now svc a)).
Proof.
  intros Hwf. unfold expireStep. destruct (expiryDue env now a); [|done].
  by apply saveAlert_wf.
Qed.

Lemma expireStep_stored_other env now svc a id :
  alertId a ≠ id →
  stored (storageManager (expireStep env now svc a)) id
  = stored (storageManager svc) id.
Proof.
  intros Hne. unfold expireStep. destruct (expiryDue env now a); [|done].
  simpl. by apply stored_saveAlert_ne.
Qed.

Lemma fold_expireStep_rules_queue env now l svc :
  rules (fold_left (expireStep env now) l svc) = rules svc
  ∧ processingQueue (fold_left (expireStep env now) l svc) = processingQueue svc.
Proof.
  revert svc. induction l as [|a l IH]; intros svc; simpl; [done|].
  destruct (IH (expireStep env now svc a)) as [-> ->].
  unfold expireStep. by destruct (expiryDue env now a).
Qed.

Lemma fold_expireStep_wf env now l svc :
  wf_storage (storageManager svc) →
  wf_storage (storageManager (fold_left (expireStep env now) l svc)).
Proof.
  revert svc. induction l as [|a l IH]; intros svc Hwf; simpl; [done|].
  by apply IH, expireStep_wf.
Qed.

Lemma fold_expireStep_settled env now rs rest svc :
  wf_storage (storageManager svc) →
  NoDup (List.map alertId rest) →
  (∀ a, In a rest →
     ∃ d, stored (storageManager svc) (alertId a) = Some d ∧ a = Alert_load d) →
  (∀ id d, stored (storageManager svc) id = Some d →
     settled env now rs (getAllAlerts (storageManager svc)) d) →
  (∀ id d, stored (storageManager svc) id = Some d →
     ¬ In id (List.map alertId rest) → expiryDue env now (Alert_load d) = false) →
  ∀ id d,
    stored (storageManager (fold_left (expireStep env now) rest svc)) id = Some d →
    settled env now rs
      (getAllAlerts (storageManager (fold_left (expireStep env now) rest svc))) d
    ∧ expiryDue env now (Alert_load d) = false.
Proof.
  revert svc. induction rest as [|a rest IH];
    intros svc Hwf Hnd Hpend Hset Hdone; simpl.
  { intros id d Hst. split; [by apply (Hset id)|].
    apply (Hdone id d Hst). by intros []. }
  apply NoDup_cons in Hnd as [Hnot Hnd].
  destruct (Hpend a (or_introl eq_refl)) as (da & Hda & ->).
  simpl in Hnot, Hda.
  assert (Hquiet : Forall2 quieter
            (getAllAlerts (storageManager (expireStep env now svc (Alert_load da))))
            (getAllAlerts (storageManager svc))).
  { unfold expireStep. destruct (expiryDue env now (Alert_load da)); simpl.
    - apply (saveAlert_quieter _ _ da); [done|done|by repeat split].
    - apply Forall2_same_length_lookup_2; [done|].
      intros i x y Hx Hy. simplify_eq. apply quieter_refl. }
  apply IH.
  - by apply expireStep_wf.
  - done.
  - intros b Hb. destruct (Hpend b (or_intror Hb)) as (db & Hdb & ->).
    exists db. split; [|done].
    rewrite expireStep_stored_other; [done|].
    simpl. intros E. apply Hnot, list_elem_of_In, in_map_iff.
    exists (Alert_load db). by split.
  - intros id d Hst.
    destruct (decide (alertId da = id)) as [<-|Hne].
    + revert Hst. unfold expireStep.
      destruct (expiryDue env now (Alert_load da)); simpl.
      * rewrite (stored_saveAlert_eq _ (expire env now (Alert_load da))).
        intros [= <-]. by left.
      * intros Hst. by apply (Hset (alertId da)).
    + rewrite expireStep_stored_other in Hst by done.
      apply (quieter_settled _ _ _ _ _ _ Hquiet). by apply (Hset id).
  - intros id d Hst Hnin.
    destruct (decide (alertId da = id)) as [<-|Hne].
    + revert Hst. unfold expireStep.
      destruct (expiryDue env now (Alert_load da)) eqn:Hdue; simpl.
      * rewrite (stored_saveAlert_eq _ (expire env now (Alert_load da))).
        by intros [= <-].
      * rewrite Hda. by intros [= <-].
    + rewrite expireStep_stored_other in Hst by done.
      apply (Hdone id d Hst). simpl. intros [E|Hin]; [done|]. by apply Hnin.
Qed.

(** After the expiry sweep every record is settled and none is due. *)
Lemma expireOldAlerts_settled env now rs svc :
  wf_storage (storageManager svc) →
  (∀ id d, stored (storageManager svc) id = Some d →
     settled env now rs (getAllAlerts (storageManager svc)) d) →
  ∀ id d,
    stored (storageManager (expireOldAlerts env now svc)) id = Some d →
    settled env now rs
      (getAllAlerts (storageManager (expireOldAlerts env now svc))) d
    ∧ expiryDue env now (Alert_load d) = false.
Proof.
  intros Hwf Hset. rewrite expireOldAlerts_fold.
  apply fold_expireStep_settled; try done.
  - by apply getAllAlerts_ids_NoDup.
  - intros a Hin. by apply getAllAlerts_stored.
  - intros id d Hst Hnin. exfalso. apply Hnin.
    destruct (stored_In_getAllAlerts _ _ _ Hwf Hst) as [Hid Hin].
    apply in_map_iff. exists (Alert_load d). by split.
Qed.

(** A sweep with nothing to do returns the service it was given. *)
Lemma processAllAlerts_quiet env now svc :
  (∀ a, In a (getAllAlerts (storageManager svc)) → isActive a = true →
     evaluateAlert env now (rules svc) a (getAllAlerts (storageManager svc)) = None) →
  processAllAlerts env now svc = svc.
Proof.
  intros Hev. unfold processAllAlerts.
  assert (Hl : ∀ a, In a (List.filter isActive (getAllAlerts (storageManager svc))) →
            fst (processAlert env now svc a) = svc).
  { intros a [Hin Hact]%List.filter_In. rewrite processAlert_service.
    case_bool_decide; [done|]. by rewrite Hev. }
  revert Hl. generalize (List.filter isActive (getAllAlerts (storageManager svc))).
  intros l. induction l as [|a l IH]; intros Hl; simpl; [done|].
  rewrite (Hl a (or_introl eq_refl)). apply IH. intros b Hb. apply Hl. by right.
Qed.

Lemma expireOldAlerts_quiet env now svc :
  (∀ a, In a (getAllAlerts (storageManager svc)) → expiryDue env now a = false) →
  expireOldAlerts env now svc = svc.
Proof.
  rewrite expireOldAlerts_fold. generalize (getAllAlerts (storageManager svc)).
  intros l. induction l as [|a l IH]; intros Hl; simpl; [done|].
  unfold expireStep at 2. rewrite (Hl a (or_introl eq_refl)).
  apply IH. intros b Hb. apply Hl. by right.
Qed.

(** An alert escalated at [now] does not pass the gate at [now]. *)
Lemma canEscalate_just_escalated env now a :
  0 ≤ env_or (ESCALATION_COOLDOWN_MINUTES env) 60 →
  lastEscalatedAt a = Some now → canEscalate env now a = false.
Proof.
  intros Hc Hl. apply canEscalate_false_iff. exists now. split; [done|]. lia.
Qed.

(** What the second pass does and does not do.  On a store built through
    the service, with no evaluation in flight and a cooldown that is not
    negative: if, after a scheduled pass, no active alert satisfies the
    auto-close condition of its rule, a second pass at the same instant
    returns the service unchanged.  The only thing a second pass can add is
    the auto-closing of alerts that are active after the first. *)
Theorem backgroundJob_twice env now svc :
  wf_storage (storageManager svc) →
  processingQueue svc = ∅ →
  0 ≤ env_or (ESCALATION_COOLDOWN_MINUTES env) 60 →
  (∀ a rule,
     In a (getAllAlerts (storageManager (backgroundJob env now svc))) →
     isActive a = true → rules svc !! sourceType a = Some rule →
     checkAutoCloseRules a rule = None) →
  backgroundJob env now (backgroundJob env now svc) = backgroundJob env now svc.
Proof.
  intros Hwf Hq Hcool Hclose.
  set (P := processAllAlerts env now svc).
  set (S1 := backgroundJob env now svc) in *.
  assert (HwfP : wf_storage (storageManager P)) by by apply processAllAlerts_wf.
  assert (HrulesP : rules P = rules svc)
    by apply (fold_processAlert_rules_queue env now _ svc).
  assert (HwfS : wf_storage (storageManager S1)).
  { unfold S1, backgroundJob. rewrite expireOldAlerts_fold.
    by apply fold_expireStep_wf. }
  assert (HrulesS : rules S1 = rules svc).
  { unfold S1, backgroundJob. rewrite expireOldAlerts_fold.
    by rewrite (proj1 (fold_expireStep_rules_queue env now _ _)). }
  assert (Hsettled : ∀ id d, stored (storageManager S1) id = Some d →
            settled env now (rules svc) (getAllAlerts (storageManager S1)) d
            ∧ expiryDue env now (Alert_load d) = false).
  { apply expireOldAlerts_settled; [done|].
    intros id d Hst. by apply (processAllAlerts_settled env now svc id d). }
  assert (Hp : processAllAlerts env now S1 = S1).
  { apply processAllAlerts_quiet. intros a Hin Hact.
    destruct (getAllAlerts_stored _ _ HwfS Hin) as (d & Hst & ->).
    destruct (Hsettled _ _ Hst) as [[Hd|[Hd|Hd]] _].
    - by rewrite Alert_load_isActive, Hd in Hact.
    - rewrite HrulesS. unfold evaluateAlert.
      destruct (rules svc !! sourceType (Alert_load d)) as [rule|] eqn:Hrule;
        [|done].
      rewrite checkEscalationRules_gate
        by (by apply canEscalate_just_escalated).
      by rewrite (Hclose _ rule Hin Hact Hrule).
    - by rewrite HrulesS. }
  unfold backgroundJob at 1. fold S1. rewrite Hp.
  apply expireOldAlerts_quiet. intros a Hin.
  destruct (getAllAlerts_stored _ _ HwfS Hin) as (d & Hst & ->).
  by destruct (Hsettled _ _ Hst).
Qed.

(** The stores the service builds are well formed. *)
Lemma emptyStorage_wf connected : wf_storage (emptyStorage connected).
Proof.
  unfold wf_storage, backend. destruct connected; simpl; split; constructor.
Qed.

Lemma createAlert_wf env now uuid svc data :
  wf_storage (storageManager svc) →
  wf_storage (storageManager (fst (createAlert env now uuid svc data))).
Proof. intros Hwf. unfold createAlert. by apply processAlert_wf, saveAlert_wf. Qed.

Lemma resolveAlert_wf now svc id res :
  wf_storage (storageManager svc) →
  wf_storage (storageManager (fst (resolveAlert now svc id res))).
Proof.
  intros Hwf. unfold resolveAlert.
  destruct (getAlert (storageManager svc) id); [|done]. by apply saveAlert_wf.
Qed.

Lemma backgroundJob_wf env now svc :
  wf_storage (storageManager svc) →
  wf_storage (storageManager (backgroundJob env now svc)).
Proof.
  intros Hwf. unfold backgroundJob. rewrite expireOldAlerts_fold.
  by apply fold_expireStep_wf, processAllAlerts_wf.
Qed.

(** The four overspeed alerts of driver DRV001: the pass that follows
    escalates the first two as well, and the pass after it changes
    nothing. *)
Example overspeed_second_pass :
  let now := Scenario.t0 + 2 * Scenario.minute in
  Scenario.historyLengths (backgroundJob Scenario.env0 now (fst Scenario.run4))
    = [("a-0001", ESCALATED, 2%nat); ("a-0002", ESCALATED, 2%nat);
       ("a-0003", ESCALATED, 2%nat); ("a-0004", ESCALATED, 2%nat)]
  ∧ backgroundJob Scenario.env0 now
      (backgroundJob Scenario.env0 now (fst Scenario.run4))
    = backgroundJob Scenario.env0 now (fst Scenario.run4).
Proof.
  intros now. split; [vm_compute; reflexivity|].
  apply backgroundJob_twice.
  - do 4 apply createAlert_wf. apply emptyStorage_wf.
  - vm_compute. reflexivity.
  - vm_compute. discriminate.
  - intros a rule Hin _.
    assert (Hmd : metadata a !! "speed_normalized" = None
                  ∧ sourceType a = "overspeed").
    { revert Hin. vm_compute.
      intros [<-|[<-|[<-|[<-|[]]]]]; split; reflexivity. }
    destruct Hmd as [Hmd Hsrc]. rewrite Hsrc.
    change (rules (fst Scenario.run4) !! "overspeed")
      with (getDefaultRules !! "overspeed").
    intros Hrule. vm_compute in Hrule. simplify_eq.
    unfold checkAutoCloseRules. simpl. rewrite Hmd. reflexivity.
Qed.

(** * Further properties *)

(** ** The history as a log *)

Lemma eventsOf_snoc t h e :
  eventsOf t (h ++ [e]) = eventsOf t h ++ (if bool_decide (action e = t) then [e] else []).
Proof. unfold eventsOf. rewrite List.filter_app. simpl. by destruct (bool_decide _). Qed.

Lemma setWhenLogged_snoc field field' t h e now :
  setWhenLogged field t h →
  field' = (if bool_decide (action e = t) then Some now else field) →
  setWhenLogged field' t (h ++ [e]).
Proof.
  unfold setWhenLogged. intros Hf ->. rewrite eventsOf_snoc.
  destruct (bool_decide (action e = t)).
  - split; [intros _ E; by apply app_eq_nil in E as [_ ?] | by eexists].
  - by rewrite app_nil_r.
Qed.

Lemma chained_snoc prev h e :
  chained prev (h ++ [e]) ↔
  chained prev h
  ∧ previousStatus e = match last h with
                       | Some e' => Some (statusOfEvent (action e'))
                       | None => prev
                       end.
Proof.
  revert prev. induction h as [|e0 h IH]; intros prev; simpl.
  - tauto.
  - rewrite IH. destruct h as [|e1 h]; [simpl; tauto|].
    change (last (e0 :: e1 :: h)) with (last (e1 :: h)).
    destruct (last (e1 :: h)) eqn:E; [tauto|]. by apply last_None in E.
Qed.

Lemma head_snoc {A : Type} (l : list A) (x y : A) :
  head l = Some x → head (l ++ [y]) = Some x.
Proof. by destruct l. Qed.

(** Appending the event of a transition to an alert that agrees with its
    history, and setting the fields as the transition does, gives an alert
    that agrees with its history. *)
Lemma audit_ok_transition a a' t now det sev :
  audit_ok a → t ≠ EV_CREATED →
  history a' = history a ++
    [{| action := t; ev_timestamp := now; details := det;
        previousStatus := Some (status a); previousSeverity := sev |}] →
  status a' = statusOfEvent t →
  escalationCount a' = (if bool_decide (t = EV_ESCALATED)
                        then escalationCount a + 1 else escalationCount a) →
  lastEscalatedAt a' = (if bool_decide (t = EV_ESCALATED)
                        then Some now else lastEscalatedAt a) →
  resolvedAt a' = (if bool_decide (t = EV_RESOLVED) then Some now else resolvedAt a) →
  expiredAt a' = (if bool_decide (t = EV_EXPIRED) then Some now else expiredAt a) →
  audit_ok a'.
Proof.
  intros (Hhead & Hcreated & Hchain & Hlast & Hcount & Hesc & Hres & Hexp)
    Ht Hh Hst Hc He Hr Hx.
  unfold audit_ok. rewrite Hh, Hst, Hc.
  split; [|split; [|split; [|split; [|split; [|split; [|split]]]]]];
    try (eapply setWhenLogged_snoc; [eassumption|]; simpl; eassumption).
  - destruct (head (history a)) as [e0|] eqn:Hh0; [|done].
    by rewrite (head_snoc _ e0).
  - rewrite eventsOf_snoc. simpl.
    rewrite bool_decide_eq_false_2 by done. by rewrite app_nil_r.
  - apply chained_snoc. split; [done|]. simpl.
    destruct (last (history a)) as [e'|]; simpl in *; [|done].
    congruence.
  - by rewrite last_snoc.
  - rewrite eventsOf_snoc. simpl. rewrite length_app, Hcount.
    destruct (bool_decide (t = EV_ESCALATED)); simpl; lia.
Qed.

Lemma audit_ok_new uuid now data : audit_ok (Alert_new uuid now data).
Proof.
  unfold audit_ok, setWhenLogged. simpl.
  repeat split; try done; try (by intros [? [=]]); intros H; by destruct H.
Qed.

Lemma audit_ok_load a : audit_ok a → audit_ok (Alert_load a).
Proof. done. Qed.

Lemma audit_ok_escalate now a sev reason : audit_ok a → audit_ok (escalate now a sev reason).
Proof. intros Ha. by eapply (audit_ok_transition a _ EV_ESCALATED now). Qed.

Lemma audit_ok_autoClose now a reason : audit_ok a → audit_ok (autoClose now a reason).
Proof. intros Ha. by eapply (audit_ok_transition a _ EV_AUTO_CLOSED now). Qed.

Lemma audit_ok_resolve now a res : audit_ok a → audit_ok (resolve now a res).
Proof. intros Ha. by eapply (audit_ok_transition a _ EV_RESOLVED now). Qed.

Lemma audit_ok_expire env now a : audit_ok a → audit_ok (expire env now a).
Proof. intros Ha. by eapply (audit_ok_transition a _ EV_EXPIRED now). Qed.

Lemma audit_ok_applyAlertOp env a step : audit_ok a → audit_ok (applyAlertOp env a step).
Proof.
  destruct step as [[sev reason|reason|res| |] now]; simpl;
    eauto using audit_ok_escalate, audit_ok_autoClose, audit_ok_resolve,
      audit_ok_expire, audit_ok_load.
Qed.

(** X1.  An alert built by the constructor and then taken through any
    sequence of escalations, auto-closes, resolutions, expiries and trips
    through the store agrees with its history: the history starts with the
    one creation event, every event records as previous status the status
    its predecessor led to, the status is the one the last event led to,
    [escalationCount] is the number of escalation events, and
    [lastEscalatedAt], [resolvedAt] and [expiredAt] are set exactly when
    the history holds an escalation, a resolution, an expiry event (the
    times themselves are not compared: a transition reads the clock for
    the field and again for the event). *)
Theorem X1_fields_agree_with_history env uuid now data steps :
  audit_ok (fold_left (applyAlertOp env) steps (Alert_new uuid now data)).
Proof.
  generalize (audit_ok_new uuid now data).
  generalize (Alert_new uuid now data) as a.
  induction steps as [|step steps IH]; intros a Ha; simpl; [done|].
  by apply IH, audit_ok_applyAlertOp.
Qed.

Lemma applyAlertOp_history env a op now :
  ∃ es, history (applyAlertOp env a (op, now)) = history a ++ es
        ∧ length es = (if isTransition op then 1 else 0)%nat.
Proof.
  destruct op; simpl; try (eexists [_]; by split).
  exists []. by rewrite app_nil_r.
Qed.

Lemma applyAlertOp_escalationCount env a op now :
  escalationCount (applyAlertOp env a (op, now)) =
    escalationCount a + (if isEscalate op then 1 else 0).
Proof. destruct op; simpl; lia. Qed.

(** X2.  Over any sequence of operations on an alert the history only
    grows: the old history is a prefix of the new one, which has one more
    event per transition performed, and [escalationCount] grows by exactly
    one per escalation. *)
Theorem X2_history_and_escalation_count_grow env a steps :
  history a `prefix_of` history (fold_left (applyAlertOp env) steps a)
  ∧ length (history (fold_left (applyAlertOp env) steps a)) =
      (length (history a) + length (List.filter (λ s, isTransition (fst s)) steps))%nat
  ∧ escalationCount (fold_left (applyAlertOp env) steps a) =
      escalationCount a
      + Z.of_nat (length (List.filter (λ s, isEscalate (fst s)) steps)).
Proof.
  revert a. induction steps as [|[op now] steps IH]; intros a.
  - simpl. repeat split; [done | lia | lia].
  - cbn [fold_left List.filter fst].
    destruct (IH (applyAlertOp env a (op, now))) as (Hp & Hl & Hc).
    destruct (applyAlertOp_history env a op now) as (es & He & Hes).
    rewrite Hl, Hc, applyAlertOp_escalationCount, He.
    repeat split.
    + etrans; [|exact Hp]. rewrite He. by apply prefix_app_r.
    + rewrite length_app, Hes. destruct (isTransition op); simpl; lia.
    + destruct (isEscalate op); simpl; lia.
Qed.

(** ** The trip through the store *)

(** X3.  Loading a stored alert a second time changes nothing more, and the
    first load gives back the alert as it was saved unless its resolution
    text is the empty string, which comes back as null. *)
Theorem X3_store_round_trip a :
  Alert_load (Alert_load a) = Alert_load a
  ∧ (Alert_load a = a ↔ resolution a ≠ Some "").
Proof.
  split; [apply Alert_load_idem|].
  destruct a as [id src sev ts st md h [r|] ra ea la n]; unfold Alert_load; simpl.
  - destruct (String.eqb_spec r "") as [->|Hr]; simpl.
    + split; [by intros [=]|done].
    + split; [congruence|done].
  - split; [done|done].
Qed.

(** ** Age *)

(** For a threshold of a whole number of days, the age test of the
    escalation rule, [getAge() >= days], holds exactly when the whole number
    of days that [toJSON] reports as [age] has reached [days]. *)
Lemma ageAtLeastDays_reported_age now a days :
  ageAtLeastDays now a days = (days <=? snd (toJSON now a)).
Proof.
  unfold toJSON, ageAtLeastDays, ageFloorDays. simpl.
  assert (Hm : 0 < msPerDay) by reflexivity.
  pose proof (Z.div_mod (ageMs now a) msPerDay ltac:(lia)) as Hdm.
  pose proof (Z.mod_pos_bound (ageMs now a) msPerDay Hm) as Hb.
  destruct (Z.geb_spec (ageMs now a) (days * msPerDay)),
           (Z.leb_spec days (ageMs now a / msPerDay)); try done; nia.
Qed.

(** ** Age-based escalation *)

Lemma ageEscalation_fires now alert rule days :
  escalate_if_days rule = Some days → days ≠ 0 →
  status alert = OPEN →
  days * msPerDay ≤ now - timestamp alert →
  ageEscalation now alert rule =
    Some (ActEscalate (escalate_to_severity rule)
            ("Alert aged " +:+ pretty (ageFloorDays now alert) +:+ " days")).
Proof.
  intros Hd Hd0 Hst Hage. unfold ageEscalation.
  rewrite Hd, Hst, truthy_num_Some by done. simpl.
  unfold ageAtLeastDays, ageMs.
  by destruct (Z.geb_spec (now - timestamp alert) (days * msPerDay)); [|lia].
Qed.

(** X5.  Under a rule with [escalate_if_days], an OPEN alert that passes
    the cooldown gate and is at least that many days old is escalated to
    the rule's severity whatever the snapshot holds; when the count block
    gives nothing (an empty snapshot, for one) the reason quotes the age in
    whole days. *)
Theorem X5_age_based_escalation env now rs alert rule allAlerts days :
  rs !! sourceType alert = Some rule →
  escalate_if_days rule = Some days → days ≠ 0 →
  status alert = OPEN →
  canEscalate env now alert = true →
  days * msPerDay ≤ now - timestamp alert →
  (∃ reason, evaluateAlert env now rs alert allAlerts
             = Some (ActEscalate (escalate_to_severity rule) reason))
  ∧ (countEscalation now alert rule allAlerts = None →
     evaluateAlert env now rs alert allAlerts =
       Some (ActEscalate (escalate_to_severity rule)
               ("Alert aged " +:+ pretty (ageFloorDays now alert) +:+ " days"))).
Proof.
  intros Hrule Hd Hd0 Hst Hgate Hage.
  pose proof (ageEscalation_fires now alert rule days Hd Hd0 Hst Hage) as Hfire.
  unfold evaluateAlert, checkEscalationRules. rewrite Hrule, Hgate. simpl.
  destruct (countEscalation now alert rule allAlerts) as [act|] eqn:Hc.
  - destruct (countEscalation_is_escalate _ _ _ _ _ Hc) as [reason ->].
    split; [eauto | done].
  - rewrite Hfire. split; [eauto | done].
Qed.

Lemma X5_compliance_alert_after_eight_days :
  getDefaultRules !! sourceType Scenario2.agedCompliance = Some
    {| escalate_if_count := None; window_mins := None;
       escalate_if_days := Some 7; escalate_to_severity := HIGH;
       auto_close_if := Some "document_valid" |}
  ∧ (7:Z) ≠ 0
  ∧ status Scenario2.agedCompliance = OPEN
  ∧ canEscalate Scenario.env0 Scenario2.eightDaysLater Scenario2.agedCompliance = true
  ∧ 7 * msPerDay ≤ Scenario2.eightDaysLater - timestamp Scenario2.agedCompliance
  ∧ evaluateAlert Scenario.env0 Scenario2.eightDaysLater getDefaultRules
      Scenario2.agedCompliance []
    = Some (ActEscalate HIGH "Alert aged 8 days").
Proof.
  assert (Hrule : getDefaultRules !! sourceType Scenario2.agedCompliance = Some
    {| escalate_if_count := None; window_mins := None;
       escalate_if_days := Some 7; escalate_to_severity := HIGH;
       auto_close_if := Some "document_valid" |}) by (vm_compute; reflexivity).
  assert (H7 : (7:Z) ≠ 0) by discriminate.
  assert (Hst : status Scenario2.agedCompliance = OPEN) by reflexivity.
  assert (Hgate : canEscalate Scenario.env0 Scenario2.eightDaysLater
                    Scenario2.agedCompliance = true) by reflexivity.
  assert (Hage : 7 * msPerDay
                 ≤ Scenario2.eightDaysLater - timestamp Scenario2.agedCompliance)
    by (vm_compute; discriminate).
  repeat (split; [assumption|]).
  exact (proj2 (X5_age_based_escalation Scenario.env0 Scenario2.eightDaysLater
                  getDefaultRules Scenario2.agedCompliance _ [] 7
                  Hrule eq_refl H7 Hst Hgate Hage) eq_refl).
Defined.

Lemma applyAlertOp_not_open env a step :
  status a ≠ OPEN → status (applyAlertOp env a step) ≠ OPEN.
Proof. by destruct step as [[| | | |] now]. Qed.

(** X6.  No operation leads back to OPEN: an alert that has left OPEN stays
    out of it through any sequence of operations, and for such an alert the
    age rule never fires, so under a rule without a count threshold it is
    never escalated again. *)
Theorem X6_no_way_back_to_open env now rs alert allAlerts steps :
  status alert ≠ OPEN →
  status (fold_left (applyAlertOp env) steps alert) ≠ OPEN
  ∧ (∀ rule, ageEscalation now (fold_left (applyAlertOp env) steps alert) rule = None)
  ∧ (∀ rule,
       rs !! sourceType (fold_left (applyAlertOp env) steps alert) = Some rule →
       truthy_num (escalate_if_count rule) && truthy_num (window_mins rule) = false →
       is_escalate (evaluateAlert env now rs
                      (fold_left (applyAlertOp env) steps alert) allAlerts) = false).
Proof.
  intros Hst.
  assert (Hfinal : status (fold_left (applyAlertOp env) steps alert) ≠ OPEN).
  { revert alert Hst. induction steps as [|step steps IH]; intros a Ha; simpl;
      [done|]. by apply IH, applyAlertOp_not_open. }
  assert (Hage : ∀ rule,
            ageEscalation now (fold_left (applyAlertOp env) steps alert) rule = None).
  { intros rule. unfold ageEscalation.
    rewrite (bool_decide_eq_false_2 _ Hfinal). by rewrite andb_false_r. }
  repeat split; [done|done|].
  intros rule Hrule Hskip. unfold evaluateAlert, checkEscalationRules.
  rewrite Hrule, (countEscalation_skipped _ _ _ _ Hskip), Hage.
  destruct (negb (canEscalate env now _));
    by destruct (checkAutoCloseRules _ rule) as [act|] eqn:Hc;
      [destruct (checkAutoCloseRules_is_auto_close _ _ _ Hc) as [? ->]|].
Qed.

Lemma X6_escalated_alert_resolved_and_reloaded :
  let steps := [(DoResolve None, Scenario.t0 + 1 * Scenario.minute);
                (DoReload, Scenario.t0 + 1 * Scenario.minute)] in
  status (snd Scenario.run3) ≠ OPEN
  ∧ status (fold_left (applyAlertOp Scenario.env0) steps (snd Scenario.run3)) ≠ OPEN.
Proof.
  intros steps.
  assert (Hst : status (snd Scenario.run3) ≠ OPEN) by (vm_compute; discriminate).
  split; [exact Hst|].
  exact (proj1 (X6_no_way_back_to_open Scenario.env0 Scenario.t0 getDefaultRules
                  (snd Scenario.run3) [] steps Hst)).
Defined.

(** ** The order of the snapshot *)

Lemma filter_length_Permutation {A : Type} (p : A → bool) (l l' : list A) :
  l ≡ₚ l' → length (List.filter p l) = length (List.filter p l').
Proof.
  induction 1 as [|x l l' _ IH|x y l|l l' l'' _ IH1 _ IH2]; simpl.
  - done.
  - destruct (p x); simpl; by rewrite IH.
  - by destruct (p x), (p y).
  - by rewrite IH1.
Qed.

(** X7.  The result of an evaluation does not depend on the order in which
    the snapshot lists the alerts. *)
Theorem X7_snapshot_order_is_irrelevant env now rs alert allAlerts allAlerts' :
  allAlerts ≡ₚ allAlerts' →
  evaluateAlert env now rs alert allAlerts = evaluateAlert env now rs alert allAlerts'.
Proof.
  intros Hperm. unfold evaluateAlert, checkEscalationRules, countEscalation, recentAlerts.
  destruct (rs !! sourceType alert) as [rule|]; [|done].
  by rewrite (filter_length_Permutation _ _ _ Hperm).
Qed.

Lemma X7_two_feedback_alerts_either_way :
  [Scenario.anon1; Scenario.anon2] ≡ₚ [Scenario.anon2; Scenario.anon1]
  ∧ evaluateAlert Scenario.env0 (Scenario.t0 + 5 * Scenario.minute) getDefaultRules
      Scenario.anon2 [Scenario.anon1; Scenario.anon2]
    = evaluateAlert Scenario.env0 (Scenario.t0 + 5 * Scenario.minute) getDefaultRules
        Scenario.anon2 [Scenario.anon2; Scenario.anon1].
Proof.
  assert (Hperm : [Scenario.anon1; Scenario.anon2] ≡ₚ [Scenario.anon2; Scenario.anon1])
    by apply perm_swap.
  split; [exact Hperm|].
  exact (X7_snapshot_order_is_irrelevant Scenario.env0
           (Scenario.t0 + 5 * Scenario.minute) getDefaultRules Scenario.anon2
           _ _ Hperm).
Defined.

(** ** Rule updates *)

(** X8.  After [updateRules(newRules)] an alert whose source type is among
    the new rules is evaluated under the new rule alone (the old rule of
    that type is replaced whole, none of its fields survives), and an alert
    of any other source type is evaluated as before; updating twice with
    the same rules is updating once, and updating with no rule changes
    nothing. *)
Theorem X8_updateRules_replaces_whole_rules env now rs newRules alert allAlerts :
  evaluateAlert env now (updateRules rs newRules) alert allAlerts =
    match newRules !! sourceType alert with
    | Some rule =>
        evaluateAlert env now {[sourceType alert := rule]} alert allAlerts
    | None => evaluateAlert env now rs alert allAlerts
    end
  ∧ updateRules (updateRules rs newRules) newRules = updateRules rs newRules
  ∧ updateRules rs ∅ = rs.
Proof.
  unfold updateRules. repeat split.
  - unfold evaluateAlert.
    destruct (newRules !! sourceType alert) as [rule|] eqn:Hn.
    + by rewrite (lookup_union_Some_l _ _ _ _ Hn), lookup_singleton_eq.
    + by rewrite (lookup_union_r _ _ _ Hn).
  - by rewrite (assoc_L (∪)), (idemp_L (∪)).
  - by rewrite (left_id_L ∅ (∪)).
Qed.

(** ** Storage: save, get, delete, list *)

Section KeyedStoreDelete.
Context {V : Type}.
Implicit Types (m : list (string * V)) (k : string) (v : V).

Lemma kv_delete_In k m kv : In kv (kv_delete k m) → In kv m.
Proof.
  induction m as [|[k0 v0] m IH]; simpl; [done|].
  destruct (String.eqb k k0); simpl; [by right|].
  intros [<-|Hin]; [by left | right; by apply IH].
Qed.

Lemma kv_delete_keys_NoDup k m :
  NoDup (List.map fst m) → NoDup (List.map fst (kv_delete k m)).
Proof.
  induction m as [|[k0 v0] m IH]; simpl; [done|].
  intros [Hnot Hnd]%NoDup_cons.
  destruct (String.eqb k k0); simpl; [done|].
  apply NoDup_cons. split; [|by apply IH].
  intros Hin%list_elem_of_In%in_map_iff. apply Hnot, list_elem_of_In, in_map_iff.
  destruct Hin as (kv & Hkv & Hin). exists kv. split; [done|].
  by apply (kv_delete_In k).
Qed.

Lemma kv_get_delete_eq k m :
  NoDup (List.map fst m) → kv_get k (kv_delete k m) = None.
Proof.
  induction m as [|[k0 v0] m IH]; simpl; [done|].
  intros [Hnot Hnd]%NoDup_cons.
  destruct (String.eqb_spec k k0) as [<-|Hk]; simpl.
  - destruct (kv_get k m) as [v|] eqn:Hget; [|done].
    exfalso. apply Hnot, list_elem_of_In.
    apply (in_map fst _ (k, v)). by apply kv_get_In.
  - rewrite (proj2 (String.eqb_neq k k0)) by done. by apply IH.
Qed.
End KeyedStoreDelete.

Lemma getAlert_stored st id : getAlert st id = Alert_load <$> stored st id.
Proof.
  unfold getAlert, stored, keyFor, backend.
  destruct (isConnected st); by destruct (kv_get _ _).
Qed.

Lemma deleteAlert_backend st id :
  backend (deleteAlert st id) = kv_delete (keyFor st id) (backend st).
Proof. unfold backend, keyFor, deleteAlert. by destruct (isConnected st). Qed.

Lemma keyFor_deleteAlert st id id' : keyFor (deleteAlert st id) id' = keyFor st id'.
Proof. unfold keyFor, deleteAlert. by destruct (isConnected st). Qed.

Lemma getAlert_saveAlert st a id :
  getAlert (saveAlert st a) id =
    if decide (id = alertId a) then Some (Alert_load a) else getAlert st id.
Proof.
  rewrite !getAlert_stored. destruct (decide (id = alertId a)) as [->|Hne].
  - by rewrite stored_saveAlert_eq.
  - by rewrite stored_saveAlert_ne.
Qed.

(** X9.  After [saveAlert(alert)], [getAlert] of the alert's id returns the
    alert as the constructor loads it, and [getAlert] of any other id
    returns what it returned before. *)
Theorem X9_get_after_save st a id :
  getAlert (saveAlert st a) id =
    if decide (id = alertId a) then Some (Alert_load a) else getAlert st id.
Proof. apply getAlert_saveAlert. Qed.

(** X10.  On a store filled through [saveAlert], [deleteAlert(id)] makes
    [getAlert(id)] return null, leaves every other id as it was, and leaves
    the store well formed. *)
Theorem X10_get_after_delete st id id' :
  wf_storage st →
  getAlert (deleteAlert st id) id' =
    (if decide (id' = id) then None else getAlert st id')
  ∧ wf_storage (deleteAlert st id).
Proof.
  intros [Hnd Hkeys]. split.
  - rewrite !getAlert_stored. unfold stored.
    rewrite deleteAlert_backend, keyFor_deleteAlert.
    destruct (decide (id' = id)) as [->|Hne].
    + by rewrite kv_get_delete_eq.
    + rewrite kv_get_delete_ne; [done|]. intros E. by apply keyFor_inj in E.
  - unfold wf_storage. rewrite deleteAlert_backend. split.
    + by apply kv_delete_keys_NoDup.
    + apply Forall_forall. intros kv Hin%list_elem_of_In%kv_delete_In.
      rewrite keyFor_deleteAlert. rewrite Forall_forall in Hkeys.
      by apply Hkeys, list_elem_of_In.
Qed.

Lemma X10_delete_first_overspeed_alert :
  let st := storageManager (fst Scenario.run4) in
  wf_storage st
  ∧ getAlert (deleteAlert st "a-0001") "a-0001" = None
  ∧ getAlert (deleteAlert st "a-0001") "a-0002" = getAlert st "a-0002".
Proof.
  intros st.
  assert (Hwf : wf_storage st)
    by (do 4 apply createAlert_wf; apply emptyStorage_wf).
  split; [exact Hwf|]. split.
  - exact (proj1 (X10_get_after_delete st "a-0001" "a-0001" Hwf)).
  - exact (proj1 (X10_get_after_delete st "a-0001" "a-0002" Hwf)).
Defined.

(** X11.  On a store filled through [saveAlert], [getAllAlerts] lists
    exactly the alerts that [getAlert] returns: an alert is in the list if
    and only if [getAlert] of its id returns it; and no id is listed
    twice. *)
Theorem X11_getAll_agrees_with_get st a :
  wf_storage st →
  (In a (getAllAlerts st) ↔ getAlert st (alertId a) = Some a)
  ∧ NoDup (List.map alertId (getAllAlerts st)).
Proof.
  intros Hwf. split; [|by apply getAllAlerts_ids_NoDup].
  rewrite getAlert_stored. split.
  - intros Hin. destruct (getAllAlerts_stored st a Hwf Hin) as (d & -> & ->).
    done.
  - destruct (stored st (alertId a)) as [d|] eqn:Hst; [|done].
    intros [= <-]. by apply (stored_In_getAllAlerts st (alertId (Alert_load d))).
Qed.

Lemma X11_list_and_get_after_four_alerts :
  let st := storageManager (fst Scenario.run4) in
  wf_storage st
  ∧ (In (snd Scenario.run4) (getAllAlerts st)
     ↔ getAlert st (alertId (snd Scenario.run4)) = Some (snd Scenario.run4))
  ∧ getAlert st "a-0004" = Some (snd Scenario.run4).
Proof.
  intros st.
  assert (Hwf : wf_storage st)
    by (do 4 apply createAlert_wf; apply emptyStorage_wf).
  split; [exact Hwf|].
  split; [exact (proj1 (X11_getAll_agrees_with_get st (snd Scenario.run4) Hwf))|].
  vm_compute. reflexivity.
Defined.

(** The ids listed after a save, in the order in which the keyed lists of
    the two backends hold their keys. *)
Lemma saveAlert_ids st a :
  wf_storage st →
  List.map alertId (getAllAlerts (saveAlert st a)) =
    match getAlert st (alertId a) with
    | Some _ => List.map alertId (getAllAlerts st)
    | None => List.map alertId (getAllAlerts st) ++ [alertId a]
    end.
Proof.
  intros Hwf. pose proof (saveAlert_wf st a Hwf) as Hwf'.
  assert (Hids : ∀ st0, wf_storage st0 →
            List.map (keyFor st0) (List.map alertId (getAllAlerts st0))
            = List.map fst (backend st0)).
  { intros st0 Hwf0. rewrite getAllAlerts_backend by done.
    rewrite !List.map_map. simpl. apply List.map_ext_in. intros kv Hin.
    destruct Hwf0 as [_ Hk]. rewrite Forall_forall in Hk.
    symmetry. by apply Hk, list_elem_of_In. }
  assert (Hinj : ∀ l l', List.map (keyFor st) l = List.map (keyFor st) l' → l = l').
  { induction l as [|x l IH]; intros [|y l']; simpl; try done.
    intros [= Hxy Hl]. f_equal; [by apply (keyFor_inj st) | by apply IH]. }
  apply Hinj.
  assert (Hk : ∀ id, keyFor (saveAlert st a) id = keyFor st id)
    by apply keyFor_saveAlert.
  rewrite <- (List.map_ext _ _ Hk), (Hids _ Hwf'), saveAlert_backend.
  rewrite getAlert_stored. unfold stored.
  destruct (kv_get (keyFor st (alertId a)) (backend st)) as [d|] eqn:Hget; simpl.
  - rewrite kv_set_keys_present by eauto. by rewrite Hids.
  - rewrite kv_set_keys_absent by done. by rewrite List.map_app, Hids.
Qed.

(** X12.  On a store filled through [saveAlert], with Redis down: saving
    under an id that is already stored replaces the record where it stands
    in the in-memory [Map] (the list of [getAllAlerts] keeps its ids, in the
    same order), and saving under a new id adds the alert at the end.  On
    either backend the ids listed after the save are, in some order, those
    listed before, with the id of the alert added when it was not stored;
    for Redis no order is stated, [KEYS] promising none. *)
Theorem X12_save_replaces_in_place_or_appends st a :
  wf_storage st →
  (isConnected st = false →
   List.map alertId (getAllAlerts (saveAlert st a)) =
     match getAlert st (alertId a) with
     | Some _ => List.map alertId (getAllAlerts st)
     | None => List.map alertId (getAllAlerts st) ++ [alertId a]
     end)
  ∧ List.map alertId (getAllAlerts (saveAlert st a)) ≡ₚ
      match getAlert st (alertId a) with
      | Some _ => List.map alertId (getAllAlerts st)
      | None => alertId a :: List.map alertId (getAllAlerts st)
      end.
Proof.
  intros Hwf. split; [intros _; by apply saveAlert_ids|].
  rewrite saveAlert_ids by done.
  destruct (getAlert st (alertId a)); [done|].
  by rewrite Permutation_app_comm.
Qed.

Lemma X12_saving_the_escalated_third_alert :
  let st := storageManager Scenario.svcThirdSaved in
  wf_storage st
  ∧ isConnected st = false
  ∧ List.map alertId (getAllAlerts (saveAlert st (snd Scenario.run3)))
    = ["a-0001"; "a-0002"; "a-0003"].
Proof.
  intros st.
  assert (Hwf : wf_storage st).
  { apply saveAlert_wf. do 2 apply createAlert_wf. apply emptyStorage_wf. }
  split; [exact Hwf|]. split; [reflexivity|].
  rewrite (proj1 (X12_save_replaces_in_place_or_appends st (snd Scenario.run3) Hwf)
             eq_refl).
  vm_compute. reflexivity.
Defined.

(** Saves and deletes, without changes of connectivity. *)
Lemma applyStorageOp_other_backend st op :
  (∀ b, op ≠ OpSetConnected b) →
  isConnected (applyStorageOp st op) = isConnected st
  ∧ (if isConnected st
     then memoryStore (applyStorageOp st op) = memoryStore st
     else redis (applyStorageOp st op) = redis st).
Proof.
  destruct op as [a|id|b]; simpl; intros Hop.
  - unfold saveAlert. by destruct (isConnected st).
  - unfold deleteAlert. by destruct (isConnected st).
  - by destruct (Hop b).
Qed.

(** X13.  The storage manager writes to one backend at a time: whatever is
    saved or deleted while Redis is connected leaves the in-memory fallback
    as it was, so that after a Redis outage ends and another begins
    [getAllAlerts] returns again what it returned during the first. *)
Theorem X13_fallback_survives_a_redis_session st ops :
  Forall (λ op, ∀ b, op ≠ OpSetConnected b) ops →
  getAllAlerts (setConnected false
                  (fold_left applyStorageOp ops (setConnected true st)))
  = getAllAlerts (setConnected false st).
Proof.
  intros Hops.
  assert (H : ∀ s, isConnected s = true →
            memoryStore (fold_left applyStorageOp ops s) = memoryStore s).
  { induction Hops as [|op ops Hop _ IH]; intros s Hs; simpl; [done|].
    destruct (applyStorageOp_other_backend s op Hop) as [Hc Hm].
    rewrite Hs in Hm, Hc. rewrite IH by done. exact Hm. }
  unfold getAllAlerts. simpl. by rewrite H.
Qed.

Lemma X13_alert_saved_offline_is_back :
  let ops := [OpSave (snd Scenario.run1); OpDelete "a-0003"] in
  Forall (λ op, ∀ b, op ≠ OpSetConnected b) ops
  ∧ getAllAlerts (setConnected false
                    (fold_left applyStorageOp ops
                       (setConnected true Scenario.savedOffline)))
    = [Alert_load Scenario.third].
Proof.
  intros ops.
  assert (Hops : Forall (λ op, ∀ b, op ≠ OpSetConnected b) ops)
    by (repeat constructor; discriminate).
  split; [exact Hops|].
  rewrite (X13_fallback_survives_a_redis_session Scenario.savedOffline ops Hops).
  vm_compute. reflexivity.
Defined.


(** ** Sweeps, record by record *)

(** A loop over a snapshot of the store whose body either leaves the store
    alone or saves a new version of the alert it is given: [R d d'] relates
    the record [d] an alert was loaded from to the record [d'] left under
    its id. *)
Section SnapshotLoop.
Variable step : Service → Alert → Service.
Variable R : Alert → Alert → Prop.
Hypothesis step_spec : ∀ s a,
  (storageManager (step s a) = storageManager s ∧ ∀ d, a = Alert_load d → R d d)
  ∨ (∃ a', storageManager (step s a) = saveAlert (storageManager s) a'
           ∧ alertId a' = alertId a ∧ ∀ d, a = Alert_load d → R d a').

Lemma loop_step_wf s a :
  wf_storage (storageManager s) → wf_storage (storageManager (step s a)).
Proof.
  intros Hwf. destruct (step_spec s a) as [[-> _]|(a' & -> & _)]; [done|].
  by apply saveAlert_wf.
Qed.

Lemma loop_step_other s a id :
  alertId a ≠ id →
  stored (storageManager (step s a)) id = stored (storageManager s) id.
Proof.
  intros Hne. destruct (step_spec s a) as [[-> _]|(a' & -> & Hid & _)]; [done|].
  apply stored_saveAlert_ne. by rewrite Hid.
Qed.

Lemma loop_step_keys s a d :
  stored (storageManager s) (alertId a) = Some d →
  List.map fst (backend (storageManager (step s a)))
  = List.map fst (backend (storageManager s))
  ∧ isConnected (storageManager (step s a)) = isConnected (storageManager s).
Proof.
  intros Hst. destruct (step_spec s a) as [[-> _]|(a' & -> & Hid & _)]; [done|].
  rewrite saveAlert_backend, saveAlert_isConnected, Hid. split; [|done].
  apply kv_set_keys_present. by exists d.
Qed.

Lemma loop_step_self s a d :
  stored (storageManager s) (alertId a) = Some d → a = Alert_load d →
  ∃ d', stored (storageManager (step s a)) (alertId a) = Some d' ∧ R d d'.
Proof.
  intros Hst Ha. destruct (step_spec s a) as [[-> HR]|(a' & -> & Hid & HR)].
  - exists d. split; [done | by apply HR].
  - exists a'. split; [|by apply HR]. by rewrite <- Hid, stored_saveAlert_eq.
Qed.

Lemma loop_other rest s id :
  ¬ In id (List.map alertId rest) →
  stored (storageManager (fold_left step rest s)) id = stored (storageManager s) id.
Proof.
  revert s. induction rest as [|a rest IH]; intros s Hnin; simpl; [done|].
  rewrite IH by (intros Hin; apply Hnin; by right).
  apply loop_step_other. intros E. apply Hnin. by left.
Qed.

Lemma pendingIn_step s a rest : pendingIn s (a :: rest) → pendingIn (step s a) rest.
Proof.
  intros [[Hnot Hnd]%NoDup_cons Hpend]. split; [done|].
  intros b Hb. destruct (Hpend b (or_intror Hb)) as (db & Hdb & Hbl).
  exists db. split; [|done]. rewrite loop_step_other; [done|].
  intros E. apply Hnot, list_elem_of_In. rewrite E. by apply in_map.
Qed.

Lemma loop_shape rest s :
  wf_storage (storageManager s) → pendingIn s rest →
  wf_storage (storageManager (fold_left step rest s))
  ∧ List.map fst (backend (storageManager (fold_left step rest s)))
    = List.map fst (backend (storageManager s))
  ∧ isConnected (storageManager (fold_left step rest s))
    = isConnected (storageManager s).
Proof.
  revert s. induction rest as [|a rest IH]; intros s Hwf Hpend; simpl; [done|].
  destruct (proj2 Hpend a (or_introl eq_refl)) as (da & Hda & Ha).
  destruct (loop_step_keys s a da Hda) as [Hkeys Hconn].
  destruct (IH (step s a)) as (Hwf' & Hkeys' & Hconn').
  - by apply loop_step_wf.
  - by apply pendingIn_step.
  - by rewrite Hkeys', Hconn', Hkeys, Hconn.
Qed.

Lemma loop_records rest s id d :
  pendingIn s rest →
  stored (storageManager s) id = Some d → In id (List.map alertId rest) →
  ∃ d', stored (storageManager (fold_left step rest s)) id = Some d' ∧ R d d'.
Proof.
  revert s. induction rest as [|a rest IH]; intros s Hpend Hst Hin; simpl;
    [done|].
  pose proof Hpend as [[Hnot Hnd]%NoDup_cons Hp].
  destruct (decide (alertId a = id)) as [<-|Hne].
  - destruct (Hp a (or_introl eq_refl)) as (da & Hda & Ha).
    rewrite Hst in Hda. simplify_eq.
    destruct (loop_step_self s _ da Hst eq_refl) as (d' & Hd' & HR).
    exists d'. split; [|done]. rewrite loop_other; [done|].
    by intros Hin'%list_elem_of_In.
  - destruct Hin as [E|Hin]; [done|]. apply IH; [by apply pendingIn_step| |done].
    by rewrite loop_step_other.
Qed.
End SnapshotLoop.

Lemma pendingIn_snapshot s (p : Alert → bool) :
  wf_storage (storageManager s) →
  pendingIn s (List.filter p (getAllAlerts (storageManager s))).
Proof.
  intros Hwf. split.
  - by apply filter_ids_NoDup, getAllAlerts_ids_NoDup.
  - intros a [Hin _]%List.filter_In. by apply getAllAlerts_stored.
Qed.

Lemma filter_true {A : Type} (l : list A) : List.filter (λ _, true) l = l.
Proof. induction l as [|x l IH]; simpl; by rewrite ?IH. Qed.

Lemma snapshot_ids st :
  wf_storage st →
  List.map (keyFor st) (List.map alertId (getAllAlerts st)) = List.map fst (backend st).
Proof.
  intros Hwf. rewrite getAllAlerts_backend by done.
  rewrite !List.map_map. simpl. apply List.map_ext_in. intros kv Hin.
  destruct Hwf as [_ Hk]. rewrite Forall_forall in Hk.
  symmetry. by apply Hk, list_elem_of_In.
Qed.

Lemma keyFor_map_inj st l l' :
  List.map (keyFor st) l = List.map (keyFor st) l' → l = l'.
Proof.
  revert l'. induction l as [|x l IH]; intros [|y l']; simpl; try done.
  intros [= Hxy Hl]. f_equal; [by apply (keyFor_inj st) | by apply IH].
Qed.

(** Same keys on the same backend: same ids in the same order. *)
Lemma same_keys_same_ids st st' :
  wf_storage st → wf_storage st' →
  isConnected st' = isConnected st →
  List.map fst (backend st') = List.map fst (backend st) →
  List.map alertId (getAllAlerts st') = List.map alertId (getAllAlerts st).
Proof.
  intros Hwf Hwf' Hconn Hkeys. apply (keyFor_map_inj st).
  rewrite (snapshot_ids st Hwf), <- Hkeys, <- (snapshot_ids st' Hwf').
  apply List.map_ext. intros id. unfold keyFor. by rewrite Hconn.
Qed.

Lemma expireStep_spec env now s a :
  (storageManager (expireStep env now s a) = storageManager s
   ∧ ∀ d, a = Alert_load d →
       d = (if expiryDue env now (Alert_load d)
            then expire env now (Alert_load d) else d))
  ∨ (∃ a', storageManager (expireStep env now s a) = saveAlert (storageManager s) a'
           ∧ alertId a' = alertId a
           ∧ ∀ d, a = Alert_load d →
               a' = (if expiryDue env now (Alert_load d)
                     then expire env now (Alert_load d) else d)).
Proof.
  unfold expireStep. destruct (expiryDue env now a) eqn:Hdue.
  - right. exists (expire env now a). repeat split. intros d ->. by rewrite Hdue.
  - left. split; [done|]. intros d ->. by rewrite Hdue.
Qed.

(** X14.  The expiry sweep, on a store filled through the service: under
    every id the record becomes its expired version (status EXPIRED,
    [expiredAt] the time of the sweep, one more history event) when the
    alert is active and older than the retention threshold, and stays as
    it is otherwise; the sweep adds no alert, removes none and keeps their
    order. *)
Theorem X14_expiry_sweep_record_by_record env now svc id :
  wf_storage (storageManager svc) →
  stored (storageManager (expireOldAlerts env now svc)) id =
    (λ d, if expiryDue env now (Alert_load d)
          then expire env now (Alert_load d) else d)
    <$> stored (storageManager svc) id
  ∧ List.map alertId (getAllAlerts (storageManager (expireOldAlerts env now svc)))
    = List.map alertId (getAllAlerts (storageManager svc)).
Proof.
  intros Hwf. rewrite expireOldAlerts_fold.
  set (R := λ d d' : Alert, d' = (if expiryDue env now (Alert_load d)
                                then expire env now (Alert_load d) else d)).
  pose proof (pendingIn_snapshot svc (λ _, true) Hwf) as Hpend.
  rewrite filter_true in Hpend.
  destruct (loop_shape (expireStep env now) R (expireStep_spec env now) _ svc
              Hwf Hpend) as (Hwf' & Hkeys & Hconn).
  split; [|by apply same_keys_same_ids].
  destruct (stored (storageManager svc) id) as [d|] eqn:Hst; simpl.
  - destruct (stored_In_getAllAlerts _ _ _ Hwf Hst) as [Hid Hin].
    destruct (loop_records (expireStep env now) R (expireStep_spec env now)
                _ svc id d Hpend Hst) as (d' & Hd' & HR).
    { rewrite <- Hid. by apply (in_map alertId _ (Alert_load d)). }
    by rewrite Hd', HR.
  - destruct (stored (storageManager (fold_left _ _ _)) id) as [d'|] eqn:Hst';
      [|done]. exfalso.
    apply kv_get_In, (in_map fst) in Hst'. simpl in Hst'.
    rewrite Hkeys in Hst'. unfold keyFor in Hst'. rewrite Hconn in Hst'.
    unfold stored, keyFor in Hst.
    by apply (kv_get_None_notin _ _ Hst).
Qed.

Lemma X14_four_overspeed_alerts_after_thirty_one_days :
  let svc := fst Scenario.run4 in
  let now := Scenario.t0 + 31 * msPerDay in
  wf_storage (storageManager svc)
  ∧ (status <$> stored (storageManager (expireOldAlerts Scenario.env0 now svc)) "a-0001")
    = Some EXPIRED
  ∧ (expiredAt <$> stored (storageManager (expireOldAlerts Scenario.env0 now svc)) "a-0001")
    = Some (Some now)
  ∧ stored (storageManager (expireOldAlerts Scenario.env0 (Scenario.t0 + msPerDay) svc))
      "a-0001"
    = stored (storageManager svc) "a-0001".
Proof.
  intros svc now.
  assert (Hwf : wf_storage (storageManager svc))
    by (do 4 apply createAlert_wf; apply emptyStorage_wf).
  split; [exact Hwf|].
  rewrite (proj1 (X14_expiry_sweep_record_by_record Scenario.env0 now svc "a-0001" Hwf)).
  rewrite (proj1 (X14_expiry_sweep_record_by_record Scenario.env0
                    (Scenario.t0 + msPerDay) svc "a-0001" Hwf)).
  vm_compute. done.
Defined.

Lemma processAlert_step_spec env now s a :
  (storageManager (fst (processAlert env now s a)) = storageManager s
   ∧ ∀ d, a = Alert_load d →
       d = d ∨ ∃ act, d = executeAction now (Alert_load d) act)
  ∨ (∃ a', storageManager (fst (processAlert env now s a))
           = saveAlert (storageManager s) a'
           ∧ alertId a' = alertId a
           ∧ ∀ d, a = Alert_load d →
               a' = d ∨ ∃ act, a' = executeAction now (Alert_load d) act).
Proof.
  rewrite processAlert_service. case_bool_decide; [left; by split; [|left]|].
  destruct (evaluateAlert _ _ _ _ _) as [act|]; [|left; by split; [|left]].
  right. exists (executeAction now a act). split; [done|].
  split; [apply executeAction_alertId|]. intros d ->. right. by exists act.
Qed.

(** X15.  The re-evaluation sweep, on a store filled through the service:
    under every id the record stays as it is or, for an active alert only,
    becomes the alert with one action applied, so the history of an alert
    grows by at most one event per sweep; the sweep adds no alert, removes
    none and keeps their order, and leaves the rules and the set of alerts
    in flight as they were. *)
Theorem X15_reevaluation_sweep_record_by_record env now svc id d :
  wf_storage (storageManager svc) →
  stored (storageManager svc) id = Some d →
  (∃ d', stored (storageManager (processAllAlerts env now svc)) id = Some d'
         ∧ (d' = d
            ∨ (isActive d = true ∧ ∃ act, d' = executeAction now (Alert_load d) act))
         ∧ (length (history d') ≤ S (length (history d)))%nat)
  ∧ List.map alertId (getAllAlerts (storageManager (processAllAlerts env now svc)))
    = List.map alertId (getAllAlerts (storageManager svc))
  ∧ rules (processAllAlerts env now svc) = rules svc
  ∧ processingQueue (processAllAlerts env now svc) = processingQueue svc.
Proof.
  intros Hwf Hst. unfold processAllAlerts.
  set (step := λ s alert, fst (processAlert env now s alert)).
  set (R := λ d d' : Alert,
         d' = d ∨ ∃ act, d' = executeAction now (Alert_load d) act).
  pose proof (pendingIn_snapshot svc isActive Hwf) as Hpend.
  destruct (loop_shape step R (processAlert_step_spec env now) _ svc Hwf Hpend)
    as (Hwf' & Hkeys & Hconn).
  split; [|split; [by apply same_keys_same_ids|]].
  - destruct (stored_In_getAllAlerts _ _ _ Hwf Hst) as [Hid Hin].
    destruct (isActive d) eqn:Hact.
    + destruct (loop_records step R (processAlert_step_spec env now) _ svc id d
                  Hpend Hst) as (d' & Hd' & HR).
      { rewrite <- Hid. apply (in_map alertId _ (Alert_load d)).
        by apply List.filter_In. }
      exists d'. split; [done|]. destruct HR as [->|[act ->]].
      * split; [by left | lia].
      * split; [right; eauto|]. destruct act; simpl; rewrite length_app; simpl; lia.
    + exists d. rewrite (loop_other step R (processAlert_step_spec env now)).
      * repeat split; [done | by left | lia].
      * intros (a & Ha & Hin')%in_map_iff. apply List.filter_In in Hin' as [Hin' Ha'].
        by rewrite (snapshot_inactive _ _ _ _ Hwf Hst Hact Hin' Ha) in Ha'.
  - apply (fold_processAlert_rules_queue env now _ svc).
Qed.

Lemma X15_sweep_after_four_overspeed_alerts :
  let svc := fst Scenario.run4 in
  let now := Scenario.t0 + 2 * Scenario.minute in
  wf_storage (storageManager svc)
  ∧ (status <$> stored (storageManager svc) "a-0001") = Some OPEN
  ∧ (∃ d', stored (storageManager (processAllAlerts Scenario.env0 now svc)) "a-0001"
           = Some d'
           ∧ (length (history d') ≤ 2)%nat).
Proof.
  intros svc now.
  assert (Hwf : wf_storage (storageManager svc))
    by (do 4 apply createAlert_wf; apply emptyStorage_wf).
  split; [exact Hwf|]. split; [vm_compute; reflexivity|].
  destruct (stored (storageManager svc) "a-0001") as [d|] eqn:Hst;
    [|vm_compute in Hst; discriminate].
  assert (Hlen : length (history d) = 1%nat).
  { vm_compute in Hst. injection Hst as <-. reflexivity. }
  destruct (proj1 (X15_reevaluation_sweep_record_by_record Scenario.env0 now svc
                     "a-0001" d Hwf Hst)) as (d' & Hd' & _ & Hh).
  exists d'. split; [exact Hd'|]. rewrite Hlen in Hh. exact Hh.
Defined.

(** ** Calls on the service *)

(** While an evaluation of an alert id is in flight, [processAlert] for the
    same id returns at once. *)
Lemma processAlert_in_flight env now svc alert :
  alertId alert ∈ processingQueue svc →
  processAlert env now svc alert = (svc, alert).
Proof. intros Hin. unfold processAlert. by rewrite bool_decide_eq_true_2. Qed.

(** X16.  [processAlert] on an alert that is not in flight: the id is
    released and the rules are untouched; when evaluation returns an
    action, the alert comes back with that action applied and in the status
    the action names, and it is the alert the store then returns for its
    id; when evaluation returns nothing, service and alert come back as
    they were. *)
Theorem X16_processAlert_outcome env now svc alert :
  alertId alert ∉ processingQueue svc →
  processingQueue (fst (processAlert env now svc alert)) = processingQueue svc
  ∧ rules (fst (processAlert env now svc alert)) = rules svc
  ∧ match evaluateAlert env now (rules svc) alert
            (getAllAlerts (storageManager svc)) with
    | Some act =>
        snd (processAlert env now svc alert) = executeAction now alert act
        ∧ status (snd (processAlert env now svc alert)) = newStatus act
        ∧ getAlert (storageManager (fst (processAlert env now svc alert)))
            (alertId alert)
          = Some (Alert_load (snd (processAlert env now svc alert)))
    | None => processAlert env now svc alert = (svc, alert)
    end.
Proof.
  intros Hq. split; [apply processAlert_queue|]. split; [apply processAlert_rules|].
  pose proof (processAlert_service env now svc alert) as Hs.
  pose proof (processAlert_alert env now svc alert) as Ha.
  rewrite bool_decide_eq_false_2 in Hs, Ha by done.
  destruct (evaluateAlert _ _ _ _ _) as [act|].
  - rewrite Hs, Ha. simpl. split; [done|]. split; [by destruct act|].
    rewrite getAlert_saveAlert. by rewrite executeAction_alertId, decide_True.
  - by rewrite (surjective_pairing (processAlert env now svc alert)), Hs, Ha.
Qed.

Lemma X16_third_overspeed_alert_processed :
  let svc := Scenario.svcThirdSaved in
  let now := Scenario.t0 + 2 * Scenario.second in
  (alertId Scenario.third ∉ processingQueue svc)
  ∧ processingQueue (fst (processAlert Scenario.env0 now svc Scenario.third)) = ∅
  ∧ getAlert (storageManager (fst (processAlert Scenario.env0 now svc Scenario.third)))
      "a-0003"
    = Some (Alert_load (snd (processAlert Scenario.env0 now svc Scenario.third))).
Proof.
  intros svc now.
  assert (Hq : alertId Scenario.third ∉ processingQueue svc)
    by (apply (bool_decide_unpack _); vm_compute; exact I).
  split; [exact Hq|].
  pose proof (X16_processAlert_outcome Scenario.env0 now svc Scenario.third Hq)
    as (Hqueue & _ & Hout).
  split; [rewrite Hqueue; reflexivity|].
  destruct (evaluateAlert Scenario.env0 now (rules svc) Scenario.third
              (getAllAlerts (storageManager svc))) as [act|] eqn:Hev.
  - exact (proj2 (proj2 Hout)).
  - vm_compute in Hev. discriminate.
Defined.

(** X17.  [createAlert] returns an alert with the given id, source type and
    metadata, timestamped at the time of the call, OPEN, ESCALATED or
    AUTO_CLOSED, whose history is the creation event followed by at most
    one more event; the store returns that alert for its id afterwards, and
    returns for every other id what it returned before. *)
Theorem X17_createAlert_result env now uuid svc data :
  alertId (snd (createAlert env now uuid svc data)) = uuid
  ∧ sourceType (snd (createAlert env now uuid svc data)) = in_sourceType data
  ∧ metadata (snd (createAlert env now uuid svc data)) = default ∅ (in_metadata data)
  ∧ timestamp (snd (createAlert env now uuid svc data)) = now
  ∧ status (snd (createAlert env now uuid svc data)) ∈ [OPEN; ESCALATED; AUTO_CLOSED]
  ∧ (∃ rest, history (snd (createAlert env now uuid svc data)) =
               {| action := EV_CREATED; ev_timestamp := now;
                  details := "Alert created"; previousStatus := None;
                  previousSeverity := None |} :: rest
             ∧ (length rest ≤ 1)%nat)
  ∧ getAlertById (fst (createAlert env now uuid svc data)) uuid
    = Some (Alert_load (snd (createAlert env now uuid svc data)))
  ∧ (∀ id, id ≠ uuid →
       getAlertById (fst (createAlert env now uuid svc data)) id = getAlertById svc id).
Proof.
  unfold createAlert, getAlertById.
  set (alert := Alert_new uuid now data).
  set (svc1 := withStorage svc (saveAlert (storageManager svc) alert)).
  assert (Hid : alertId (snd (processAlert env now svc1 alert)) = uuid
                ∧ sourceType (snd (processAlert env now svc1 alert)) = in_sourceType data
                ∧ metadata (snd (processAlert env now svc1 alert))
                  = default ∅ (in_metadata data)
                ∧ timestamp (snd (processAlert env now svc1 alert)) = now
                ∧ status (snd (processAlert env now svc1 alert))
                  ∈ [OPEN; ESCALATED; AUTO_CLOSED]
                ∧ (∃ rest, history (snd (processAlert env now svc1 alert)) =
                     {| action := EV_CREATED; ev_timestamp := now;
                        details := "Alert created"; previousStatus := None;
                        previousSeverity := None |} :: rest
                   ∧ (length rest ≤ 1)%nat)).
  { rewrite processAlert_alert. case_bool_decide.
    { repeat split; [set_solver|]. exists []. split; [done|simpl; lia]. }
    destruct (evaluateAlert _ _ _ _ _) as [[sev reason|reason]|]; simpl;
      (repeat split; [set_solver|]); eexists; (split; [reflexivity|simpl; lia]). }
  destruct Hid as (H1 & H2 & H3 & H4 & H5 & H6). repeat split; try done.
  - rewrite processAlert_alert, processAlert_service.
    case_bool_decide; simpl.
    { by rewrite getAlert_saveAlert, decide_True. }
    destruct (evaluateAlert _ _ _ _ _) as [act|]; simpl.
    + by rewrite getAlert_saveAlert, executeAction_alertId, decide_True.
    + by rewrite getAlert_saveAlert, decide_True.
  - intros id Hne. rewrite !getAlert_stored, processAlert_stored_other by done.
    simpl. by rewrite stored_saveAlert_ne.
Qed.

(** X18.  [resolveAlert] on an id the store does not know returns null and
    leaves the service as it is.  On a known id of a store filled through
    the service it returns the stored alert resolved (RESOLVED, with the
    resolution text, [resolvedAt] the time of the call, one more history
    event), the store returns that alert for the id afterwards, and every
    other id is as before. *)
Theorem X18_resolveAlert_result now svc id res :
  wf_storage (storageManager svc) →
  match getAlertById svc id with
  | None => resolveAlert now svc id res = (svc, None)
  | Some alert =>
      snd (resolveAlert now svc id res) = Some (resolve now alert res)
      ∧ getAlertById (fst (resolveAlert now svc id res)) id
        = Some (Alert_load (resolve now alert res))
      ∧ (∀ id', id' ≠ id →
           getAlertById (fst (resolveAlert now svc id res)) id' = getAlertById svc id')
  end.
Proof.
  intros Hwf. unfold resolveAlert, getAlertById.
  destruct (getAlert (storageManager svc) id) as [alert|] eqn:Hget; [|done].
  assert (Hid : alertId alert = id).
  { rewrite getAlert_stored in Hget.
    destruct (stored (storageManager svc) id) as [d|] eqn:Hst; [|done].
    simpl in Hget. injection Hget as <-.
    by destruct (stored_In_getAllAlerts _ _ _ Hwf Hst). }
  simpl. split; [done|]. split.
  - by rewrite getAlert_saveAlert, decide_True.
  - intros id' Hne. rewrite getAlert_saveAlert. simpl. rewrite Hid.
    by rewrite decide_False.
Qed.

Lemma X18_resolving_known_and_unknown_ids :
  let svc := fst Scenario.created in
  let now := Scenario.t0 + 1 * Scenario.minute in
  wf_storage (storageManager svc)
  ∧ resolveAlert now svc "no-such-id" None = (svc, None)
  ∧ (status <$> snd (resolveAlert now svc "d-0001" (Some "Driver counseled")))
    = Some RESOLVED.
Proof.
  intros svc now.
  assert (Hwf : wf_storage (storageManager svc))
    by (apply createAlert_wf, emptyStorage_wf).
  split; [exact Hwf|]. split.
  - exact (X18_resolveAlert_result now svc "no-such-id" None Hwf).
  - pose proof (X18_resolveAlert_result now svc "d-0001" (Some "Driver counseled") Hwf)
      as H.
    destruct (getAlertById svc "d-0001") as [alert|] eqn:Hget;
      [|vm_compute in Hget; discriminate].
    destruct H as (-> & _). reflexivity.
Defined.

(** X19.  The renewal route on a stored alert whose rule names
    [document_valid] as its auto-close key: the alert comes back with
    [document_valid] set, whatever metadata the request brought, and
    ESCALATED or AUTO_CLOSED whatever its status was; it is auto-closed
    exactly when no escalation is due, the escalation check coming first. *)
Theorem X19_renewal_auto_closes_unless_escalation_is_due env now svc id md alert rule :
  getAlertById svc id = Some alert →
  rules svc !! sourceType alert = Some rule →
  auto_close_if rule = Some "document_valid" →
  alertId alert ∉ processingQueue svc →
  ∃ alert',
    snd (renewAlert env now svc id md) = Some alert'
    ∧ metadata alert' !! "document_valid" = Some (JBool true)
    ∧ status alert' ∈ [ESCALATED; AUTO_CLOSED]
    ∧ (status alert' = AUTO_CLOSED ↔
       checkEscalationRules env now (renewedAlert md alert) rule
         (getAllAlerts (saveAlert (storageManager svc) (renewedAlert md alert)))
       = None).
Proof.
  intros Hget Hrule Hkey Hq. unfold renewAlert. rewrite Hget.
  fold (renewedAlert md alert). set (alert1 := renewedAlert md alert).
  set (svc1 := withStorage svc (saveAlert (storageManager svc) alert1)).
  destruct (processAlert env now svc1 alert1) as [svc2 alert2] eqn:Hp.
  exists alert2. split; [done|].
  assert (Ha : alert2 = snd (processAlert env now svc1 alert1)) by by rewrite Hp.
  rewrite processAlert_alert in Ha.
  rewrite bool_decide_eq_false_2 in Ha by done.
  unfold evaluateAlert in Ha. simpl in Ha. rewrite Hrule in Ha.
  assert (Hclose : checkAutoCloseRules alert1 rule =
            Some (ActAutoClose "Auto-closed because document_valid condition met")).
  { unfold checkAutoCloseRules. rewrite Hkey. simpl.
    by rewrite lookup_insert_eq, strict_eq_refl. }
  rewrite Hclose in Ha.
  destruct (checkEscalationRules env now alert1 rule
              (getAllAlerts (saveAlert (storageManager svc) alert1)))
    as [act|] eqn:Hesc.
  - destruct (checkEscalationRules_is_escalate _ _ _ _ _ _ Hesc) as [reason ->].
    subst alert2. simpl. split; [by rewrite lookup_insert_eq|].
    split; [set_solver|]. by split.
  - subst alert2. simpl. split; [by rewrite lookup_insert_eq|].
    split; [set_solver|]. by split.
Qed.

Lemma X19_renewing_the_pending_compliance_alert :
  let svc := fst Scenario.created in
  let now := Scenario.t0 + 3 * Scenario.minute in
  getAlertById svc "d-0001" = Some (Alert_load (snd Scenario.created))
  ∧ (auto_close_if <$> rules svc !! "compliance") = Some (Some "document_valid")
  ∧ ("d-0001" ∉ processingQueue svc)
  ∧ (status <$> snd (renewAlert Scenario.env0 now svc "d-0001" ∅)) = Some AUTO_CLOSED.
Proof.
  intros svc now.
  assert (Hget : getAlertById svc "d-0001" = Some (Alert_load (snd Scenario.created)))
    by (vm_compute; reflexivity).
  assert (Hrule : rules svc !! sourceType (Alert_load (snd Scenario.created)) = Some
    {| escalate_if_count := None; window_mins := None;
       escalate_if_days := Some 7; escalate_to_severity := HIGH;
       auto_close_if := Some "document_valid" |}) by (vm_compute; reflexivity).
  assert (Hq : alertId (Alert_load (snd Scenario.created)) ∉ processingQueue svc)
    by (apply (bool_decide_unpack _); vm_compute; exact I).
  split; [exact Hget|]. split; [vm_compute; reflexivity|]. split; [exact Hq|].
  destruct (X19_renewal_auto_closes_unless_escalation_is_due Scenario.env0 now svc
              "d-0001" ∅ _ _ Hget Hrule eq_refl Hq) as (alert' & -> & _ & _ & Hiff).
  simpl. f_equal. apply Hiff. vm_compute. reflexivity.
Defined.

(** ** States the service can reach *)

Lemma list_ok_set keyf m a :
  list_ok keyf m → audit_ok a → list_ok keyf (kv_set (keyf (alertId a)) a m).
Proof.
  intros [Hnd Hall] Ha. split; [by apply kv_set_keys_NoDup|].
  apply Forall_forall. intros kv Hin%list_elem_of_In%kv_set_In.
  destruct Hin as [->|Hin]; [done|].
  rewrite Forall_forall in Hall. by apply Hall, list_elem_of_In.
Qed.

Lemma store_ok_empty connected : store_ok (emptyStorage connected).
Proof. repeat split; constructor. Qed.

Lemma store_ok_saveAlert st a : store_ok st → audit_ok a → store_ok (saveAlert st a).
Proof.
  intros [Hr Hm] Ha. unfold saveAlert. destruct (isConnected st); split; simpl;
    try done.
  - by apply (list_ok_set alertKey).
  - by apply (list_ok_set (λ id, id)).
Qed.

Lemma store_ok_setConnected b st : store_ok st → store_ok (setConnected b st).
Proof. done. Qed.

Lemma store_ok_backend st :
  store_ok st →
  wf_storage st ∧ Forall (λ kv, audit_ok (snd kv)) (backend st).
Proof.
  intros [[Hnr Hr] [Hnm Hm]]. unfold wf_storage, backend, keyFor.
  destruct (isConnected st); (split; [split; [done|]|]);
    (eapply Forall_impl; [eassumption|]); by intros kv [? ?].
Qed.

Lemma store_ok_getAllAlerts st a : store_ok st → In a (getAllAlerts st) → audit_ok a.
Proof.
  intros [Hwf Hall]%store_ok_backend Hin.
  rewrite getAllAlerts_backend in Hin by done.
  apply in_map_iff in Hin as (kv & <- & Hin). apply audit_ok_load.
  rewrite Forall_forall in Hall. by apply Hall, list_elem_of_In.
Qed.

Lemma store_ok_getAlert st id a : store_ok st → getAlert st id = Some a → audit_ok a.
Proof.
  intros [Hwf Hall]%store_ok_backend. rewrite getAlert_stored.
  destruct (stored st id) as [d|] eqn:Hst; [|done]. intros [= <-].
  apply audit_ok_load. rewrite Forall_forall in Hall.
  apply (Hall (keyFor st id, d)), list_elem_of_In. by apply kv_get_In.
Qed.

Lemma audit_ok_executeAction now a act : audit_ok a → audit_ok (executeAction now a act).
Proof. destruct act; [apply audit_ok_escalate | apply audit_ok_autoClose]. Qed.

Lemma audit_ok_renewedAlert md a : audit_ok a → audit_ok (renewedAlert md a).
Proof. done. Qed.

Lemma store_ok_processAlert env now svc a :
  store_ok (storageManager svc) → audit_ok a →
  store_ok (storageManager (fst (processAlert env now svc a))).
Proof.
  intros Hok Ha. rewrite processAlert_service. case_bool_decide; [done|].
  destruct (evaluateAlert _ _ _ _ _); [|done]. simpl.
  by apply store_ok_saveAlert, audit_ok_executeAction.
Qed.

Lemma store_ok_processAll env now l svc :
  store_ok (storageManager svc) → Forall audit_ok l →
  store_ok (storageManager
    (fold_left (λ s alert, fst (processAlert env now s alert)) l svc)).
Proof.
  revert svc. induction l as [|a l IH]; intros svc Hok Hall; simpl; [done|].
  inversion_clear Hall. by apply IH; [apply store_ok_processAlert|].
Qed.

Lemma store_ok_expireSteps env now l svc :
  store_ok (storageManager svc) → Forall audit_ok l →
  store_ok (storageManager (fold_left (expireStep env now) l svc)).
Proof.
  revert svc. induction l as [|a l IH]; intros svc Hok Hall; simpl; [done|].
  inversion_clear Hall. apply IH; [|done]. unfold expireStep.
  destruct (expiryDue env now a); [|done]. simpl.
  by apply store_ok_saveAlert, audit_ok_expire.
Qed.

Lemma store_ok_snapshot st (p : Alert → bool) :
  store_ok st → Forall audit_ok (List.filter p (getAllAlerts st)).
Proof.
  intros Hok. apply Forall_forall. intros a [Hin _]%list_elem_of_In%List.filter_In.
  by apply (store_ok_getAllAlerts st).
Qed.

Lemma store_ok_processAllAlerts env now svc :
  store_ok (storageManager svc) →
  store_ok (storageManager (processAllAlerts env now svc)).
Proof. intros Hok. by apply store_ok_processAll, store_ok_snapshot. Qed.

Lemma store_ok_expireOldAlerts env now svc :
  store_ok (storageManager svc) →
  store_ok (storageManager (expireOldAlerts env now svc)).
Proof.
  intros Hok. rewrite expireOldAlerts_fold. apply store_ok_expireSteps; [done|].
  rewrite <- (filter_true (getAllAlerts _)). by apply store_ok_snapshot.
Qed.

Lemma runCall_store_ok env svc call :
  store_ok (storageManager svc) → store_ok (storageManager (runCall env svc call)).
Proof.
  intros Hok. destruct call as [[uuid data|id res|id md| | |newRules|b] now]; simpl.
  - unfold createAlert. apply store_ok_processAlert; [|apply audit_ok_new].
    simpl. apply store_ok_saveAlert; [done | apply audit_ok_new].
  - unfold resolveAlert.
    destruct (getAlert (storageManager svc) id) as [a|] eqn:Hget; [|done]. simpl.
    apply store_ok_saveAlert; [done|].
    apply audit_ok_resolve. by apply (store_ok_getAlert (storageManager svc) id).
  - unfold renewAlert, getAlertById.
    destruct (getAlert (storageManager svc) id) as [a|] eqn:Hget; [|done].
    fold (renewedAlert md a).
    pose proof (store_ok_getAlert _ _ _ Hok Hget) as Ha.
    pose proof (store_ok_processAlert env now
                  (withStorage svc (saveAlert (storageManager svc) (renewedAlert md a)))
                  (renewedAlert md a)) as Hp.
    destruct (processAlert env now _ (renewedAlert md a)) as [svc2 a2].
    simpl in *. apply Hp; [by apply store_ok_saveAlert|done].
  - by apply store_ok_processAllAlerts.
  - by apply store_ok_expireOldAlerts, store_ok_processAllAlerts.
  - done.
  - done.
Qed.

Lemma runCall_queue env svc call :
  processingQueue (runCall env svc call) = processingQueue svc.
Proof.
  destruct call as [[uuid data|id res|id md| | |newRules|b] now]; simpl.
  - unfold createAlert. by rewrite processAlert_queue.
  - unfold resolveAlert. by destruct (getAlert _ id).
  - unfold renewAlert. destruct (getAlertById svc id) as [a|]; [|done].
    fold (renewedAlert md a).
    pose proof (processAlert_queue env now
                  (withStorage svc (saveAlert (storageManager svc) (renewedAlert md a)))
                  (renewedAlert md a)) as Hp.
    by destruct (processAlert env now _ (renewedAlert md a)).
  - apply (fold_processAlert_rules_queue env now _ svc).
  - unfold backgroundJob. rewrite expireOldAlerts_fold.
    rewrite (proj2 (fold_expireStep_rules_queue env now _ _)).
    apply (fold_processAlert_rules_queue env now _ svc).
  - done.
  - done.
Qed.

(** X20.  In every state a new service reaches through any sequence of
    creations, resolutions, renewals, manual and scheduled sweeps, rule
    updates and changes of Redis connectivity: no evaluation is left in
    flight, the store is well formed, [getAllAlerts] lists no id twice, and
    every alert it lists agrees with its history (creation event first,
    previous statuses chained, status and escalation count as the events
    say, each of [lastEscalatedAt], [resolvedAt] and [expiredAt] set
    exactly when its event is there). *)
Theorem X20_reachable_states_are_in_order env connected rs calls :
  processingQueue (fold_left (runCall env) calls (newService connected rs)) = ∅
  ∧ wf_storage (storageManager (fold_left (runCall env) calls (newService connected rs)))
  ∧ NoDup (List.map alertId (getAllAlerts
             (storageManager (fold_left (runCall env) calls (newService connected rs)))))
  ∧ Forall audit_ok (getAllAlerts
      (storageManager (fold_left (runCall env) calls (newService connected rs)))).
Proof.
  assert (H : ∀ svc, store_ok (storageManager svc) → processingQueue svc = ∅ →
            store_ok (storageManager (fold_left (runCall env) calls svc))
            ∧ processingQueue (fold_left (runCall env) calls svc) = ∅).
  { induction calls as [|call calls IH]; intros svc Hok Hq; simpl; [done|].
    apply IH; [by apply runCall_store_ok | by rewrite runCall_queue]. }
  destruct (H (newService connected rs) (store_ok_empty connected) eq_refl)
    as [Hok Hq].
  pose proof (store_ok_backend _ Hok) as [Hwf _].
  split; [done|]. split; [done|]. split.
  - by apply getAllAlerts_ids_NoDup.
  - apply Forall_forall. intros a Hin%list_elem_of_In.
    by apply (store_ok_getAllAlerts _ _ Hok).
Qed.

(** ** What no call takes back *)

Lemma laterStateOf_refl d : laterStateOf d d.
Proof. by repeat split. Qed.

Lemma laterStateOf_trans d3 d2 d1 :
  laterStateOf d3 d2 → laterStateOf d2 d1 → laterStateOf d3 d1.
Proof.
  intros (Ei & Es & Et & H32) (Ei' & Es' & Et' & H21).
  repeat split; [congruence..|by etrans].
Qed.

Lemma laterStateOf_load d : laterStateOf (Alert_load d) d.
Proof. by repeat split. Qed.

Lemma laterStateOf_executeAction now a act : laterStateOf (executeAction now a act) a.
Proof. destruct act; repeat split; by apply prefix_app_r. Qed.

Lemma laterStateOf_resolve now a res : laterStateOf (resolve now a res) a.
Proof. repeat split. by apply prefix_app_r. Qed.

Lemma laterStateOf_expire env now a : laterStateOf (expire env now a) a.
Proof. repeat split. by apply prefix_app_r. Qed.

Lemma processAlert_later_spec env now s a :
  (storageManager (fst (processAlert env now s a)) = storageManager s
   ∧ ∀ d, a = Alert_load d → laterStateOf d d)
  ∨ (∃ a', storageManager (fst (processAlert env now s a))
           = saveAlert (storageManager s) a'
           ∧ alertId a' = alertId a
           ∧ ∀ d, a = Alert_load d → laterStateOf a' d).
Proof.
  destruct (processAlert_step_spec env now s a) as [[E _]|(a' & E & Hid & HR)].
  - left. split; [done|]. intros. apply laterStateOf_refl.
  - right. exists a'. repeat split; try done. 
    + destruct (HR d H) as [->|[act ->]]; [done|]. by rewrite executeAction_alertId.
    + destruct (HR d H) as [->|[act ->]]; [done|]. by destruct act.
    + destruct (HR d H) as [->|[act ->]]; [done|]. by destruct act.
    + destruct (HR d H) as [->|[act ->]]; [done|].
      apply (laterStateOf_trans _ (Alert_load d)); 
        [apply laterStateOf_executeAction | apply laterStateOf_load].
Qed.

Lemma expireStep_later_spec env now s a :
  (storageManager (expireStep env now s a) = storageManager s
   ∧ ∀ d, a = Alert_load d → laterStateOf d d)
  ∨ (∃ a', storageManager (expireStep env now s a) = saveAlert (storageManager s) a'
           ∧ alertId a' = alertId a
           ∧ ∀ d, a = Alert_load d → laterStateOf a' d).
Proof.
  destruct (expireStep_spec env now s a) as [[E _]|(a' & E & Hid & HR)].
  - left. split; [done|]. intros. apply laterStateOf_refl.
  - right. exists a'. split; [done|]. split; [done|]. intros d Hd.
    rewrite (HR d Hd). destruct (expiryDue env now (Alert_load d));
      [|apply laterStateOf_refl].
    apply (laterStateOf_trans _ (Alert_load d));
      [apply laterStateOf_expire | apply laterStateOf_load].
Qed.

Lemma loop_later step rest s id d :
  (∀ s a,
    (storageManager (step s a) = storageManager s
     ∧ ∀ d, a = Alert_load d → laterStateOf d d)
    ∨ (∃ a', storageManager (step s a) = saveAlert (storageManager s) a'
             ∧ alertId a' = alertId a
             ∧ ∀ d, a = Alert_load d → laterStateOf a' d)) →
  pendingIn s rest →
  stored (storageManager s) id = Some d →
  ∃ d', stored (storageManager (fold_left step rest s)) id = Some d'
        ∧ laterStateOf d' d.
Proof.
  intros Hspec Hpend Hst.
  destruct (decide (id ∈ List.map alertId rest)) as [Hin%list_elem_of_In|Hnin].
  - apply (loop_records step (λ d d', laterStateOf d' d) Hspec rest s id d);
      done.
  - exists d. split; [|apply laterStateOf_refl].
    rewrite (loop_other step (λ d d', laterStateOf d' d) Hspec); [done|].
    by intros Hin%list_elem_of_In.
Qed.

Lemma processAllAlerts_later env now svc id d :
  wf_storage (storageManager svc) →
  stored (storageManager svc) id = Some d →
  wf_storage (storageManager (processAllAlerts env now svc))
  ∧ ∃ d', stored (storageManager (processAllAlerts env now svc)) id = Some d'
          ∧ laterStateOf d' d.
Proof.
  intros Hwf Hst. unfold processAllAlerts.
  pose proof (pendingIn_snapshot svc isActive Hwf) as Hpend. split.
  - apply (loop_shape _ (λ d d', laterStateOf d' d)
             (processAlert_later_spec env now) _ svc Hwf Hpend).
  - by apply loop_later; [apply processAlert_later_spec| |].
Qed.

Lemma expireOldAlerts_later env now svc id d :
  wf_storage (storageManager svc) →
  stored (storageManager svc) id = Some d →
  ∃ d', stored (storageManager (expireOldAlerts env now svc)) id = Some d'
        ∧ laterStateOf d' d.
Proof.
  intros Hwf Hst. rewrite expireOldAlerts_fold.
  pose proof (pendingIn_snapshot svc (λ _, true) Hwf) as Hpend.
  rewrite filter_true in Hpend.
  by apply loop_later; [apply expireStep_later_spec| |].
Qed.

Lemma renewAlert_service env now svc id md :
  fst (renewAlert env now svc id md) =
    match getAlertById svc id with
    | None => svc
    | Some alert =>
        fst (processAlert env now
               (withStorage svc
                  (saveAlert (storageManager svc) (renewedAlert md alert)))
               (renewedAlert md alert))
    end.
Proof.
  unfold renewAlert. destruct (getAlertById svc id) as [a|]; [|done].
  fold (renewedAlert md a).
  by destruct (processAlert env now _ (renewedAlert md a)).
Qed.

(** X21.  No call on the service removes an alert or rewrites its past: a
    record stored under an id is still stored under that id after a
    creation (of another id), a resolution, a renewal, a manual sweep, the
    scheduled job or a rule update, with the same id, source type and
    creation timestamp, and a history that starts with the history it
    had. *)
Theorem X21_calls_never_drop_or_rewrite_history env svc call now id d :
  wf_storage (storageManager svc) →
  (∀ b, call ≠ CallSetConnected b) →
  (∀ uuid data, call = CallCreate uuid data → uuid ≠ id) →
  stored (storageManager svc) id = Some d →
  ∃ d', stored (storageManager (runCall env svc (call, now))) id = Some d'
        ∧ laterStateOf d' d.
Proof.
  intros Hwf Hconn Hfresh Hst.
  destruct (stored_In_getAllAlerts _ _ _ Hwf Hst) as [Hid _]. subst id.
  destruct call as [uuid data|id' res|id' md| | |newRules|b]; simpl.
  - exists d. split; [|apply laterStateOf_refl].
    rewrite createAlert_keeps_others; [done | by eapply Hfresh].
  - unfold resolveAlert. rewrite getAlert_stored.
    destruct (decide (id' = alertId d)) as [->|Hne].
    + rewrite Hst. simpl. eexists. split.
      * apply (stored_saveAlert_eq _ (resolve now (Alert_load d) res)).
      * apply (laterStateOf_trans _ (Alert_load d));
          [apply laterStateOf_resolve | apply laterStateOf_load].
    + exists d. split; [|apply laterStateOf_refl].
      destruct (stored (storageManager svc) id') as [d0|] eqn:Hst0; simpl; [|done].
      rewrite stored_saveAlert_ne; [done|]. simpl.
      by destruct (stored_In_getAllAlerts _ _ _ Hwf Hst0) as [-> _].
  - rewrite renewAlert_service. unfold getAlertById. rewrite getAlert_stored.
    destruct (stored (storageManager svc) id') as [d0|] eqn:Hst0;
      [|exists d; split; [done | apply laterStateOf_refl]].
    change (Alert_load <$> Some d0) with (Some (Alert_load d0)). cbv beta iota.
    destruct (stored_In_getAllAlerts _ _ _ Hwf Hst0) as [Hid0 _].
    set (a1 := renewedAlert md (Alert_load d0)).
    set (svc1 := withStorage svc (saveAlert (storageManager svc) a1)).
    assert (Hgoal : ∃ d', stored (storageManager (fst (processAlert env now svc1 a1)))
                            (alertId d)
                          = Some d' ∧ laterStateOf d' d); [|exact Hgoal].
    { destruct (decide (id' = alertId d)) as [->|Hne].
      - rewrite Hst in Hst0. injection Hst0 as <-.
        assert (H1 : stored (storageManager svc1) (alertId d) = Some a1)
          by apply (stored_saveAlert_eq _ a1).
        assert (Hl1 : laterStateOf a1 d) by (by repeat split).
        destruct (processAlert_step_spec env now svc1 a1)
          as [[E _]|(a' & E & Hid' & _)].
        + exists a1. by rewrite E.
        + rewrite processAlert_service in E |- *.
          destruct (bool_decide (alertId a1 ∈ processingQueue svc1));
            [exists a1; by split|].
          destruct (evaluateAlert _ _ _ _ _) as [act|]; [|exists a1; by split].
          exists (executeAction now a1 act). split.
          * simpl.
            replace (alertId d) with (alertId (executeAction now a1 act))
              by (by rewrite executeAction_alertId).
            apply stored_saveAlert_eq.
          * apply (laterStateOf_trans _ a1); [apply laterStateOf_executeAction|done].
      - exists d. split; [|apply laterStateOf_refl].
        rewrite processAlert_stored_other by (simpl; congruence). simpl.
        rewrite stored_saveAlert_ne; [done|]. simpl. congruence. }
  - by apply processAllAlerts_later.
  - unfold backgroundJob.
    destruct (processAllAlerts_later env now svc _ d Hwf Hst) as (Hwf1 & d1 & Hd1 & H1).
    destruct (expireOldAlerts_later env now _ _ d1 Hwf1 Hd1) as (d2 & Hd2 & H2).
    exists d2. split; [done|]. by apply (laterStateOf_trans _ d1).
  - exists d. split; [done | apply laterStateOf_refl].
  - by destruct (Hconn b).
Qed.

Lemma X21_third_alert_through_the_scheduled_job :
  let svc := fst Scenario.run4 in
  let now := Scenario.t0 + 2 * Scenario.minute in
  wf_storage (storageManager svc)
  ∧ ∃ d d', stored (storageManager svc) "a-0003" = Some d
            ∧ stored (storageManager
                        (runCall Scenario.env0 svc (CallBackgroundJob, now))) "a-0003"
              = Some d'
            ∧ laterStateOf d' d.
Proof.
  intros svc now.
  assert (Hwf : wf_storage (storageManager svc))
    by (do 4 apply createAlert_wf; apply emptyStorage_wf).
  split; [exact Hwf|].
  destruct (stored (storageManager svc) "a-0003") as [d|] eqn:Hst;
    [|vm_compute in Hst; discriminate].
  destruct (X21_calls_never_drop_or_rewrite_history Scenario.env0 svc
              CallBackgroundJob now "a-0003" d Hwf) as (d' & Hd' & Hl).
  - intros b. discriminate.
  - intros uuid data. discriminate.
  - exact Hst.
  - exists d, d'. split; [reflexivity|]. split; [exact Hd' | exact Hl].
Defined.

(** ** Queries *)

Lemma filter_filter_andb {A : Type} (p q : A → bool) (l : list A) :
  List.filter p (List.filter q l) = List.filter (λ x, q x && p x) l.
Proof.
  induction l as [|x l IH]; simpl; [done|].
  destruct (q x); simpl; [destruct (p x)|]; by rewrite IH.
Qed.

Lemma filter_if {A : Type} (c : bool) (p : A → bool) (l : list A) :
  (if c then List.filter p l else l) = List.filter (λ x, if c then p x else true) l.
Proof. destruct c; [done | by rewrite filter_true]. Qed.

Lemma getAlerts_eq svc f :
  getAlerts svc f
  = sortNewestFirst (List.filter (passesFilters f) (getAllAlerts (storageManager svc))).
Proof.
  unfold getAlerts. cbv zeta. rewrite !filter_if, !filter_filter_andb.
  f_equal. apply List.filter_ext. intros a. unfold passesFilters.
  by rewrite !andb_assoc.
Qed.

Lemma insertNewest_perm a l : insertNewest a l ≡ₚ a :: l.
Proof.
  induction l as [|b l IH]; simpl; [done|].
  destruct (timestamp a <? timestamp b); [|done].
  rewrite IH. apply Permutation_swap.
Qed.

Lemma sortNewestFirst_perm l : sortNewestFirst l ≡ₚ l.
Proof.
  induction l as [|a l IH]; simpl; [done|].
  by rewrite insertNewest_perm, IH.
Qed.

Lemma insertNewest_sorted a l : newestFirst l → newestFirst (insertNewest a l).
Proof.
  unfold newestFirst. induction 1 as [|b l Hl IH Hb]; simpl.
  - by repeat constructor.
  - destruct (timestamp a <? timestamp b) eqn:Hlt.
    + constructor; [done|]. apply Forall_forall.
      intros c Hc%list_elem_of_In. 
      apply (Permutation_in _ (insertNewest_perm a l)) in Hc as [<-|Hc]; [lia|].
      rewrite Forall_forall in Hb. by apply Hb, list_elem_of_In.
    + constructor; [by constructor|]. constructor; [lia|].
      eapply Forall_impl; [exact Hb|]. simpl. intros c Hc. lia.
Qed.

Lemma sortNewestFirst_sorted l : newestFirst (sortNewestFirst l).
Proof.
  induction l as [|a l IH]; simpl; [constructor | by apply insertNewest_sorted].
Qed.

Lemma insertNewest_same_time t a l :
  List.filter (λ b, timestamp b =? t) (insertNewest a l)
  = List.filter (λ b, timestamp b =? t) (a :: l).
Proof.
  induction l as [|b l IH]; [done|]. cbn [insertNewest].
  destruct (timestamp a <? timestamp b) eqn:Hlt; [|done].
  cbn [List.filter] in *. rewrite IH.
  destruct (timestamp a =? t) eqn:Ha; [|done].
  destruct (timestamp b =? t) eqn:Hb; [lia|done].
Qed.

Lemma sortNewestFirst_same_time t l :
  List.filter (λ b, timestamp b =? t) (sortNewestFirst l)
  = List.filter (λ b, timestamp b =? t) l.
Proof.
  induction l as [|a l IH]; [done|]. cbn [sortNewestFirst foldr].
  fold (sortNewestFirst l). rewrite insertNewest_same_time.
  cbn [List.filter]. by rewrite IH.
Qed.

Lemma filter_set_spec (o : option string) (b : bool) (P : string → Prop) :
  (∀ s, o = Some s → (b = true ↔ P s)) →
  (if truthy_str o then b else true) = true ↔ (∀ s, o = Some s → s ≠ "" → P s).
Proof.
  intros Hb. destruct o as [s|]; simpl; [|by split; [intros _ s [=]|]].
  destruct (String.eqb s "") eqn:Hs; simpl.
  - apply String.eqb_eq in Hs. split; [|done]. intros _ s' [= <-]. done.
  - apply String.eqb_neq in Hs. rewrite (Hb s eq_refl). split.
    + by intros HP s' [= <-].
    + intros H. by apply H.
Qed.

Lemma passesFilters_spec f a :
  passesFilters f a = true ↔
    (∀ s, f_sourceType f = Some s → s ≠ "" → sourceType a = s)
    ∧ (∀ s, f_severity f = Some s → s ≠ "" → severityName (severity a) = s)
    ∧ (∀ s, f_status f = Some s → s ≠ "" → statusName (status a) = s)
    ∧ (∀ s, f_driverId f = Some s → s ≠ "" →
            metadata a !! "driverId" = Some (JStr s)).
Proof.
  unfold passesFilters. rewrite !andb_true_iff.
  rewrite (filter_set_spec (f_sourceType f) _ (λ s, sourceType a = s)),
    (filter_set_spec (f_severity f) _ (λ s, severityName (severity a) = s)),
    (filter_set_spec (f_status f) _ (λ s, statusName (status a) = s)),
    (filter_set_spec (f_driverId f) _ (λ s, metadata a !! "driverId" = Some (JStr s))).
  - tauto.
  - intros s ->. unfold strict_eq. simpl. apply bool_decide_eq_true.
  - intros s ->. simpl. apply String.eqb_eq.
  - intros s ->. simpl. apply String.eqb_eq.
  - intros s ->. simpl. apply String.eqb_eq.
Qed.

(** X22.  [getAlerts(filters)] returns the stored alerts that pass every
    filter that is set, each as often as [getAllAlerts] lists it, newest
    first, alerts of the same timestamp in the order of [getAllAlerts].  A
    filter is set when it is a non-empty string; the source type, severity
    and status filters compare with the alert's own, the driver filter with
    [metadata.driverId] as a string (a numeric driver id never matches),
    and the [vehicleId] filter is not looked at. *)
Theorem X22_getAlerts_filters_then_sorts_newest_first svc f :
  getAlerts svc f
    ≡ₚ List.filter (passesFilters f) (getAllAlerts (storageManager svc))
  ∧ newestFirst (getAlerts svc f)
  ∧ (∀ t, List.filter (λ a, timestamp a =? t) (getAlerts svc f)
          = List.filter (λ a, timestamp a =? t)
              (List.filter (passesFilters f) (getAllAlerts (storageManager svc))))
  ∧ (∀ a, passesFilters f a = true ↔
          (∀ s, f_sourceType f = Some s → s ≠ "" → sourceType a = s)
          ∧ (∀ s, f_severity f = Some s → s ≠ "" → severityName (severity a) = s)
          ∧ (∀ s, f_status f = Some s → s ≠ "" → statusName (status a) = s)
          ∧ (∀ s, f_driverId f = Some s → s ≠ "" →
                  metadata a !! "driverId" = Some (JStr s)))
  ∧ (∀ v, getAlerts svc (withVehicle f v) = getAlerts svc f).
Proof.
  split; [rewrite getAlerts_eq; apply sortNewestFirst_perm|].
  split; [rewrite getAlerts_eq; apply sortNewestFirst_sorted|].
  split; [intros t; rewrite getAlerts_eq; apply sortNewestFirst_same_time|].
  split; [apply passesFilters_spec | done].
Qed.

Lemma js_slice_window {A : Type} (start len : Z) (l : list A) :
  0 ≤ start → 0 ≤ len →
  js_slice start (start + len) l = take (Z.to_nat len) (drop (Z.to_nat start) l).
Proof.
  intros Hs Hl. unfold js_slice.
  destruct (start <? 0) eqn:E1; [lia|]. destruct (start + len <? 0) eqn:E2; [lia|].
  destruct (decide (Z.of_nat (length l) ≤ start)) as [Hge|Hlt].
  - rewrite !drop_ge by lia. by rewrite !take_nil.
  - replace (Z.min start (Z.of_nat (length l))) with start by lia.
    destruct (decide (start + len ≤ Z.of_nat (length l))) as [Hin|Hout].
    + f_equal. lia.
    + rewrite !take_ge; [done|rewrite length_drop; lia..].
Qed.

Lemma take_then_take {A : Type} (n m : nat) (l : list A) :
  take n l ++ take m (drop n l) = take (n + m) l.
Proof.
  revert l. induction n as [|n IH]; intros l; [done|].
  destruct l as [|x l]; simpl; [by rewrite take_nil|]. by rewrite IH.
Qed.

Lemma passesFilters_controller f a :
  passesFilters (controllerFilters f) a = passesFilters f a.
Proof.
  unfold passesFilters, controllerFilters. simpl.
  by destruct (truthy_str (f_sourceType f)) eqn:E1,
    (truthy_str (f_severity f)) eqn:E2, (truthy_str (f_status f)) eqn:E3,
    (truthy_str (f_driverId f)) eqn:E4; rewrite ?E1, ?E2, ?E3, ?E4.
Qed.

Lemma getAlerts_controller svc f :
  getAlerts svc (controllerFilters f) = getAlerts svc f.
Proof.
  rewrite !getAlerts_eq. f_equal. apply List.filter_ext.
  intros a. apply passesFilters_controller.
Qed.

(** X23.  The page of the list route, for an offset and a limit that are
    not negative: [total] is the length of the whole filtered list, the page
    holds the alerts of that list from [offset] on, at most [limit] of them
    ([limit] capped by the configured maximum), each with its age;
    [hasMore] is false exactly when the list ends with the page; and the
    page followed by the page at [offset + limit] is the double page at
    [offset], so that walking the pages neither skips an alert nor repeats
    one. *)
Theorem X23_pages_tile_the_list cfg now svc q :
  let page := controllerGetAlerts cfg now svc q in
  let next := controllerGetAlerts cfg now svc (nextPage cfg q) in
  let all := getAlerts svc (q_filters q) in
  0 ≤ p_offset page → 0 ≤ p_limit page →
  p_total page = length all
  ∧ p_alerts page
    = List.map (toJSON now)
        (take (Z.to_nat (p_limit page)) (drop (Z.to_nat (p_offset page)) all))
  ∧ (length (p_alerts page) ≤ Z.to_nat (p_limit page))%nat
  ∧ (p_hasMore page = false ↔
     drop (Z.to_nat (p_offset page + p_limit page)) all = [])
  ∧ p_offset next = p_offset page + p_limit page
  ∧ p_limit next = p_limit page
  ∧ p_alerts page ++ p_alerts next
    = List.map (toJSON now)
        (take (2 * Z.to_nat (p_limit page)) (drop (Z.to_nat (p_offset page)) all)).
Proof.
  intros page next all. unfold page, next, controllerGetAlerts, nextPage. simpl.
  rewrite !getAlerts_controller. fold all.
  set (offset := default 0 (q_offset q)).
  set (limit := Z.min (default (DEFAULT_PAGE_LIMIT cfg) (q_limit q)) (MAX_PAGE_LIMIT cfg)).
  intros Hoff Hlim. rewrite !js_slice_window by lia.
  split; [done|]. split; [done|]. split; [|split; [|split; [done|split; [done|]]]].
  - rewrite length_map, length_take. lia.
  - rewrite Z.ltb_ge. split.
    + intros Hle. apply drop_ge. lia.
    + intros Hnil. apply (f_equal length) in Hnil. rewrite length_drop in Hnil.
      simpl in Hnil. lia.
  - rewrite <- map_app. f_equal.
    replace (Z.to_nat (offset + limit)) with (Z.to_nat offset + Z.to_nat limit)%nat
      by lia.
    rewrite <- drop_drop, take_then_take. f_equal. lia.
Qed.

Lemma X23_two_pages_of_two_over_four_alerts :
  let q := {| q_filters := Scenario2.noFilters; q_limit := Some 2; q_offset := Some 0 |} in
  let svc := fst Scenario.run4 in
  let now := Scenario.t0 + 2 * Scenario.minute in
  let page := controllerGetAlerts Scenario2.pageConfig now svc q in
  let next := controllerGetAlerts Scenario2.pageConfig now svc
                (nextPage Scenario2.pageConfig q) in
  p_total page = 4%nat
  ∧ p_hasMore page = true ∧ p_hasMore next = false
  ∧ List.map (λ x, alertId (fst x)) (p_alerts page ++ p_alerts next)
    = ["a-0004"; "a-0003"; "a-0002"; "a-0001"].
Proof.
  intros q svc now page next.
  destruct (X23_pages_tile_the_list Scenario2.pageConfig now svc q)
    as (Htotal & _ & _ & _ & _ & _ & Hcat).
  - vm_compute. discriminate.
  - vm_compute. discriminate.
  - split; [vm_compute; reflexivity|].
    split; [vm_compute; reflexivity|]. split; [vm_compute; reflexivity|].
    fold page next in Hcat. rewrite Hcat. vm_compute. reflexivity.
Defined.

(** ** Statistics *)






(** ** The indices of the storage manager *)

Lemma assoc_get_set_eq {V : Type} k (v : V) m : assoc_get k (assoc_set k v m) = Some v.
Proof.
  induction m as [|[k' v'] m IH]; simpl.
  - by rewrite bool_decide_eq_true_2.
  - destruct (bool_decide (k = k')) eqn:E; simpl; rewrite ?E; [|done].
    by rewrite bool_decide_eq_true_2.
Qed.

Lemma assoc_get_set_ne {V : Type} k k' (v : V) m :
  k ≠ k' → assoc_get k' (assoc_set k v m) = assoc_get k' m.
Proof.
  intros Hne. induction m as [|[k0 v0] m IH]; simpl.
  - by rewrite bool_decide_eq_false_2.
  - destruct (decide (k = k0)) as [<-|Hk].
    + rewrite bool_decide_eq_true_2 by done. simpl.
      by rewrite !bool_decide_eq_false_2.
    + rewrite (bool_decide_eq_false_2 (k = k0)) by done. simpl. by rewrite IH.
Qed.

Lemma pushId_get key id index d :
  default [] (assoc_get d (pushId key id index))
  = default [] (assoc_get d index)
    ++ (if bool_decide (key = Some d) && js_truthy (Some d) then [id] else []).
Proof.
  unfold pushId. destruct key as [k|]; [|by rewrite app_nil_r].
  destruct (js_truthy (Some k)) eqn:Hk.
  - destruct (decide (k = d)) as [->|Hne].
    + by rewrite assoc_get_set_eq, bool_decide_eq_true_2, Hk.
    + rewrite assoc_get_set_ne by done.
      rewrite bool_decide_eq_false_2 by congruence. by rewrite app_nil_r.
  - destruct (decide (k = d)) as [->|Hne].
    + by rewrite Hk, andb_false_r, app_nil_r.
    + rewrite bool_decide_eq_false_2 by congruence. by rewrite app_nil_r.
Qed.

Lemma afterSaves_snoc connected saves x :
  afterSaves connected (saves ++ [x])
  = saveAlertIndexed (fst x) (afterSaves connected saves) (snd x).
Proof. unfold afterSaves. by rewrite fold_left_app. Qed.

Lemma saveAlertIndexed_records now ist a :
  records (saveAlertIndexed now ist a) = saveAlert (records ist) a.
Proof. unfold saveAlertIndexed. by destruct (isConnected (records ist)). Qed.

Lemma afterSaves_isConnected connected saves :
  isConnected (records (afterSaves connected saves)) = connected.
Proof.
  induction saves as [|x saves IH] using rev_ind; [done|].
  by rewrite afterSaves_snoc, saveAlertIndexed_records, saveAlert_isConnected.
Qed.

Lemma afterSaves_wf connected saves : wf_storage (records (afterSaves connected saves)).
Proof.
  induction saves as [|x saves IH] using rev_ind; [apply emptyStorage_wf|].
  rewrite afterSaves_snoc, saveAlertIndexed_records. by apply saveAlert_wf.
Qed.

Lemma afterSaves_stored connected saves id :
  In id (List.map alertId (snd <$> saves)) →
  ∃ d, stored (records (afterSaves connected saves)) id = Some d.
Proof.
  induction saves as [|x saves IH] using rev_ind; [done|].
  rewrite fmap_app, map_app, in_app_iff, afterSaves_snoc, saveAlertIndexed_records.
  intros Hin. destruct (decide (alertId (snd x) = id)) as [<-|Hne].
  - exists (snd x). apply stored_saveAlert_eq.
  - rewrite stored_saveAlert_ne by done. apply IH.
    destruct Hin as [Hin|[Hin|[]]]; done.
Qed.

Lemma afterSaves_memory_index saves d :
  default [] (assoc_get d (alertsByDriver (afterSaves false saves)))
  = List.map alertId (List.filter (hasDriver d) (snd <$> saves)).
Proof.
  induction saves as [|x saves IH] using rev_ind; [done|].
  rewrite afterSaves_snoc. unfold saveAlertIndexed.
  rewrite afterSaves_isConnected. cbn [updateMemoryIndices alertsByDriver].
  rewrite pushId_get, IH, fmap_app, List.filter_app, map_app. f_equal.
  simpl. unfold hasDriver. by destruct (_ && _).
Qed.

Lemma js_slice_first {A : Type} (n : Z) (l : list A) :
  0 ≤ n → js_slice 0 n l = take (Z.to_nat n) l.
Proof.
  intros Hn. pose proof (js_slice_window 0 n l (Z.le_refl 0) Hn) as H.
  by rewrite Z.add_0_l in H.
Qed.

Lemma flat_map_found {A : Type} (f : string → option A) (g : A → Alert) ids :
  (∀ id, In id ids → ∃ x, f id = Some x ∧ alertId (g x) = id) →
  List.map alertId
    (List.flat_map (λ id, match f id with Some x => [g x] | None => [] end) ids)
  = ids.
Proof.
  induction ids as [|id ids IH]; intros H; [done|]. simpl.
  destruct (H id (or_introl eq_refl)) as (x & -> & Hx). simpl.
  rewrite Hx, IH; [done|]. intros id' Hin. apply H. by right.
Qed.

(** X25.  With Redis down, the driver index holds the id of an alert once
    per save: [getAlertsByDriver] returns, oldest save first, one entry for
    each of the first [limit] saves of an alert carrying that driver id, so
    that an alert saved twice (created, then escalated) is returned twice;
    each entry is the alert as the store holds it now. *)
Theorem X25_memory_index_has_one_entry_per_save saves d limit :
  0 ≤ limit →
  List.map alertId (getAlertsByDriver (afterSaves false saves) d (Some limit))
  = take (Z.to_nat limit)
      (List.map alertId (List.filter (hasDriver d) (snd <$> saves)))
  ∧ ∀ a, In a (getAlertsByDriver (afterSaves false saves) d (Some limit)) →
         getAlert (records (afterSaves false saves)) (alertId a) = Some a.
Proof.
  intros Hlim. unfold getAlertsByDriver. rewrite afterSaves_isConnected.
  cbn [default]. rewrite js_slice_first by done.
  pose proof (afterSaves_memory_index saves d) as Hindex.
  set (ist := afterSaves false saves) in *.
  assert (Hmem : ∀ id, kv_get id (memoryStore (records ist)) = stored (records ist) id).
  { intros id. unfold stored, keyFor, backend, ist.
    by rewrite afterSaves_isConnected. }
  assert (Hids : ∀ id,
            In id (take (Z.to_nat limit)
                     (default [] (assoc_get d (alertsByDriver ist)))) →
            ∃ data, kv_get id (memoryStore (records ist)) = Some data
                    ∧ alertId (Alert_load data) = id).
  { intros id Hin. rewrite Hindex in Hin.
    assert (Hsaved : In id (List.map alertId (snd <$> saves))).
    { apply list_elem_of_In in Hin. apply list_elem_of_In.
      apply (subseteq_take (Z.to_nat limit)) in Hin.
      apply list_elem_of_In, in_map_iff in Hin as (a & <- & [Ha _]%List.filter_In).
      apply list_elem_of_In. by apply in_map. }
    destruct (afterSaves_stored false saves id Hsaved) as [data Hst].
    exists data. rewrite Hmem. split; [done|].
    by destruct (stored_In_getAllAlerts _ _ _ (afterSaves_wf false saves) Hst). }
  split.
  - rewrite (flat_map_found _ Alert_load) by done. by rewrite Hindex.
  - intros a (id & Hid & Ha)%in_flat_map.
    destruct (Hids id Hid) as (data & Hdata & Hload). rewrite Hdata in Ha.
    destruct Ha as [<-|[]]. rewrite Hload, getAlert_stored, <- Hmem. by rewrite Hdata.
Qed.

Lemma X25_escalated_third_alert_is_listed_twice :
  let saves := [ (Scenario.t0, snd Scenario.run1);
                 (Scenario.t0 + 2 * Scenario.second, Scenario.third);
                 (Scenario.t0 + 2 * Scenario.second, snd Scenario.run3) ] in
  afterSaves false saves = Scenario2.memoryIndexed
  ∧ List.map alertId (getAlertsByDriver (afterSaves false saves) (JStr "DRV001") (Some 10))
    = ["a-0001"; "a-0003"; "a-0003"].
Proof.
  intros saves. split; [reflexivity|].
  rewrite (proj1 (X25_memory_index_has_one_entry_per_save saves (JStr "DRV001") 10
                    ltac:(lia))).
  vm_compute. reflexivity.
Defined.

Lemma kv_set_keys_In {V : Type} k (v : V) m i :
  In i (List.map fst (kv_set k v m)) ↔ i = k ∨ In i (List.map fst m).
Proof.
  destruct (kv_get k m) as [v0|] eqn:Hget.
  - rewrite kv_set_keys_present by done. split; [by right|].
    intros [->|Hin]; [|done]. apply kv_get_In in Hget.
    by apply (in_map fst) in Hget.
  - rewrite kv_set_keys_absent, in_app_iff by done. simpl.
    split; [intros [?|[?|[]]]|intros [?|?]]; auto.
Qed.

Lemma zaddIndex_members mkKey key now id zs K i :
  In i (List.map fst (default [] (kv_get K (zaddIndex mkKey key now id zs))))
  ↔ In i (List.map fst (default [] (kv_get K zs)))
    ∨ (i = id ∧ ∃ k, key = Some k ∧ js_truthy (Some k) = true ∧ mkKey k = K).
Proof.
  assert (Hsame : key = None ∨ js_truthy key = false ∨
                  (∃ k, key = Some k ∧ mkKey k ≠ K) →
                  ¬ (∃ k, key = Some k ∧ js_truthy (Some k) = true ∧ mkKey k = K)).
  { intros [->|[Hf|(k & -> & Hne)]] (k' & Hk' & Ht & HK); simplify_eq.
    congruence. }
  unfold zaddIndex. destruct key as [k|]; [|split; [by left|]; intros [?|[_ H]];
    [done | by destruct Hsame; [left|]]].
  destruct (js_truthy (Some k)) eqn:Hk;
    [|split; [by left|]; intros [?|[_ H]]; [done | by destruct Hsame; [right; left|]]].
  unfold zadd. destruct (decide (mkKey k = K)) as [<-|Hne].
  - rewrite kv_get_set_eq. simpl. rewrite kv_set_keys_In. split.
    + intros [->|Hin]; [right; split; [done|]; by exists k | by left].
    + intros [Hin|[-> _]]; [by right | by left].
  - rewrite kv_get_set_ne by done. split; [by left|]. intros [?|[_ H]]; [done|].
    destruct Hsame; [right; right; by exists k | done].
Qed.

Lemma zaddIndex_NoDup mkKey key now id zs :
  (∀ K, NoDup (List.map fst (default [] (kv_get K zs)))) →
  ∀ K, NoDup (List.map fst (default [] (kv_get K (zaddIndex mkKey key now id zs)))).
Proof.
  intros Hnd K. unfold zaddIndex. destruct key as [k|]; [|done].
  destruct (js_truthy (Some k)); [|done].
  unfold zadd. destruct (decide (mkKey k = K)) as [<-|Hne].
  - rewrite kv_get_set_eq. simpl. by apply kv_set_keys_NoDup.
  - by rewrite kv_get_set_ne.
Qed.

Lemma driverKey_not_vehicleKey d v : vehicleKey v ≠ driverKey d.
Proof. intros H. vm_compute in H. discriminate. Qed.

Lemma afterSaves_zset_NoDup saves K :
  NoDup (List.map fst (default [] (kv_get K (zsets (afterSaves true saves))))).
Proof.
  revert K. induction saves as [|x saves IH] using rev_ind; intros K;
    [constructor|].
  rewrite afterSaves_snoc. unfold saveAlertIndexed.
  rewrite afterSaves_isConnected. cbn [zsets].
  by do 2 apply zaddIndex_NoDup.
Qed.

Lemma afterSaves_driver_zset saves d id :
  In id (List.map fst
           (default [] (kv_get (driverKey d) (zsets (afterSaves true saves)))))
  ↔ ∃ x k, In x saves ∧ alertId (snd x) = id ∧ hasDriver k (snd x) = true
           ∧ driverKey k = driverKey d.
Proof.
  induction saves as [|x saves IH] using rev_ind.
  - split; [done|]. by intros (x & k & [] & _).
  - rewrite afterSaves_snoc. unfold saveAlertIndexed.
    rewrite afterSaves_isConnected. cbn [zsets].
    rewrite !zaddIndex_members, IH. unfold hasDriver. split.
    + intros [[(y & k & Hy & Hid & Hk & HK)|(-> & k & Hk & Ht & HK)]
             |(-> & k & Hk & Ht & HK)].
      * exists y, k. rewrite in_app_iff. auto.
      * exists x, k. rewrite in_app_iff, Hk, Ht, bool_decide_eq_true_2 by done.
        simpl. auto.
      * by destruct (driverKey_not_vehicleKey d k).
    + intros (y & k & [Hy|[<-|[]]]%in_app_iff & Hid & Hk & HK).
      * left. left. by exists y, k.
      * left. right. apply andb_true_iff in Hk as [Hk%bool_decide_eq_true Ht].
        split; [done|]. by exists k.
Qed.

Lemma zrev_insert_perm x l : zrev_insert x l ≡ₚ x :: l.
Proof.
  induction l as [|y l IH]; simpl; [done|].
  destruct (zrev_before x y); [done|]. rewrite IH. apply Permutation_swap.
Qed.

Lemma zrev_sort_perm l : zrev_sort l ≡ₚ l.
Proof.
  induction l as [|x l IH]; simpl; [done|]. by rewrite zrev_insert_perm, IH.
Qed.

Lemma zrevrange_sublist key start stop zs :
  zrevrange key start stop zs
    `sublist_of` List.map fst (zrev_sort (default [] (kv_get key zs))).
Proof.
  unfold zrevrange. cbv zeta. destruct (_ <? _); [apply sublist_nil_l|].
  set (sorted := zrev_sort _).
  assert (Hmap : ∀ l l' : list (string * Z),
            l `sublist_of` l' → List.map fst l `sublist_of` List.map fst l').
  { induction 1; simpl; by constructor. }
  apply Hmap. etrans; [apply sublist_take | apply sublist_drop].
Qed.

Lemma zrevrange_length key limit zs :
  1 ≤ limit → (length (zrevrange key 0 (limit - 1) zs) ≤ Z.to_nat limit)%nat.
Proof.
  intros Hlim. unfold zrevrange. cbv zeta. destruct (_ <? _); simpl; [lia|].
  rewrite length_map, length_take.
  destruct (limit - 1 <? 0) eqn:E; lia.
Qed.

Lemma zrevrange_all key zs :
  zrevrange key 0 (-1) zs = List.map fst (zrev_sort (default [] (kv_get key zs))).
Proof.
  unfold zrevrange. cbv zeta. generalize (zrev_sort (default [] (kv_get key zs))).
  intros sorted. change (0 <? 0) with false. change (-1 <? 0) with true. cbv iota.
  destruct (_ <? _) eqn:E.
  - destruct sorted; [done|]. cbn [length] in E. apply Z.ltb_lt in E. lia.
  - change (Z.to_nat (0 `max` 0)) with 0%nat. rewrite drop_0, take_ge; [done|]. lia.
Qed.

Lemma found_sublist (f : string → option Alert) ids :
  (∀ id a, f id = Some a → alertId a = id) →
  List.map alertId
    (List.flat_map (λ id, match f id with Some a => [a] | None => [] end) ids)
    `sublist_of` ids.
Proof.
  intros Hid. induction ids as [|id ids IH]; simpl; [constructor|].
  destruct (f id) as [a|] eqn:Hf; simpl.
  - rewrite (Hid id a Hf). by constructor.
  - by constructor.
Qed.

Lemma getAlert_alertId st id a :
  wf_storage st → getAlert st id = Some a → alertId a = id.
Proof.
  intros Hwf. rewrite getAlert_stored.
  destruct (stored st id) as [d|] eqn:Hst; [|done]. intros [= <-].
  by destruct (stored_In_getAllAlerts _ _ _ Hwf Hst).
Qed.

(** X26.  With Redis connected, the driver index is a sorted set, which
    holds an id once however often the alert is saved:
    [getAlertsByDriver] returns no alert twice, and at most [limit] alerts
    for a limit of one or more.  A limit of 0 asks Redis for the range
    [0 .. -1], the whole set, so every alert saved under a driver id with
    the same text is returned, where the in-memory manager returns none
    for the same call. *)
Theorem X26_redis_index_has_one_entry_per_alert saves d limit :
  NoDup (List.map alertId (getAlertsByDriver (afterSaves true saves) d (Some limit)))
  ∧ (1 ≤ limit →
     (length (getAlertsByDriver (afterSaves true saves) d (Some limit))
      ≤ Z.to_nat limit)%nat)
  ∧ (∀ id, In id (List.map alertId
                    (getAlertsByDriver (afterSaves true saves) d (Some 0)))
           ↔ ∃ x k, In x saves ∧ alertId (snd x) = id ∧ hasDriver k (snd x) = true
                    ∧ driverKey k = driverKey d)
  ∧ getAlertsByDriver (afterSaves false saves) d (Some 0) = [].
Proof.
  unfold getAlertsByDriver. rewrite !afterSaves_isConnected. cbn [default].
  set (ist := afterSaves true saves).
  pose proof (afterSaves_wf true saves) as Hwf. fold ist in Hwf.
  split; [|split; [|split]].
  - eapply sublist_NoDup.
    + eapply sublist_NoDup; [|apply zrevrange_sublist].
      rewrite zrev_sort_perm. apply afterSaves_zset_NoDup.
    + apply found_sublist. intros id a. by apply getAlert_alertId.
  - intros Hlim.
    assert (Hlen : ∀ ids,
              (length (List.flat_map
                         (λ id, match getAlert (records ist) id with
                                | Some alert => [alert]
                                | None => []
                                end) ids)
               ≤ length ids)%nat).
    { intros ids. induction ids as [|id ids IH]; simpl; [lia|].
      rewrite length_app. destruct (getAlert (records ist) id); simpl; lia. }
    etrans; [apply Hlen | by apply zrevrange_length].
  - intros id. change (0 - 1) with (-1). rewrite zrevrange_all.
    rewrite <- afterSaves_driver_zset. fold ist.
    set (members := default [] (kv_get (driverKey d) (zsets ist))).
    assert (Hall : List.map alertId
              (List.flat_map
                 (λ id, match getAlert (records ist) id with
                        | Some alert => [alert]
                        | None => []
                        end)
                 (List.map fst (zrev_sort members)))
              = List.map fst (zrev_sort members)).
    { apply (flat_map_found (getAlert (records ist)) (λ a, a)).
      intros i Hi.
      assert (Hm : In i (List.map fst members)).
      { apply list_elem_of_In. rewrite <- (zrev_sort_perm members).
        by apply list_elem_of_In. }
      apply afterSaves_driver_zset in Hm as (x & k & Hx & Hid & _).
      destruct (afterSaves_stored true saves i) as [data Hst].
      { rewrite <- Hid. apply in_map. apply list_elem_of_In, list_elem_of_fmap.
        exists x. split; [done | by apply list_elem_of_In]. }
      exists (Alert_load data). fold ist in Hst.
      rewrite getAlert_stored, Hst. split; [done|]. simpl.
      by destruct (stored_In_getAllAlerts _ _ _ Hwf Hst). }
    rewrite Hall. split; intros Hin%list_elem_of_In; apply list_elem_of_In.
    + by rewrite <- (zrev_sort_perm members).
    + by rewrite (zrev_sort_perm members).
  - by rewrite js_slice_first.
Qed.
